(** * csim.c: a trace-driven cache simulator

    A shallow embedding of [src/csim.c] (address decoding, the per-set
    survey with its LRU/LFU victim choice, the Modify double access and
    the replay loop of [main]) and the properties of it that the
    specification states.

    Conventions of the embedding.
    - A C [int] or [long] is a [Z] lying in the range of the type.  Signed
      arithmetic that leaves the range, a shift whose count is not below
      the width of the (promoted) left operand, and an array access
      outside the allocated lines have no defined result in C: the
      operations below return [None] there, and every function that uses
      them is written in the [option] monad.
    - A left shift of a negative [int] acts on its two's-complement bit
      pattern and a right shift of a negative [long] copies the sign bit
      (what gcc and clang document and compile).
    - The array of lines of a set is a [list cLine] read with [!!] and
      written with [<[ i := l ]>]; the array of sets is a list of those,
      and a set that was surveyed is written back at its index, which is
      what mutation through the pointer [cache[setNumber]] does.
    - A [strcpy] of more bytes than its destination holds writes outside
      the array: it has no defined result either.  This is the case of
      the 6-byte [result] of [cacheSim] whenever a survey reports an
      eviction, whose text takes 7 bytes.
    - The text printed under [-v] is a list of events. *)

From stdpp Require Import base tactics option list numbers strings.
From Stdlib Require Import ZArith Lia Ascii.

Local Open Scope Z_scope.

(** ** Machine integers *)

Module MachineInt.

Definition INT_MIN : Z := - 2 ^ 31.
Definition INT_MAX : Z := 2 ^ 31 - 1.
Definition LONG_MIN : Z := - 2 ^ 63.
Definition LONG_MAX : Z := 2 ^ 63 - 1.

(** The signed value of the low [w] bits of [x]. *)
Definition wrap (w x : Z) : Z := (x + 2 ^ (w - 1)) `mod` 2 ^ w - 2 ^ (w - 1).

Definition int_of_Z : Z → Z := wrap 32.
Definition long_of_Z : Z → Z := wrap 64.

(** A signed result is defined only when it is representable. *)
Definition checked (lo hi r : Z) : option Z :=
  if decide (lo ≤ r ≤ hi) then Some r else None.

Definition int_add (x y : Z) : option Z := checked INT_MIN INT_MAX (x + y).
Definition int_sub (x y : Z) : option Z := checked INT_MIN INT_MAX (x - y).
Definition long_add (x y : Z) : option Z := checked LONG_MIN LONG_MAX (x + y).

(** [x << n] on [int]. *)
Definition int_shl (x n : Z) : option Z :=
  if decide (0 ≤ n < 32) then Some (int_of_Z (Z.shiftl x n)) else None.

(** [x >> n] on [long]. *)
Definition long_shr (x n : Z) : option Z :=
  if decide (0 ≤ n < 64) then Some (Z.shiftr x n) else None.

(** [~x]. *)
Definition bit_not (x : Z) : Z := Z.lnot x.
Global Arguments bit_not : simpl never.

(** [l[i]] for a signed index. *)
Definition index {A} (l : list A) (i : Z) : option A :=
  if decide (0 ≤ i) then l !! Z.to_nat i else None.

End MachineInt.
Import MachineInt.

(** ** Data *)

(** [enum Policy {LRU=0, LFU=1}] *)
Definition LRU : Z := 0.
Definition LFU : Z := 1.

(** [struct arguments] (without [help] and [tracefile], which the
    simulation does not read). *)
Record arguments := mk_arguments {
  verbose : Z;
  sbits : Z;
  perset : Z;
  bbits : Z;
  policy : Z
}.

Record cachestats := mk_cachestats {
  miss_count : Z;
  hit_count : Z;
  eviction_count : Z
}.

Record cLine := mk_cLine {
  valid : Z;
  tag : Z;
  recent : Z;
  freq : Z
}.

(** ** Address decoding *)

(** [findTag]: [~0] is an [int], so the shift and the complement are
    [int] operations; their result is converted to the [long] [mask],
    which keeps its value. *)
Definition findTag (address sbits bbits : Z) : option Z :=
  t ← int_sub 64 sbits;
  tbits ← int_sub t bbits;
  shifted ← int_shl (bit_not 0) tbits;
  let mask := bit_not shifted in
  sb ← int_add sbits bbits;
  hi ← long_shr address sb;
  Some (Z.land hi mask).

(** [findSet]: here the mask is declared [int]; it is converted to
    [long] for the [&]. *)
Definition findSet (address sbits bbits : Z) : option Z :=
  shifted ← int_shl (bit_not 0) sbits;
  let mask := bit_not shifted in
  hi ← long_shr address bbits;
  Some (Z.land hi mask).

(** [findTag] as the shift instructions of x86-64 and AArch64 complete
    it: a shift count is taken modulo the width of the shifted operand,
    32 for the [int] and 64 for the [long]. *)
Definition findTag_mod (address sbits bbits : Z) : Z :=
  let tbits := 64 - sbits - bbits in
  let mask := bit_not (int_of_Z (Z.shiftl (bit_not 0) (tbits `mod` 32))) in
  Z.land (Z.shiftr address ((sbits + bbits) `mod` 64)) mask.

(** ** The cache *)

(** [buildCache]: [sets] arrays of [lines] copies of [{0,0,0,0}]. *)
Definition singleLine : cLine :=
  {| valid := 0; tag := 0; recent := 0; freq := 0 |}.

Definition buildCache (lines sets : Z) : list (list cLine) :=
  replicate (Z.to_nat sets) (replicate (Z.to_nat lines) singleLine).

(** [sameTag] *)
Definition sameTag (tag1 tag2 : Z) : Z :=
  if decide (tag1 = tag2) then 1 else 0.

(** The locals of [surveySet] that live across iterations of its loop. *)
Record survey_vars := mk_survey_vars {
  minLRU : Z;
  minLFU : Z;
  minLRUIndex : nat;
  minLFUIndex : nat
}.

(** Lines 279-284: the running minimum of [recent]. *)
Definition track_LRU (i : nat) (line : cLine) (v : survey_vars) : survey_vars :=
  if decide (recent line < minLRU v)
  then {| minLRU := recent line; minLFU := minLFU v;
          minLRUIndex := i; minLFUIndex := minLFUIndex v |}
  else v.

(** Lines 285-298: the running minimum of [freq]; it runs after
    [track_LRU] and reads the [minLRU] that one has just written. *)
Definition track_LFU (i : nat) (line : cLine) (v : survey_vars) : survey_vars :=
  if decide (freq line < minLFU v)
  then {| minLRU := minLRU v; minLFU := freq line;
          minLRUIndex := minLRUIndex v; minLFUIndex := i |}
  else if decide (freq line = minLFU v)
  then if decide (recent line < minLRU v)
       then {| minLRU := minLRU v; minLFU := minLFU v;
               minLRUIndex := minLRUIndex v; minLFUIndex := i |}
       else v
  else v.

(** How the [while] loop of [surveySet] ends. *)
Inductive survey_exit :=
  | Stored (singleSet : list cLine) (stats : cachestats) (result : string)
  | NotStored (v : survey_vars).

(** The loop of lines 264-311, entered at index [i] with [n] iterations
    left ([n = lines - i]). *)
Fixpoint survey_loop (n : nat) (singleSet : list cLine) (stats : cachestats)
    (tag' clock : Z) (i : nat) (v : survey_vars) : option survey_exit :=
  match n with
  | O => Some (NotStored v)
  | S n' =>
    line ← singleSet !! i;
    if decide (valid line ≠ 0) then
      if decide (sameTag (tag line) tag' ≠ 0) then
        hits ← int_add (hit_count stats) 1;
        f ← long_add (freq line) 1;
        Some (Stored
                (<[i := {| valid := valid line; tag := tag line;
                           recent := clock; freq := f |}]> singleSet)
                {| miss_count := miss_count stats; hit_count := hits;
                   eviction_count := eviction_count stats |}
                "hit ")
      else
        survey_loop n' singleSet stats tag' clock (S i)
                    (track_LFU i line (track_LRU i line v))
    else
      misses ← int_add (miss_count stats) 1;
      Some (Stored
              (<[i := {| valid := 1; tag := tag'; recent := clock;
                         freq := freq line |}]> singleSet)
              {| miss_count := misses; hit_count := hit_count stats;
                 eviction_count := eviction_count stats |}
              "miss ")
  end.

(** Lines 317-324. *)
Definition finalIndex (policy : Z) (v : survey_vars) : nat :=
  if decide (policy = LRU) then minLRUIndex v
  else if decide (policy = LFU) then minLFUIndex v
  else 0%nat.

(** [surveySet]: the set after the access, the counters and the text
    that it copies to [result]; whether the text fits depends on the
    buffer that the caller passes, see [cacheSim]. *)
Definition surveySet (singleSet : list cLine) (stats : cachestats)
    (lines tag' clock policy : Z) : option (list cLine * cachestats * string) :=
  e ← survey_loop (Z.to_nat lines) singleSet stats tag' clock 0
        {| minLRU := clock; minLFU := clock;
           minLRUIndex := 0; minLFUIndex := 0 |};
  match e with
  | Stored singleSet' stats' result => Some (singleSet', stats', result)
  | NotStored v =>
    let fi := finalIndex policy v in
    line ← singleSet !! fi;
    misses ← int_add (miss_count stats) 1;
    evictions ← int_add (eviction_count stats) 1;
    Some (<[fi := {| valid := valid line; tag := tag'; recent := clock;
                     freq := 0 |}]> singleSet,
          {| miss_count := misses; hit_count := hit_count stats;
             eviction_count := evictions |},
          "evict ")
  end.

(** What [cacheSim] and [main] print under [-v]. *)
Inductive event :=
  | Echo (operation : ascii) (address bytes : Z)
  | Result (result : string)
  | Newline.

(** [char result[6]] of [cacheSim]. *)
Definition result_size : Z := 6.

(** The bytes that [strcpy] writes for a string: its characters and
    the terminating NUL. *)
Definition strcpy_bytes (s : string) : Z := Z.of_nat (String.length s) + 1.

(** The [strcpy(result, ...)] that ends [surveySet] (lines 276, 307 and
    330), for the [result] that [cacheSim] passes: a text that needs
    more than the 6 bytes of the buffer is written past its end. *)
Definition strcpy_result (text : string) : option string :=
  if decide (strcpy_bytes text ≤ result_size) then Some text else None.

(** [cacheSim]: one survey, and for ['M'] a second one of the same set
    with the local [clock] advanced; each writes its text to [result]. *)
Definition cacheSim (cache : list (list cLine)) (stats : cachestats)
    (tag setNumber lines clock : Z) (operation : ascii) (policy verbose : Z)
    : option (list (list cLine) * cachestats * list event) :=
  singleSet ← index cache setNumber;
  '(singleSet1, stats1, text1) ←
    surveySet singleSet stats lines tag clock policy;
  result1 ← strcpy_result text1;
  let cache1 := <[Z.to_nat setNumber := singleSet1]> cache in
  let out1 := if decide (verbose ≠ 0) then [Result result1] else [] in
  '(cache2, stats2, out2) ←
    (if decide (operation = "M"%char) then
       clock' ← long_add clock 1;
       '(singleSet2, stats2, text2) ←
         surveySet singleSet1 stats1 lines tag clock' policy;
       result2 ← strcpy_result text2;
       Some (<[Z.to_nat setNumber := singleSet2]> cache1, stats2,
             if decide (verbose ≠ 0) then [Result result2] else [])
     else Some (cache1, stats1, []));
  Some (cache2, stats2,
        out1 ++ out2 ++ (if decide (verbose ≠ 0) then [Newline] else [])).

(** ** The replay loop of [main] *)

(** A trace line that starts with a blank, as [sscanf] reads it;
    [address] is the [long] that ["%lx"] stored. *)
Record record := mk_record {
  operation : ascii;
  address : Z;
  bytes : Z
}.

(** The locals of [main] that the loop changes, and what was printed. *)
Record state := mk_state {
  st_cache : list (list cLine);
  st_stats : cachestats;
  st_clock : Z;
  st_out : list event
}.

(** [main] up to the loop: [sets = 1 << sbits], the cache, zeroed
    counters and clock. *)
Definition start (args : arguments) : option state :=
  sets ← int_shl 1 (sbits args);
  Some {| st_cache := buildCache (perset args) sets;
          st_stats := {| miss_count := 0; hit_count := 0; eviction_count := 0 |};
          st_clock := 0; st_out := [] |}.

(** Lines 451 and 460: the clock tick and the call of [cacheSim], for a
    record already decoded into [tag] and [setNumber]. *)
Definition access (args : arguments) (st : state)
    (tag setNumber : Z) (op : ascii) (echo : list event) : option state :=
  clock ← long_add (st_clock st) 1;
  '(cache', stats', out) ←
    cacheSim (st_cache st) (st_stats st) tag setNumber (perset args)
             clock op (policy args) (verbose args);
  Some {| st_cache := cache'; st_stats := stats'; st_clock := clock;
          st_out := st_out st ++ echo ++ out |}.

(** The body of the loop, lines 449-461. *)
Definition replay_line (args : arguments) (st : state) (r : record)
    : option state :=
  tag ← findTag (address r) (sbits args) (bbits args);
  setNumber ← findSet (address r) (sbits args) (bbits args);
  access args st tag setNumber (operation r)
         (if decide (verbose args ≠ 0)
          then [Echo (operation r) (address r) (bytes r)] else []).

(** The loop over the accepted lines of the trace. *)
Fixpoint replay_from (args : arguments) (st : state) (trace : list record)
    : option state :=
  match trace with
  | [] => Some st
  | r :: trace' => st' ← replay_line args st r; replay_from args st' trace'
  end.

Definition replay (args : arguments) (trace : list record) : option state :=
  st ← start args; replay_from args st trace.

(** The same loop over records that are already decoded: what [cacheSim]
    can be called with, whatever [findTag] and [findSet] return. *)
Record lookup := mk_lookup {
  l_tag : Z;
  l_set : Z;
  l_op : ascii;
  l_echo : list event
}.

Fixpoint simulate_from (args : arguments) (st : state) (ls : list lookup)
    : option state :=
  match ls with
  | [] => Some st
  | l :: ls' =>
    st' ← access args st (l_tag l) (l_set l) (l_op l) (l_echo l);
    simulate_from args st' ls'
  end.

Definition simulate (args : arguments) (ls : list lookup) : option state :=
  st ← start args; simulate_from args st ls.

(** The states between two trace lines. *)
Definition reachable (args : arguments) (st : state) : Prop :=
  ∃ ls, simulate args ls = Some st.

(** The calls of [surveySet] that executions make: the first one of a
    trace line, on a set of a reachable state one tick later, and the
    second one of a Modify, on the set the first one left, whatever
    text the first one reported. *)
Inductive surveyed (args : arguments) : list cLine → cachestats → Z → Z → Prop :=
  | surveyed_first st tag' setNumber singleSet clock :
      reachable args st →
      index (st_cache st) setNumber = Some singleSet →
      long_add (st_clock st) 1 = Some clock →
      surveyed args singleSet (st_stats st) tag' clock
  | surveyed_second singleSet stats tag' clock singleSet1 stats1 result1 clock' :
      surveyed args singleSet stats tag' clock →
      surveySet singleSet stats (perset args) tag' clock (policy args)
        = Some (singleSet1, stats1, result1) →
      long_add clock 1 = Some clock' →
      surveyed args singleSet1 stats1 tag' clock'.

(** ** Vocabulary of the statements *)

(** Lines [i], ..., [j-1] are valid and hold other tags than [tag']. *)
Definition scanned (s : list cLine) (tag' : Z) (i j : nat) : Prop :=
  ∀ k, (i ≤ k < j)%nat → ∃ l, s !! k = Some l ∧ valid l ≠ 0 ∧ tag l ≠ tag'.

(** The loop variables after [n] iterations from index [i] without a
    hit or an empty line. *)
Fixpoint track (n : nat) (s : list cLine) (i : nat) (v : survey_vars)
    : survey_vars :=
  match n with
  | O => v
  | S n' =>
    match s !! i with
    | Some line => track n' s (S i) (track_LFU i line (track_LRU i line v))
    | None => v
    end
  end.

Definition survey_init (clock : Z) : survey_vars :=
  {| minLRU := clock; minLFU := clock; minLRUIndex := 0; minLFUIndex := 0 |}.

(** Line [v] is the first line of [s] with the least [key]: no line
    has a smaller one, and the lines before it have a larger one. *)
Definition first_min (key : cLine → Z) (s : list cLine) (v : nat) : Prop :=
  ∃ l, s !! v = Some l
       ∧ (∀ k l', s !! k = Some l' → key l ≤ key l')
       ∧ (∀ k l', (k < v)%nat → s !! k = Some l' → key l < key l').

(** The least recently used line, the lowest one among equals. *)
Definition is_LRU : list cLine → nat → Prop := first_min recent.





(** Simulated sub-accesses of a sequence of operations. *)
Fixpoint sub_accesses (ops : list ascii) : Z :=
  match ops with
  | [] => 0
  | op :: ops' => (if decide (op = "M"%char) then 2 else 1) + sub_accesses ops'
  end.

(** ** [surveySet] as a relation *)

(** The lines and counters a survey writes. *)
Definition hit_line (clock f : Z) (l : cLine) : cLine :=
  {| valid := valid l; tag := tag l; recent := clock; freq := f |}.
Definition fill_line (tag' clock : Z) (l : cLine) : cLine :=
  {| valid := 1; tag := tag'; recent := clock; freq := freq l |}.
Definition evict_line (tag' clock : Z) (l : cLine) : cLine :=
  {| valid := valid l; tag := tag'; recent := clock; freq := 0 |}.
Definition count_hit (h : Z) (stats : cachestats) : cachestats :=
  {| miss_count := miss_count stats; hit_count := h;
     eviction_count := eviction_count stats |}.
Definition count_miss (m : Z) (stats : cachestats) : cachestats :=
  {| miss_count := m; hit_count := hit_count stats;
     eviction_count := eviction_count stats |}.
Definition count_evict (m e : Z) (stats : cachestats) : cachestats :=
  {| miss_count := m; hit_count := hit_count stats; eviction_count := e |}.

(** The three outcomes of a survey of [s]: a hit on line [j], an empty
    line [j] filled, or the line chosen by [finalIndex] after a full
    scan replaced. *)
Inductive survey_case (s : list cLine) (stats : cachestats)
    (lines tag' clock policy : Z) : list cLine → cachestats → string → Prop :=
  | survey_hit j l h f :
      (j < Z.to_nat lines)%nat → scanned s tag' 0 j →
      s !! j = Some l → valid l ≠ 0 → tag l = tag' →
      int_add (hit_count stats) 1 = Some h →
      long_add (freq l) 1 = Some f →
      survey_case s stats lines tag' clock policy
        (<[j := hit_line clock f l]> s) (count_hit h stats) "hit "
  | survey_miss j l m :
      (j < Z.to_nat lines)%nat → scanned s tag' 0 j →
      s !! j = Some l → valid l = 0 →
      int_add (miss_count stats) 1 = Some m →
      survey_case s stats lines tag' clock policy
        (<[j := fill_line tag' clock l]> s) (count_miss m stats) "miss "
  | survey_evict fi l m e :
      scanned s tag' 0 (Z.to_nat lines) →
      fi = finalIndex policy (track (Z.to_nat lines) s 0 (survey_init clock)) →
      s !! fi = Some l →
      int_add (miss_count stats) 1 = Some m →
      int_add (eviction_count stats) 1 = Some e →
      survey_case s stats lines tag' clock policy
        (<[fi := evict_line tag' clock l]> s) (count_evict m e stats) "evict ".

(** Within the lines a survey scans, [s] has a valid line with tag
    [tag'] that the scan reaches. *)
Definition holds (lines : Z) (s : list cLine) (tag' : Z) : Prop :=
  ∃ j l, (j < Z.to_nat lines)%nat ∧ scanned s tag' 0 j ∧
         s !! j = Some l ∧ valid l ≠ 0 ∧ tag l = tag'.

(** ** Invariants *)

(** The counters are non-negative and no eviction goes without a miss. *)
Definition stats_ok (stats : cachestats) : Prop :=
  0 ≤ hit_count stats ∧ 0 ≤ eviction_count stats ≤ miss_count stats.

(** A set as [buildCache] and the surveys leave it: [lines] long, and
    from its first empty line on untouched. *)
Definition set_ok (lines : Z) (s : list cLine) : Prop :=
  length s = Z.to_nat lines
  ∧ ∀ i j li lj, (i ≤ j)%nat → s !! i = Some li → s !! j = Some lj →
                 valid li = 0 → lj = singleLine.

(** What the loop knows before iteration [i] about a running minimum
    [m] of [key] that started at [bound], and about its index [idx]:
    either no line so far had a [key] below [bound] and the index is
    still 0, or the index is that of the first line among them with the
    least [key]. *)
Definition min_inv (key : cLine → Z) (bound : Z) (s : list cLine) (i : nat)
    (m : Z) (idx : nat) : Prop :=
  (m = bound ∧ idx = 0%nat
   ∧ ∀ k l, (k < i)%nat → s !! k = Some l → bound ≤ key l)
  ∨ (m < bound ∧ (idx < i)%nat
     ∧ (∃ l, s !! idx = Some l ∧ key l = m)
     ∧ (∀ k l, (k < i)%nat → s !! k = Some l → m ≤ key l)
     ∧ (∀ k l, (k < idx)%nat → s !! k = Some l → m < key l)).

(** No line of [s] was used after time [c]. *)
Definition recent_le (c : Z) (s : list cLine) : Prop :=
  ∀ k l, s !! k = Some l → recent l ≤ c.

(** The surveys a line accounts for: the one that filled it and the
    hits since. *)
Definition line_weight (l : cLine) : Z :=
  freq l + (if decide (valid l ≠ 0) then 1 else 0).

Fixpoint weight (s : list cLine) : Z :=
  match s with
  | [] => 0
  | l :: s' => line_weight l + weight s'
  end.

(** No [freq] is negative, and a set accounts for no more surveys than
    were counted. *)
Definition freq_ok (stats : cachestats) (s : list cLine) : Prop :=
  (∀ l, l ∈ s → 0 ≤ freq l)
  ∧ weight s ≤ hit_count stats + miss_count stats.

(** The invariant of the replay loop, between two trace lines; there
    are at most two surveys per tick of the clock. *)
Definition state_inv (args : arguments) (st : state) : Prop :=
  0 ≤ st_clock st
  ∧ stats_ok (st_stats st)
  ∧ hit_count (st_stats st) + miss_count (st_stats st) ≤ 2 * st_clock st
  ∧ Forall (set_ok (perset args)) (st_cache st)
  ∧ Forall (recent_le (st_clock st + 1)) (st_cache st)
  ∧ Forall (freq_ok (st_stats st)) (st_cache st).

(** What holds whenever [surveySet] is called: for a first survey the
    bounds on [recent] and on the surveys the set accounts for, for the
    second survey of a Modify the presence of the tag. *)
Definition survey_inv (args : arguments) (s : list cLine) (stats : cachestats)
    (tag' clock : Z) : Prop :=
  set_ok (perset args) s ∧ stats_ok stats
  ∧ (∀ l, l ∈ s → 0 ≤ freq l)
  ∧ ((recent_le clock s ∧ weight s ≤ 2 * (clock - 1))
     ∨ holds (perset args) s tag').

(** Room for [k] more increments of every counter and of every [freq]
    of [s], all of them non-negative so far. *)
Definition headroom (k : Z) (s : list cLine) (stats : cachestats) : Prop :=
  0 ≤ hit_count stats ≤ INT_MAX - k
  ∧ 0 ≤ miss_count stats ≤ INT_MAX - k
  ∧ 0 ≤ eviction_count stats ≤ INT_MAX - k
  ∧ ∀ l, l ∈ s → 0 ≤ freq l ≤ LONG_MAX - k.

(** The clock and every set of the state have room for [k] more
    increments, and the cache has its [2^sbits] sets of [perset] lines. *)
Definition room (args : arguments) (k : Z) (st : state) : Prop :=
  length (st_cache st) = Z.to_nat (2 ^ sbits args)
  ∧ 0 ≤ st_clock st ≤ LONG_MAX - k
  ∧ ∀ s, s ∈ st_cache st →
         length s = Z.to_nat (perset args) ∧ headroom k s (st_stats st).

(** ** Sample runs *)

(** [-v -s 1 -E 2 -b 32 -p 0]: two sets of two lines; [findTag] keeps
    bits 33 and up, [findSet] bit 32. *)
Definition lru_args : arguments :=
  {| verbose := 1; sbits := 1; perset := 2; bbits := 32; policy := LRU |}.

(** The same under [-p 1]. *)
Definition lfu_args : arguments :=
  {| verbose := 1; sbits := 1; perset := 2; bbits := 32; policy := LFU |}.

(** Tags 1, 2 and 3 in set 0. *)
Definition addr_A : Z := 0x200000000.
Definition addr_B : Z := 0x400000000.
Definition addr_C : Z := 0x600000000.

(** [M 200000000,1], [L 400000000,1], [L 200000000,1], [S 600000000,1]. *)
Definition sample_trace : list record :=
  [ {| operation := "M"; address := addr_A; bytes := 1 |};
    {| operation := "L"; address := addr_B; bytes := 1 |};
    {| operation := "L"; address := addr_A; bytes := 1 |};
    {| operation := "S"; address := addr_C; bytes := 1 |} ].

(** The same accesses, decoded. *)
Definition sample_lookups : list lookup :=
  [ {| l_tag := 1; l_set := 0; l_op := "M"; l_echo := [] |};
    {| l_tag := 2; l_set := 0; l_op := "L"; l_echo := [] |};
    {| l_tag := 1; l_set := 0; l_op := "L"; l_echo := [] |};
    {| l_tag := 3; l_set := 0; l_op := "S"; l_echo := [] |} ].


Definition sample_state_1 : state :=
  {| st_cache := [ [ {| valid := 1; tag := 1; recent := 2; freq := 1 |};
                     singleLine ];
                   [ singleLine; singleLine ] ];
     st_stats := {| miss_count := 1; hit_count := 1; eviction_count := 0 |};
     st_clock := 1; st_out := [Result "miss "; Result "hit "; Newline] |}.

Definition sample_state_3 : state :=
  {| st_cache := [ [ {| valid := 1; tag := 1; recent := 3; freq := 2 |};
                     {| valid := 1; tag := 2; recent := 2; freq := 0 |} ];
                   [ singleLine; singleLine ] ];
     st_stats := {| miss_count := 2; hit_count := 2; eviction_count := 0 |};
     st_clock := 3;
     st_out := [Result "miss "; Result "hit "; Newline; Result "miss "; Newline;
                Result "hit "; Newline] |}.

(** [L 200000000,1], [L 400000000,1], [L 400000000,1], [L 200000000,1]:
    tags 1, 2, 2, 1 of set 0, which leave both lines with [freq] 1 and
    the line of tag 2 the less recently used. *)
Definition tie_trace : list record :=
  [ {| operation := "L"; address := addr_A; bytes := 1 |};
    {| operation := "L"; address := addr_B; bytes := 1 |};
    {| operation := "L"; address := addr_B; bytes := 1 |};
    {| operation := "L"; address := addr_A; bytes := 1 |} ].

(** The state that the replay of [tie_trace] under [lfu_args] ends in. *)
Definition tie_state : state :=
  {| st_cache := [ [ {| valid := 1; tag := 1; recent := 4; freq := 1 |};
                     {| valid := 1; tag := 2; recent := 3; freq := 1 |} ];
                   [ singleLine; singleLine ] ];
     st_stats := {| miss_count := 2; hit_count := 2; eviction_count := 0 |};
     st_clock := 4;
     st_out := [ Echo "L" addr_A 1; Result "miss "; Newline;
                 Echo "L" addr_B 1; Result "miss "; Newline;
                 Echo "L" addr_B 1; Result "hit "; Newline;
                 Echo "L" addr_A 1; Result "hit "; Newline ] |}.

(** [-s 0 -E 1 -b 0]: one set of one line. *)
Definition single_line_args (policy verbose : Z) : arguments :=
  {| verbose := verbose; sbits := 0; perset := 1; bbits := 0;
     policy := policy |}.

(** [L 0,1], [L 10,1], [L 0,1]. *)
Definition single_line_trace : list record :=
  [ {| operation := "L"; address := 0x0; bytes := 1 |};
    {| operation := "L"; address := 0x10; bytes := 1 |};
    {| operation := "L"; address := 0x0; bytes := 1 |} ].

(** ** Vocabulary of the further properties *)

(** The unsigned 64-bit number a [long] stands for. *)
Definition unsigned (a : Z) : Z := a `mod` 2 ^ 64.

(** Set [n] of the cache has a valid line with tag [t]. *)
Definition resident (cache : list (list cLine)) (n : nat) (t : Z) : Prop :=
  ∃ s i l, cache !! n = Some s ∧ s !! i = Some l ∧ valid l ≠ 0 ∧ tag l = t.

(** Every line of set [n] is valid. *)
Definition full (cache : list (list cLine)) (n : nat) : Prop :=
  ∃ s, cache !! n = Some s ∧ ∀ l, l ∈ s → valid l ≠ 0.

(** No tag is held by two valid lines of the set. *)
Definition distinct_tags (s : list cLine) : Prop :=
  ∀ i j li lj, s !! i = Some li → s !! j = Some lj →
               valid li ≠ 0 → valid lj ≠ 0 → tag li = tag lj → i = j.

(** No two valid lines of the set were last used at the same time. *)
Definition distinct_recent (s : list cLine) : Prop :=
  ∀ i j li lj, s !! i = Some li → s !! j = Some lj →
               valid li ≠ 0 → valid lj ≠ 0 → recent li = recent lj → i = j.




(** Two states with the same cache, counters and clock; what was
    printed may differ. *)
Definition agree (st st' : state) : Prop :=
  st_cache st' = st_cache st ∧ st_stats st' = st_stats st
  ∧ st_clock st' = st_clock st.

(** Two decoded records for the same tag and set, both a Modify or
    neither. *)
Definition same_lookup (l l' : lookup) : Prop :=
  l_tag l' = l_tag l ∧ l_set l' = l_set l
  ∧ (l_op l' = "M"%char ↔ l_op l = "M"%char).






(** The distinct tags that a run looks up in set [n]. *)
Definition tags_in (n : Z) (ls : list lookup) : list Z :=
  remove_dups (l_tag <$> filter (λ l, l_set l = n) ls).

(** No set is looked up for more distinct tags than it has lines. *)
Definition fits (args : arguments) (ls : list lookup) : Prop :=
  Forall (λ l, Z.of_nat (length (tags_in (l_set l) ls)) ≤ perset args) ls.

(** Lines 454-459: what [main] hands to [cacheSim] for a trace record,
    and what it prints before the call under [-v]. *)
Definition decode (args : arguments) (r : record) : option lookup :=
  tag ← findTag (address r) (sbits args) (bbits args);
  setNumber ← findSet (address r) (sbits args) (bbits args);
  Some {| l_tag := tag; l_set := setNumber; l_op := operation r;
          l_echo := if decide (verbose args ≠ 0)
                    then [Echo (operation r) (address r) (bytes r)] else [] |}.

(** ** The trace file *)

(** What [sscanf] stored when it read a line with [" %c %lx,%i"]: the
    conversions are made in this order, and the first that fails ends
    the call and leaves the later variables as they were. *)
Inductive scan :=
  | Scan0
  | Scan1 (op : ascii)
  | Scan2 (op : ascii) (addr : Z)
  | Scan3 (op : ascii) (addr count : Z).

(** A line of the trace file as [fgets] returned it: its first
    character, and what [sscanf] makes of it. *)
Record text_line := mk_text_line {
  first_char : ascii;
  scanned_as : scan
}.

(** The locals of [main] that [sscanf] writes.  [operation] is declared
    without an initial value, [address] and [bytes] with 0. *)
Record scan_vars := mk_scan_vars {
  v_operation : option ascii;
  v_address : Z;
  v_bytes : Z
}.

Definition scan_vars_init : scan_vars :=
  {| v_operation := None; v_address := 0; v_bytes := 0 |}.

(** Line 453. *)
Definition sscanf (v : scan_vars) (sc : scan) : scan_vars :=
  match sc with
  | Scan0 => v
  | Scan1 op =>
    {| v_operation := Some op; v_address := v_address v; v_bytes := v_bytes v |}
  | Scan2 op addr =>
    {| v_operation := Some op; v_address := addr; v_bytes := v_bytes v |}
  | Scan3 op addr count =>
    {| v_operation := Some op; v_address := addr; v_bytes := count |}
  end.

(** The body of the loop of [main], lines 448-461, on one line of the
    file: lines that do not begin with a blank are passed over; for the
    others the variables are used as [sscanf] left them, and an
    [operation] that was never written has no defined value. *)
Definition main_line (args : arguments) (m : state * scan_vars) (l : text_line)
    : option (state * scan_vars) :=
  if decide (first_char l = " "%char) then
    let v := sscanf m.2 (scanned_as l) in
    op ← v_operation v;
    st' ← replay_line args m.1
            {| operation := op; address := v_address v; bytes := v_bytes v |};
    Some (st', v)
  else Some m.

Fixpoint main_loop (args : arguments) (m : state * scan_vars)
    (file : list text_line) : option (state * scan_vars) :=
  match file with
  | [] => Some m
  | l :: file' => m' ← main_line args m l; main_loop args m' file'
  end.

(** [main] from the allocation of the cache to the end of the file. *)
Definition main_run (args : arguments) (file : list text_line)
    : option (state * scan_vars) :=
  st ← start args; main_loop args (st, scan_vars_init) file.

(** The records of the lines that begin with a blank and that [sscanf]
    reads in full. *)
Definition trace_record (l : text_line) : option record :=
  if decide (first_char l = " "%char) then
    match scanned_as l with
    | Scan3 op addr count =>
      Some {| operation := op; address := addr; bytes := count |}
    | _ => None
    end
  else None.

(** Every line that begins with a blank is read in full. *)
Definition well_formed (l : text_line) : Prop :=
  first_char l = " "%char → ∃ op addr count, scanned_as l = Scan3 op addr count.

(** ** The command line *)

(** [#define MAXFILE 256] *)
Definition MAXFILE : Z := 256.

(** The value of a character constant. *)
Definition char_code (a : ascii) : Z := Z.of_N (N_of_ascii a).

(** [struct arguments] with the two fields that the simulation does not
    read. *)
Record cmdline := mk_cmdline {
  c_args : arguments;
  c_help : Z;
  c_tracefile : string
}.

Definition set_verbose (v : Z) (a : arguments) : arguments :=
  {| verbose := v; sbits := sbits a; perset := perset a; bbits := bbits a;
     policy := policy a |}.
Definition set_sbits (v : Z) (a : arguments) : arguments :=
  {| verbose := verbose a; sbits := v; perset := perset a; bbits := bbits a;
     policy := policy a |}.
Definition set_perset (v : Z) (a : arguments) : arguments :=
  {| verbose := verbose a; sbits := sbits a; perset := v; bbits := bbits a;
     policy := policy a |}.
Definition set_bbits (v : Z) (a : arguments) : arguments :=
  {| verbose := verbose a; sbits := sbits a; perset := perset a; bbits := v;
     policy := policy a |}.
Definition set_policy (v : Z) (a : arguments) : arguments :=
  {| verbose := verbose a; sbits := sbits a; perset := perset a;
     bbits := bbits a; policy := v |}.

Definition with_args (f : arguments → arguments) (c : cmdline) : cmdline :=
  {| c_args := f (c_args c); c_help := c_help c;
     c_tracefile := c_tracefile c |}.
Definition set_help (v : Z) (c : cmdline) : cmdline :=
  {| c_args := c_args c; c_help := v; c_tracefile := c_tracefile c |}.
Definition set_tracefile (name : string) (c : cmdline) : cmdline :=
  {| c_args := c_args c; c_help := c_help c; c_tracefile := name |}.

(** Lines 112-118: the defaults. *)
Definition default_cmdline : cmdline :=
  {| c_args := {| verbose := 0; sbits := 8; perset := 1; bbits := 8;
                  policy := LRU |};
     c_help := 0;
     c_tracefile := "traces/dave.trace" |}.

(** The fields that the [flag] pointers of [long_options] point at. *)
Inductive flag_field :=
  | FlagVerbose
  | FlagHelp.

(** An entry of [long_options]: [name], [has_arg], [flag] and [val]. *)
Record long_option := mk_long_option {
  o_name : string;
  o_has_arg : bool;
  o_flag : option flag_field;
  o_val : Z
}.

(** Lines 121-130, the terminating entry of zeroes included. *)
Definition long_options : list long_option :=
  [ {| o_name := "verbose"; o_has_arg := false; o_flag := Some FlagVerbose;
       o_val := 1 |};
    {| o_name := "help"; o_has_arg := false; o_flag := Some FlagHelp;
       o_val := 1 |};
    {| o_name := "sbits"; o_has_arg := true; o_flag := None;
       o_val := char_code "s" |};
    {| o_name := "perset"; o_has_arg := true; o_flag := None;
       o_val := char_code "E" |};
    {| o_name := "bbits"; o_has_arg := true; o_flag := None;
       o_val := char_code "b" |};
    {| o_name := "policy"; o_has_arg := true; o_flag := None;
       o_val := char_code "p" |};
    {| o_name := "trace"; o_has_arg := true; o_flag := None;
       o_val := char_code "t" |};
    {| o_name := EmptyString; o_has_arg := false; o_flag := None;
       o_val := 0 |} ].

(** One return of [getopt_long]: its value, and what the call left in
    [optarg] and in [option_index]. *)
Record getopt_return := mk_getopt_return {
  g_value : Z;
  g_optarg : option string;
  g_index : nat
}.

(** How a call ends when its behaviour is defined: it returns, or
    [abort] or a failed [assert] ends the program. *)
Inductive ending (A : Type) :=
  | Returned (a : A)
  | Aborted.
Global Arguments Returned {A} a.
Global Arguments Aborted {A}.

(** What [getopt_long] has done when it returns 0: it stored [val]
    through the [flag] of the entry it found. *)
Definition store_flag (f : flag_field) (v : Z) (c : cmdline) : cmdline :=
  match f with
  | FlagVerbose => with_args (set_verbose v) c
  | FlagHelp => set_help v c
  end.

Section process_args.

(** [atoi], with no value where the number is not representable. *)
Variable atoi : string → option Z.

(** The cases ['s'], ['E'], ['b'] and ['p']. *)
Definition numeric_option (set : Z → arguments → arguments) (c : cmdline)
    (g : getopt_return) : option (ending cmdline) :=
  match g_optarg g with
  | None => Some Aborted
  | Some text => n ← atoi text; Some (Returned (with_args (set n) c))
  end.

(** The [switch] of lines 143-181 on one return of [getopt_long]. *)
Definition process_option (c : cmdline) (g : getopt_return)
    : option (ending cmdline) :=
  if decide (g_value g = 0) then
    o ← long_options !! g_index g;
    match o_flag o with
    | Some f => Some (Returned (store_flag f (o_val o) c))
    | None => Some Aborted
    end
  else if decide (g_value g = char_code "v") then
    Some (Returned (with_args (set_verbose 1) c))
  else if decide (g_value g = char_code "h") then
    Some (Returned (set_help 1 c))
  else if decide (g_value g = char_code "s") then numeric_option set_sbits c g
  else if decide (g_value g = char_code "E") then numeric_option set_perset c g
  else if decide (g_value g = char_code "b") then numeric_option set_bbits c g
  else if decide (g_value g = char_code "p") then numeric_option set_policy c g
  else if decide (g_value g = char_code "t") then
    match g_optarg g with
    | None => Some Aborted
    | Some name =>
      if decide (strcpy_bytes name ≤ MAXFILE)
      then Some (Returned (set_tracefile name c)) else None
    end
  else if decide (g_value g = char_code "?") then Some (Returned c)
  else Some Aborted.

(** The loop of lines 132-182 over the returns of [getopt_long].  The
    return of -1 ends it; a list without one stands for the calls
    before the -1. *)
Fixpoint process_loop (c : cmdline) (gs : list getopt_return)
    : option (ending cmdline) :=
  match gs with
  | [] => Some (Returned c)
  | g :: gs' =>
    if decide (g_value g = -1) then Some (Returned c)
    else
      r ← process_option c g;
      match r with
      | Returned c' => process_loop c' gs'
      | Aborted => Some Aborted
      end
  end.

(** [process_args], given what the calls of [getopt_long] return. *)
Definition process_args (gs : list getopt_return) : option (ending cmdline) :=
  process_loop default_cmdline gs.

(** The setting that the last return with value [v] makes, [default]
    if there is none. *)
Definition last_setting (v default : Z) (gs : list getopt_return) : option Z :=
  match last (filter (λ g, g_value g = v) gs) with
  | None => Some default
  | Some g => text ← g_optarg g; atoi text
  end.

End process_args.

(** * Proofs *)

(** Side conditions on the ranges of [int] and [long]. *)
Ltac range := unfold INT_MIN, INT_MAX, LONG_MIN, LONG_MAX in *; lia.

(** ** Machine integers: basic facts *)

Lemma checked_Some lo hi r x : checked lo hi r = Some x ↔ x = r ∧ lo ≤ r ≤ hi.
Proof.
  unfold checked. destruct (decide (lo ≤ r ≤ hi)); split.
  - intros [= <-]. done.
  - by intros [-> _].
  - done.
  - intros [_ ?]. done.
Qed.

Lemma int_add_Some x y r :
  int_add x y = Some r ↔ r = x + y ∧ INT_MIN ≤ x + y ≤ INT_MAX.
Proof. apply checked_Some. Qed.

Lemma long_add_Some x y r :
  long_add x y = Some r ↔ r = x + y ∧ LONG_MIN ≤ x + y ≤ LONG_MAX.
Proof. apply checked_Some. Qed.

Lemma int_add_defined x y :
  INT_MIN ≤ x + y ≤ INT_MAX → int_add x y = Some (x + y).
Proof. intros. by apply int_add_Some. Qed.

Lemma int_sub_defined x y :
  INT_MIN ≤ x - y ≤ INT_MAX → int_sub x y = Some (x - y).
Proof. intros. by apply checked_Some. Qed.

Lemma long_add_defined x y :
  LONG_MIN ≤ x + y ≤ LONG_MAX → long_add x y = Some (x + y).
Proof. intros. by apply long_add_Some. Qed.

Lemma int_shl_None x n : ¬ (0 ≤ n < 32) → int_shl x n = None.
Proof. intros Hn. unfold int_shl. by rewrite decide_False. Qed.

(** [~((~0) << n)] has the low [n] bits set when the shift is defined. *)
Lemma int_mask n :
  0 ≤ n < 32 → int_shl (bit_not 0) n = Some (Z.lnot (Z.ones n)).
Proof.
  intros Hn. unfold int_shl. rewrite decide_True by done. f_equal.
  unfold int_of_Z, wrap. change (bit_not 0) with (-1).
  rewrite Z.shiftl_mul_pow2 by lia. rewrite Z.ones_equiv.
  assert (0 < 2 ^ n ≤ 2 ^ 31) as Hp
    by (split; [apply Z.pow_pos_nonneg|apply Z.pow_le_mono_r]; lia).
  change (2 ^ (32 - 1)) with (2 ^ 31). change (2 ^ 32) with (2 * 2 ^ 31).
  rewrite Z.mod_small by lia. unfold Z.lnot. lia.
Qed.

Lemma long_of_Z_id a : LONG_MIN ≤ a ≤ LONG_MAX → long_of_Z a = a.
Proof.
  unfold LONG_MIN, LONG_MAX, long_of_Z, wrap. intros Ha.
  change (2 ^ (64 - 1)) with (2 ^ 63). change (2 ^ 64) with (2 * 2 ^ 63).
  rewrite Z.mod_small by lia. lia.
Qed.

(** The bits [n], ..., [n+k-1] of a [long] are those of the unsigned
    number it stands for. *)
Lemma long_bits u n k :
  0 ≤ n → 0 ≤ k → n + k ≤ 64 →
  Z.land (Z.shiftr (long_of_Z u) n) (Z.ones k)
  = Z.land (Z.shiftr u n) (Z.ones k).
Proof.
  intros Hn Hk Hnk. rewrite !Z.land_ones, !Z.shiftr_div_pow2 by lia.
  unfold long_of_Z, wrap. change (2 ^ (64 - 1)) with (2 ^ 63).
  set (q := (u + 2 ^ 63) `div` 2 ^ 64).
  assert ((u + 2 ^ 63) `mod` 2 ^ 64 - 2 ^ 63 = u + (- q * 2 ^ (64 - n - k) * 2 ^ k) * 2 ^ n)
    as ->.
  { rewrite Zmod_eq_full by lia. fold q.
    rewrite <- !Z.mul_assoc, <- !Z.pow_add_r by lia.
    replace (64 - n - k + (k + n)) with 64 by lia. lia. }
  rewrite Z.div_add by (apply Z.pow_nonzero; lia).
  apply Z.mod_add. apply Z.pow_nonzero; lia.
Qed.

Lemma index_Some {A} (l : list A) i x :
  index l i = Some x ↔ 0 ≤ i ∧ l !! Z.to_nat i = Some x.
Proof.
  unfold index. destruct (decide (0 ≤ i)); split.
  - done.
  - by intros [_ ?].
  - done.
  - by intros [? _].
Qed.

(** ** Address decoding *)

(** [findSet] is defined for set widths below the width of [int] and
    block widths below that of [long], and then yields the [sbits] bits
    above the block offset, a number below [2^sbits]. *)
Lemma findSet_defined u sbits bbits :
  0 ≤ sbits < 32 → 0 ≤ bbits → sbits + bbits ≤ 64 → bbits < 64 →
  findSet (long_of_Z u) sbits bbits
  = Some (Z.land (Z.shiftr u bbits) (Z.ones sbits))
  ∧ 0 ≤ Z.land (Z.shiftr u bbits) (Z.ones sbits) < 2 ^ sbits.
Proof.
  intros Hs Hb Hsb Hb'. split.
  - unfold findSet. rewrite int_mask by done. simpl.
    unfold long_shr. rewrite decide_True by lia. simpl.
    unfold bit_not. by rewrite Z.lnot_involutive, long_bits by lia.
  - rewrite Z.land_ones by lia. apply Z.mod_pos_bound, Z.pow_pos_nonneg; lia.
Qed.

(** [findTag] is defined when the tag is narrower than an [int] and
    the shift narrower than a [long], and then yields the bits above
    the set index. *)
Lemma findTag_defined u sbits bbits :
  0 ≤ sbits → 0 ≤ bbits → 32 < sbits + bbits < 64 →
  findTag (long_of_Z u) sbits bbits
  = Some (Z.land (Z.shiftr u (sbits + bbits)) (Z.ones (64 - sbits - bbits))).
Proof.
  intros Hs Hb Hsb. unfold findTag.
  rewrite int_sub_defined by range. simpl.
  rewrite int_sub_defined by range. simpl.
  rewrite int_mask by lia. simpl.
  rewrite int_add_defined by range. simpl.
  unfold long_shr. rewrite decide_True by lia. simpl.
  unfold bit_not. by rewrite Z.lnot_involutive, long_bits by lia.
Qed.

(** With a tag of 32 bits or more, which is every configuration whose
    set and block bits sum to 32 or less, the [int] shift of [findTag]
    has no defined result. *)
Lemma findTag_undefined address sbits bbits :
  sbits + bbits ≤ 32 → findTag address sbits bbits = None.
Proof.
  intros Hsb. unfold findTag, int_sub, checked.
  destruct (decide (INT_MIN ≤ 64 - sbits ≤ INT_MAX)); simpl; [|done].
  destruct (decide (INT_MIN ≤ 64 - sbits - bbits ≤ INT_MAX)); simpl; [|done].
  rewrite int_shl_None by lia. done.
Qed.

(** [findTag_mod] is [findTag] wherever that one is defined. *)
Lemma findTag_mod_defined address sbits bbits t :
  findTag address sbits bbits = Some t → t = findTag_mod address sbits bbits.
Proof.
  unfold findTag, findTag_mod. intros H.
  destruct (int_sub 64 sbits) as [x|] eqn:Hx; simpl in H; [|done].
  apply checked_Some in Hx as [-> _].
  destruct (int_sub (64 - sbits) bbits) as [tbits|] eqn:Ht; simpl in H; [|done].
  apply checked_Some in Ht as [-> _].
  unfold int_shl in H.
  destruct (decide (0 ≤ 64 - sbits - bbits < 32)); simpl in H; [|done].
  destruct (int_add sbits bbits) as [sb|] eqn:Hsb; simpl in H; [|done].
  apply int_add_Some in Hsb as [-> _].
  unfold long_shr in H.
  destruct (decide (0 ≤ sbits + bbits < 64)); simpl in H; [|done].
  simplify_eq. cbv zeta. by rewrite !Z.mod_small by lia.
Qed.

(** With [-s 4 -b 4] it keeps 24 bits of the tag, with [-s 0 -b 0]
    none. *)
Lemma findTag_mod_wide_tag :
  findTag_mod 0x7ff000398 4 4 = 0xff0003
  ∧ ∀ address, findTag_mod address 0 0 = 0.
Proof.
  split; [reflexivity|]. intros address. unfold findTag_mod. simpl.
  change (bit_not (int_of_Z (Z.shiftl (bit_not 0) 0))) with 0.
  apply Z.land_0_r.
Qed.

(** ** The loop of [surveySet] *)

Lemma sameTag_ne_0 t1 t2 : sameTag t1 t2 ≠ 0 ↔ t1 = t2.
Proof. unfold sameTag. destruct (decide (t1 = t2)); split; done. Qed.

Lemma scanned_nil s tag' i : scanned s tag' i i.
Proof. intros k ?. lia. Qed.

Lemma scanned_cons s tag' i j l :
  s !! i = Some l → valid l ≠ 0 → tag l ≠ tag' →
  scanned s tag' (S i) j → scanned s tag' i j.
Proof.
  intros Hl Hv Ht Hs k Hk. destruct (decide (k = i)) as [->|].
  - eauto.
  - apply Hs. lia.
Qed.

Lemma scanned_insert s tag' j x :
  scanned s tag' 0 j → scanned (<[j := x]> s) tag' 0 j.
Proof.
  intros Hs k Hk. rewrite list_lookup_insert_ne by lia. by apply Hs.
Qed.

(** Every way the loop can end. *)
Lemma survey_loop_inv n s stats tag' clock i v e :
  survey_loop n s stats tag' clock i v = Some e →
  match e with
  | NotStored v' => scanned s tag' i (i + n) ∧ v' = track n s i v
  | Stored s' stats' r =>
    ∃ j l, (i ≤ j < i + n)%nat ∧ scanned s tag' i j ∧ s !! j = Some l ∧
      ((valid l ≠ 0 ∧ tag l = tag' ∧ r = "hit "%string ∧
        ∃ h f, int_add (hit_count stats) 1 = Some h ∧
               long_add (freq l) 1 = Some f ∧
               s' = <[j := hit_line clock f l]> s ∧ stats' = count_hit h stats)
       ∨ (valid l = 0 ∧ r = "miss "%string ∧
          ∃ m, int_add (miss_count stats) 1 = Some m ∧
               s' = <[j := fill_line tag' clock l]> s ∧
               stats' = count_miss m stats))
  end.
Proof.
  revert i v. induction n as [|n IH]; intros i v H; simpl in H.
  - simplify_eq. split; [|done]. rewrite Nat.add_0_r. apply scanned_nil.
  - destruct (s !! i) as [line|] eqn:Hl; simpl in H; [|done].
    destruct (decide (valid line ≠ 0)) as [Hv|Hv].
    + destruct (decide (sameTag (tag line) tag' ≠ 0)) as [Ht|Ht].
      * destruct (int_add (hit_count stats) 1) as [h|] eqn:Hh; simpl in H; [|done].
        destruct (long_add (freq line) 1) as [f|] eqn:Hf; simpl in H; [|done].
        simplify_eq. exists i, line. split; [lia|]. split; [apply scanned_nil|].
        split; [done|]. left. apply sameTag_ne_0 in Ht. eauto 10.
      * rewrite sameTag_ne_0 in Ht. apply IH in H. destruct e as [s' stats' r|v'].
        -- destruct H as (j & l & Hj & Hs & Hlj & Hcase).
           exists j, l. split; [lia|]. split; [|done].
           eapply scanned_cons; eauto.
        -- destruct H as [Hs ->]. simpl. rewrite Hl. split; [|done].
           replace (i + S n)%nat with (S i + n)%nat by lia.
           eapply scanned_cons; eauto.
    + destruct (int_add (miss_count stats) 1) as [m|] eqn:Hm; simpl in H; [|done].
      simplify_eq. exists i, line. split; [lia|]. split; [apply scanned_nil|].
      split; [done|]. right. split; [lia|]. eauto 10.
Qed.

Lemma survey_loop_scanned n s stats tag' clock i v :
  scanned s tag' i (i + n) →
  survey_loop n s stats tag' clock i v = Some (NotStored (track n s i v)).
Proof.
  revert i v. induction n as [|n IH]; intros i v Hs; simpl; [done|].
  destruct (Hs i) as (l & Hl & Hv & Ht); [lia|]. rewrite Hl. simpl.
  rewrite decide_True by done.
  rewrite decide_False by (by rewrite sameTag_ne_0).
  apply IH. intros k Hk. apply Hs. lia.
Qed.

Lemma survey_loop_hit n s stats tag' clock i v j l h f :
  scanned s tag' i j → (i ≤ j < i + n)%nat →
  s !! j = Some l → valid l ≠ 0 → tag l = tag' →
  int_add (hit_count stats) 1 = Some h → long_add (freq l) 1 = Some f →
  survey_loop n s stats tag' clock i v
  = Some (Stored (<[j := hit_line clock f l]> s) (count_hit h stats) "hit ").
Proof.
  intros Hs Hj Hl Hv Ht Hh Hf. revert i v Hs Hj.
  induction n as [|n IH]; intros i v Hs Hj; [lia|]. simpl.
  destruct (decide (i = j)) as [->|Hne].
  - rewrite Hl. simpl. rewrite decide_True by done.
    rewrite decide_True by (by rewrite sameTag_ne_0).
    rewrite Hh. simpl. rewrite Hf. done.
  - destruct (Hs i) as (li & Hli & Hvi & Hti); [lia|]. rewrite Hli. simpl.
    rewrite decide_True by done.
    rewrite decide_False by (by rewrite sameTag_ne_0).
    apply IH; [|lia]. intros k Hk. apply Hs. lia.
Qed.

Lemma survey_loop_miss n s stats tag' clock i v j l m :
  scanned s tag' i j → (i ≤ j < i + n)%nat →
  s !! j = Some l → valid l = 0 →
  int_add (miss_count stats) 1 = Some m →
  survey_loop n s stats tag' clock i v
  = Some (Stored (<[j := fill_line tag' clock l]> s) (count_miss m stats) "miss ").
Proof.
  intros Hs Hj Hl Hv Hm. revert i v Hs Hj.
  induction n as [|n IH]; intros i v Hs Hj; [lia|]. simpl.
  destruct (decide (i = j)) as [->|Hne].
  - rewrite Hl. simpl. rewrite decide_False by lia. rewrite Hm. done.
  - destruct (Hs i) as (li & Hli & Hvi & Hti); [lia|]. rewrite Hli. simpl.
    rewrite decide_True by done.
    rewrite decide_False by (by rewrite sameTag_ne_0).
    apply IH; [|lia]. intros k Hk. apply Hs. lia.
Qed.

(** ** [surveySet] and [survey_case] agree *)

Lemma surveySet_case s stats lines tag' clock policy s' stats' r :
  surveySet s stats lines tag' clock policy = Some (s', stats', r) →
  survey_case s stats lines tag' clock policy s' stats' r.
Proof.
  unfold surveySet. intros H.
  destruct (survey_loop _ _ _ _ _ _ _) as [e|] eqn:Hloop; simpl in H; [|done].
  apply survey_loop_inv in Hloop. destruct e as [s1 stats1 r1|v'].
  - simplify_eq. destruct Hloop as (j & l & Hj & Hs & Hl & Hcase).
    destruct Hcase as [(Hv & Ht & -> & h & f & Hh & Hf & -> & ->)
                      |(Hv & -> & m & Hm & -> & ->)].
    + eapply survey_hit; eauto. lia.
    + eapply survey_miss; eauto. lia.
  - destruct Hloop as [Hs ->]. fold (survey_init clock) in H.
    destruct (s !! finalIndex _ _) as [l|] eqn:Hl; simpl in H; [|done].
    destruct (int_add (miss_count stats) 1) as [m|] eqn:Hm; simpl in H; [|done].
    destruct (int_add (eviction_count stats) 1) as [e|] eqn:He; simpl in H; [|done].
    simplify_eq. eapply survey_evict; eauto.
Qed.

Lemma survey_case_surveySet s stats lines tag' clock policy s' stats' r :
  survey_case s stats lines tag' clock policy s' stats' r →
  surveySet s stats lines tag' clock policy = Some (s', stats', r).
Proof.
  unfold surveySet. fold (survey_init clock).
  intros [j l h f Hj Hs Hl Hv Ht Hh Hf|j l m Hj Hs Hl Hv Hm|fi l m e Hs -> Hl Hm He].
  - erewrite survey_loop_hit; eauto. lia.
  - erewrite survey_loop_miss; eauto. lia.
  - rewrite survey_loop_scanned by done. simpl.
    rewrite Hl. simpl. rewrite Hm. simpl. rewrite He. done.
Qed.

Lemma surveySet_spec s stats lines tag' clock policy s' stats' r :
  surveySet s stats lines tag' clock policy = Some (s', stats', r)
  ↔ survey_case s stats lines tag' clock policy s' stats' r.
Proof. split; [apply surveySet_case | apply survey_case_surveySet]. Qed.

(** ** The loop variables *)

Lemma track_LRU_minLFU i l v :
  minLFU (track_LRU i l v) = minLFU v
  ∧ minLFUIndex (track_LRU i l v) = minLFUIndex v.
Proof. unfold track_LRU. by destruct (decide _). Qed.

Lemma track_LFU_minLRU i l v :
  minLRU (track_LFU i l v) = minLRU v
  ∧ minLRUIndex (track_LFU i l v) = minLRUIndex v.
Proof. unfold track_LFU. by repeat destruct (decide _). Qed.

(** After lines 279-284 [minLRU] is at most the [recent] of the current
    line, so the test of line 294 fails: [minLFUIndex] moves only on a
    strictly smaller [freq]. *)
Lemma track_LFU_after_LRU i l v :
  track_LFU i l (track_LRU i l v)
  = let v1 := track_LRU i l v in
    if decide (freq l < minLFU v)
    then {| minLRU := minLRU v1; minLFU := freq l;
            minLRUIndex := minLRUIndex v1; minLFUIndex := i |}
    else v1.
Proof.
  unfold track_LFU, track_LRU. simpl.
  destruct (decide (recent l < minLRU v)); simpl;
    destruct (decide (freq l < minLFU v)); try done;
    destruct (decide (freq l = minLFU v)); try done;
    rewrite decide_False by lia; done.
Qed.

Lemma track_index_bound n s i v :
  (minLRUIndex v = 0 ∨ minLRUIndex v < i)%nat →
  (minLFUIndex v = 0 ∨ minLFUIndex v < i)%nat →
  (minLRUIndex (track n s i v) = 0 ∨ minLRUIndex (track n s i v) < i + n)%nat
  ∧ (minLFUIndex (track n s i v) = 0 ∨ minLFUIndex (track n s i v) < i + n)%nat.
Proof.
  revert i v. induction n as [|n IH]; intros i v H1 H2; simpl.
  - rewrite Nat.add_0_r. done.
  - destruct (s !! i) as [l|]; [|lia].
    replace (i + S n)%nat with (S i + n)%nat by lia. apply IH.
    + destruct (track_LFU_minLRU i l (track_LRU i l v)) as [_ ->].
      unfold track_LRU. destruct (decide _); cbn [minLRUIndex]. all: lia.
    + rewrite track_LFU_after_LRU. cbv zeta.
      destruct (decide _); cbn [minLFUIndex]; [lia|].
      destruct (track_LRU_minLFU i l v) as [_ ->]. lia.
Qed.

Lemma finalIndex_bound policy lines s clock :
  1 ≤ lines →
  (finalIndex policy (track (Z.to_nat lines) s 0 (survey_init clock))
   < Z.to_nat lines)%nat.
Proof.
  intros Hl.
  destruct (track_index_bound (Z.to_nat lines) s 0 (survey_init clock))
    as [H1 H2]; [by left..|].
  unfold finalIndex. repeat destruct (decide _); lia.
Qed.

(** One iteration on line [i] with the comparison [key l < m]. *)
Lemma min_inv_step key bound s i l m idx :
  s !! i = Some l → min_inv key bound s i m idx →
  min_inv key bound s (S i)
          (if decide (key l < m) then key l else m)
          (if decide (key l < m) then i else idx).
Proof.
  intros Hl Hinv. unfold min_inv.
  assert (Hbelow : ∀ x, (∀ k l', (k < i)%nat → s !! k = Some l' → x ≤ key l') →
            ∀ x', x' ≤ x → x' ≤ key l →
            ∀ k l', (k < S i)%nat → s !! k = Some l' → x' ≤ key l').
  { intros x Hall x' Hx Hr k l' Hk Hl'. destruct (decide (k = i)) as [->|].
    - by simplify_eq.
    - specialize (Hall k l' ltac:(lia) Hl'). lia. }
  destruct (decide (key l < m)) as [Hlt|Hge].
  - right. split; [destruct Hinv as [(? & _)|(? & _)]; lia|].
    split; [lia|]. split; [eauto|].
    destruct Hinv as [(Hm & Hi & Hall)|(Hm & Hi & Hex & Hall & Hfst)].
    + split; [eapply Hbelow; [exact Hall|lia..]|].
      intros k l' Hk Hl'. specialize (Hall k l' Hk Hl'). lia.
    + split; [eapply Hbelow; [exact Hall|lia..]|].
      intros k l' Hk Hl'. specialize (Hall k l' Hk Hl'). lia.
  - destruct Hinv as [(Hm & Hi & Hall)|(Hm & Hi & Hex & Hall & Hfst)].
    + left. split; [done|]. split; [done|].
      eapply Hbelow; [exact Hall|lia..].
    + right. split; [done|]. split; [lia|]. split; [done|]. split; [|done].
      eapply Hbelow; [exact Hall|lia..].
Qed.

(** Both running minima of the loop are such minima: [minLFUIndex]
    follows [freq] alone. *)
Lemma track_min_inv clock n s i v :
  (i + n ≤ length s)%nat →
  min_inv recent clock s i (minLRU v) (minLRUIndex v) →
  min_inv freq clock s i (minLFU v) (minLFUIndex v) →
  min_inv recent clock s (i + n)
          (minLRU (track n s i v)) (minLRUIndex (track n s i v))
  ∧ min_inv freq clock s (i + n)
            (minLFU (track n s i v)) (minLFUIndex (track n s i v)).
Proof.
  revert i v. induction n as [|n IH]; intros i v Hlen Hr Hf; simpl.
  - by rewrite Nat.add_0_r.
  - destruct (lookup_lt_is_Some_2 s i) as [l Hl]; [lia|]. rewrite Hl.
    replace (i + S n)%nat with (S i + n)%nat by lia.
    apply IH; [lia|..].
    + destruct (track_LFU_minLRU i l (track_LRU i l v)) as [-> ->].
      pose proof (min_inv_step _ _ _ _ _ _ _ Hl Hr) as Hstep.
      unfold track_LRU. by destruct (decide (recent l < minLRU v)).
    + rewrite track_LFU_after_LRU. cbv zeta.
      pose proof (min_inv_step _ _ _ _ _ _ _ Hl Hf) as Hstep.
      destruct (decide (freq l < minLFU v)); [done|].
      by destruct (track_LRU_minLFU i l v) as [-> ->].
Qed.

Lemma min_inv_init key clock s : min_inv key clock s 0 clock 0.
Proof. left. split; [done|]. split; [done|]. intros k l Hk. lia. Qed.

(** After a full scan the index is that of the first least line, unless
    no [key] is below the value the minimum started from; the index is
    0 then. *)
Lemma min_inv_first_min key bound s m idx :
  min_inv key bound s (length s) m idx → is_Some (s !! idx) →
  first_min key s idx ∨ (idx = 0%nat ∧ ∀ l, l ∈ s → bound ≤ key l).
Proof.
  intros [(_ & -> & Hall)|(_ & _ & Hex & Hall & Hfst)] [l Hl].
  - right. split; [done|]. intros l' Hl'.
    apply list_elem_of_lookup_1 in Hl' as [k Hk].
    apply (Hall k); [by eapply lookup_lt_Some|done].
  - left. destruct Hex as (l0 & Hl0 & <-). exists l0. split; [done|].
    split; [|done]. intros k l' Hl'. apply (Hall k); [|done].
    by eapply lookup_lt_Some.
Qed.

Lemma track_is_LRU s lines clock :
  length s = Z.to_nat lines → recent_le clock s →
  is_Some (s !! minLRUIndex (track (Z.to_nat lines) s 0 (survey_init clock))) →
  is_LRU s (minLRUIndex (track (Z.to_nat lines) s 0 (survey_init clock))).
Proof.
  intros Hlen Hle Hsome.
  destruct (track_min_inv clock (Z.to_nat lines) s 0 (survey_init clock))
    as [Hr _]; [lia|apply min_inv_init..|].
  simpl in Hr. rewrite <- Hlen in Hr at 1.
  destruct (min_inv_first_min _ _ _ _ _ Hr Hsome) as [?|[Hi Hall]]; [done|].
  rewrite Hi in *. destruct Hsome as [l Hl]. exists l.
  split; [done|]. split; [|intros; lia]. intros k l' Hl'.
  specialize (Hle _ _ Hl). apply list_elem_of_lookup_2, Hall in Hl'. lia.
Qed.


(** ** What one survey does to a set and to the counters *)

Section one_survey.

Context (s : list cLine) (stats : cachestats) (lines tag' clock policy : Z).
Context (s' : list cLine) (stats' : cachestats) (r : string).

(** The survey of [s] ended in [s'], [stats'] and [r]. *)
Local Abbreviation survey_done :=
  (survey_case s stats lines tag' clock policy s' stats' r).

(** One line is rewritten; it ends up holding [tag'], used at [clock]. *)
Lemma survey_case_update :
  survey_done →
  ∃ j l l', s !! j = Some l ∧ s' = <[j := l']> s
            ∧ recent l' = clock ∧ tag l' = tag'
            ∧ (valid l ≠ 0 → valid l' ≠ 0).
Proof.
  intros [j l h f Hj Hs Hl Hv Ht Hh Hf|j l m Hj Hs Hl Hv Hm|fi l m e Hs -> Hl Hm He].
  - exists j, l, (hit_line clock f l). split_and!; try done; auto.
  - exists j, l, (fill_line tag' clock l). split_and!; try done; auto.
  - eexists _, l, (evict_line tag' clock l). split_and!; try done.
Qed.

(** When the set has lines at all, the rewritten line is one of the
    scanned ones, all lines before it hold other tags, and it is valid
    afterwards; an empty line is filled as it is found. *)
Lemma survey_case_update_scanned :
  1 ≤ lines →
  survey_done →
  ∃ j l l', (j < Z.to_nat lines)%nat ∧ scanned s tag' 0 j
            ∧ s !! j = Some l ∧ s' = <[j := l']> s
            ∧ recent l' = clock ∧ tag l' = tag' ∧ valid l' ≠ 0
            ∧ (valid l = 0 → l' = fill_line tag' clock l).
Proof.
  intros H1.
  intros [j l h f Hj Hs Hl Hv Ht Hh Hf|j l m Hj Hs Hl Hv Hm|fi l m e Hs -> Hl Hm He].
  - exists j, l, (hit_line clock f l). split_and!; try done.
  - exists j, l, (fill_line tag' clock l). split_and!; try done.
  - set (fi := finalIndex _ _) in *.
    assert (fi < Z.to_nat lines)%nat as Hfi by by apply finalIndex_bound.
    destruct (Hs fi) as (l0 & Hl0 & Hv0 & _); [lia|].
    assert (l0 = l) as -> by congruence.
    exists fi, l, (evict_line tag' clock l). split_and!; try done.
    intros k Hk. apply Hs. lia.
Qed.

Lemma survey_case_length :
  survey_done →
  length s' = length s.
Proof.
  intros H. apply survey_case_update in H as (j & l & l' & _ & -> & _).
  apply length_insert.
Qed.

Lemma survey_case_nonempty :
  survey_done →
  length s = Z.to_nat lines → 1 ≤ lines.
Proof.
  intros H Hlen. apply survey_case_update in H as (j & l & _ & Hl & _).
  apply lookup_lt_Some in Hl. lia.
Qed.

(** A valid line stays valid. *)
Lemma survey_case_valid i l :
  survey_done →
  s !! i = Some l → valid l ≠ 0 →
  ∃ l', s' !! i = Some l' ∧ valid l' ≠ 0.
Proof.
  intros H Hl Hv.
  apply survey_case_update in H as (j & lj & l' & Hlj & -> & _ & _ & Hvv).
  destruct (decide (i = j)) as [->|Hne].
  - simplify_eq. exists l'. split; [|auto].
    apply list_lookup_insert_eq. by eapply lookup_lt_Some.
  - exists l. by rewrite list_lookup_insert_ne.
Qed.

(** Each survey counts one hit or one miss, and an eviction only with a
    miss. *)
Lemma survey_case_stats :
  survey_done →
  hit_count stats' + miss_count stats' = hit_count stats + miss_count stats + 1
  ∧ hit_count stats ≤ hit_count stats'
  ∧ miss_count stats ≤ miss_count stats'
  ∧ eviction_count stats ≤ eviction_count stats'
  ∧ eviction_count stats' - eviction_count stats
    ≤ miss_count stats' - miss_count stats
  ∧ eviction_count stats' ≤ eviction_count stats + 1.
Proof.
  intros [j l h f Hj Hs Hl Hv Ht Hh Hf|j l m Hj Hs Hl Hv Hm|fi l m e Hs Hfi Hl Hm He];
    simpl; repeat match goal with
           | H : int_add _ _ = Some _ |- _ => apply int_add_Some in H as [-> _]
           end; lia.
Qed.

Lemma survey_case_stats_ok :
  survey_done →
  stats_ok stats → stats_ok stats'.
Proof.
  intros H Hok. apply survey_case_stats in H. unfold stats_ok in *. lia.
Qed.

(** After a survey for [tag'] the set holds [tag'] ... *)
Lemma survey_case_holds :
  1 ≤ lines →
  survey_done →
  holds lines s' tag'.
Proof.
  intros H1 H.
  apply survey_case_update_scanned in H
    as (j & l & l' & Hj & Hs & Hl & -> & _ & Ht & Hv & _); [|done].
  exists j, l'. split; [done|]. split; [by apply scanned_insert|].
  split; [apply list_lookup_insert_eq; by eapply lookup_lt_Some|done].
Qed.

(** ... and a survey of a set that holds [tag'] is a hit. *)
Lemma holds_survey_case :
  holds lines s tag' →
  survey_done →
  r = "hit "%string
  ∧ hit_count stats' = hit_count stats + 1
  ∧ miss_count stats' = miss_count stats
  ∧ eviction_count stats' = eviction_count stats.
Proof.
  intros (j0 & l0 & Hj0 & Hs0 & Hl0 & Hv0 & Ht0).
  intros [j l h f Hj Hs Hl Hv Ht Hh Hf|j l m Hj Hs Hl Hv Hm|fi l m e Hs Hfi Hl Hm He].
  - apply int_add_Some in Hh as [-> _]. done.
  - exfalso. destruct (Nat.lt_trichotomy j0 j) as [Hlt|[->|Hgt]].
    + destruct (Hs j0) as (l1 & Hl1 & _ & Ht1); [lia|]. by simplify_eq.
    + by simplify_eq.
    + destruct (Hs0 j) as (l1 & Hl1 & Hv1 & _); [lia|]. by simplify_eq.
  - exfalso. destruct (Hs j0) as (l1 & Hl1 & _ & Ht1); [lia|]. by simplify_eq.
Qed.

End one_survey.

(** ** Invariants of a set *)

Lemma survey_case_set_ok s stats lines tag' clock policy s' stats' r :
  survey_case s stats lines tag' clock policy s' stats' r →
  set_ok lines s → set_ok lines s'.
Proof.
  intros H [Hlen Hok].
  assert (1 ≤ lines) as H1 by by eapply survey_case_nonempty.
  apply survey_case_update_scanned in H
    as (j & l & l' & Hj & Hs & Hl & -> & _ & _ & Hv & _); [|done].
  split; [by rewrite length_insert|].
  intros i j2 li lj Hij Hli Hlj Hvi.
  assert (i ≠ j) as Hne.
  { intros ->. rewrite list_lookup_insert_eq in Hli by (by eapply lookup_lt_Some).
    by simplify_eq. }
  rewrite list_lookup_insert_ne in Hli by done.
  assert (j < i)%nat.
  { destruct (decide (i < j)%nat) as [Hlt|]; [|lia].
    destruct (Hs i) as (l0 & Hl0 & Hv0 & _); [lia|]. by simplify_eq. }
  rewrite list_lookup_insert_ne in Hlj by lia. eauto.
Qed.


Lemma set_ok_empty_line lines s i l :
  set_ok lines s → s !! i = Some l → valid l = 0 → l = singleLine.
Proof. intros [_ Hok] Hl Hv. by eapply (Hok i i). Qed.




Lemma recent_le_mono c c' s : c ≤ c' → recent_le c s → recent_le c' s.
Proof. intros Hc Hle k l Hl. specialize (Hle k l Hl). lia. Qed.

Lemma recent_le_insert c s j l :
  recent_le c s → recent l = c → recent_le c (<[j := l]> s).
Proof.
  intros Hle Hr k l' Hl'. apply list_lookup_insert_Some in Hl'
    as [(-> & -> & _)|[_ Hl']]; [lia|eauto].
Qed.

Lemma survey_case_recent_le s stats lines tag' clock policy s' stats' r :
  survey_case s stats lines tag' clock policy s' stats' r →
  recent_le clock s → recent_le clock s'.
Proof.
  intros H Hle. apply survey_case_update in H as (j & l & l' & _ & -> & Hr & _).
  by apply recent_le_insert.
Qed.

Lemma weight_insert s j l l' :
  s !! j = Some l →
  weight (<[j := l']> s) = weight s - line_weight l + line_weight l'.
Proof.
  revert j. induction s as [|x s IH]; intros [|j] Hl; simplify_eq/=.
  - lia.
  - rewrite (IH j) by done. lia.
Qed.


Lemma weight_replicate_singleLine n : weight (replicate n singleLine) = 0.
Proof. induction n as [|n IH]; simpl; [done|]. by rewrite IH. Qed.

Lemma survey_case_freq_pos s stats lines tag' clock policy s' stats' r :
  survey_case s stats lines tag' clock policy s' stats' r →
  (∀ l, l ∈ s → 0 ≤ freq l) → ∀ l, l ∈ s' → 0 ≤ freq l.
Proof.
  intros H Hpos.
  assert (∀ j l l', s !! j = Some l → 0 ≤ freq l' →
            ∀ x, x ∈ <[j := l']> s → 0 ≤ freq x) as Hins.
  { intros j l l' Hl Hl' x Hx. apply list_elem_of_lookup_1 in Hx as [k Hk].
    apply list_lookup_insert_Some in Hk as [(_ & <- & _)|[_ Hk]]; [done|].
    by eapply Hpos, list_elem_of_lookup_2. }
  destruct H as [j l h f Hj Hs Hl Hv Ht Hh Hf|j l m Hj Hs Hl Hv Hm
                |fi l m e Hs Hfi Hl Hm He];
    (eapply Hins; [done|]); simpl; [|by eapply Hpos, list_elem_of_lookup_2|done].
  apply long_add_Some in Hf as [-> _].
  apply list_elem_of_lookup_2, Hpos in Hl. lia.
Qed.

(** A hit and a fill make the line account for one more survey, an
    eviction for no more than before. *)
Lemma survey_case_weight s stats lines tag' clock policy s' stats' r :
  survey_case s stats lines tag' clock policy s' stats' r →
  (∀ l, l ∈ s → 0 ≤ freq l) → weight s' ≤ weight s + 1.
Proof.
  intros H Hpos.
  destruct H as [j l h f Hj Hs Hl Hv Ht Hh Hf|j l m Hj Hs Hl Hv Hm
                |fi l m e Hs Hfi Hl Hm He];
    pose proof (Hpos l (list_elem_of_lookup_2 _ _ _ Hl)) as Hfl;
    rewrite (weight_insert _ _ _ _ Hl); unfold line_weight; simpl;
    try (apply long_add_Some in Hf as [-> _]);
    repeat destruct (decide _); try done; lia.
Qed.

Lemma survey_case_freq_ok s stats lines tag' clock policy s' stats' r :
  survey_case s stats lines tag' clock policy s' stats' r →
  freq_ok stats s → freq_ok stats' s'.
Proof.
  intros H [Hpos Hw]. split; [by eapply survey_case_freq_pos|].
  pose proof (survey_case_weight _ _ _ _ _ _ _ _ _ H Hpos).
  apply survey_case_stats in H. lia.
Qed.

Lemma freq_ok_stats stats stats' s :
  hit_count stats + miss_count stats ≤ hit_count stats' + miss_count stats' →
  freq_ok stats s → freq_ok stats' s.
Proof. intros Hle [Hpos Hw]. split; [done|lia]. Qed.

(** ** [cacheSim], [access] and the replay *)

(** The texts of [surveySet] and the [result] buffer: only the text of
    an eviction does not fit, and a survey reports an eviction exactly
    when all the lines it scans are valid and hold other tags. *)
Lemma strcpy_result_Some text result :
  strcpy_result text = Some result
  ↔ result = text ∧ strcpy_bytes text ≤ result_size.
Proof.
  unfold strcpy_result. destruct (decide _) as [Hle|Hgt]; split.
  - by intros [= ->].
  - by intros [-> _].
  - done.
  - by intros [_ ?].
Qed.

Lemma survey_case_evict s stats lines tag' clock policy s' stats' r :
  survey_case s stats lines tag' clock policy s' stats' r →
  r = "evict "%string ↔ scanned s tag' 0 (Z.to_nat lines).
Proof.
  intros [j l h f Hj Hs Hl Hv Ht Hh Hf|j l m Hj Hs Hl Hv Hm
         |fi l m e Hs Hfi Hl Hm He].
  - split; [done|]. intros Hall.
    destruct (Hall j) as (l0 & Hl0 & _ & Ht0); [lia|]. by simplify_eq.
  - split; [done|]. intros Hall.
    destruct (Hall j) as (l0 & Hl0 & Hv0 & _); [lia|]. by simplify_eq.
  - done.
Qed.

Lemma survey_case_fits s stats lines tag' clock policy s' stats' r :
  survey_case s stats lines tag' clock policy s' stats' r →
  strcpy_result r = Some r ↔ r ≠ "evict "%string.
Proof. intros [| |]; by vm_compute. Qed.

Lemma survey_case_strcpy s stats lines tag' clock policy s' stats' r :
  survey_case s stats lines tag' clock policy s' stats' r →
  ¬ scanned s tag' 0 (Z.to_nat lines) → strcpy_result r = Some r.
Proof.
  intros H Hno. apply (survey_case_fits _ _ _ _ _ _ _ _ _ H).
  by rewrite (survey_case_evict _ _ _ _ _ _ _ _ _ H).
Qed.

(** The calls a defined [cacheSim] makes. *)
Lemma cacheSim_inv cache stats tag' setNumber lines clock op policy verbose
    cache' stats' out :
  cacheSim cache stats tag' setNumber lines clock op policy verbose
  = Some (cache', stats', out) →
  ∃ s s1 stats1 r1,
    index cache setNumber = Some s
    ∧ survey_case s stats lines tag' clock policy s1 stats1 r1
    ∧ ((op ≠ "M"%char ∧ cache' = <[Z.to_nat setNumber := s1]> cache
        ∧ stats' = stats1
        ∧ out = (if decide (verbose ≠ 0) then [Result r1] else [])
                ++ (if decide (verbose ≠ 0) then [Newline] else []))
       ∨ (op = "M"%char ∧ ∃ s2 r2,
            LONG_MIN ≤ clock + 1 ≤ LONG_MAX
            ∧ survey_case s1 stats1 lines tag' (clock + 1) policy s2 stats' r2
            ∧ cache' = <[Z.to_nat setNumber := s2]> cache
            ∧ out = (if decide (verbose ≠ 0) then [Result r1] else [])
                    ++ (if decide (verbose ≠ 0) then [Result r2] else [])
                    ++ (if decide (verbose ≠ 0) then [Newline] else []))).
Proof.
  unfold cacheSim. intros H.
  destruct (index cache setNumber) as [s|] eqn:Hs; simpl in H; [|done].
  destruct (surveySet s stats lines tag' clock policy) as [[[s1 stats1] r1]|]
    eqn:H1; simpl in H; [|done].
  destruct (strcpy_result r1) as [result1|] eqn:Hr1; simpl in H; [|done].
  apply strcpy_result_Some in Hr1 as [-> _].
  apply surveySet_case in H1. exists s, s1, stats1, r1. split; [done|].
  split; [done|]. destruct (decide (op = "M"%char)) as [->|Hop].
  - right. split; [done|].
    destruct (long_add clock 1) as [clock'|] eqn:Hc; simpl in H; [|done].
    apply long_add_Some in Hc as [-> Hc].
    destruct (surveySet s1 stats1 lines tag' (clock + 1) policy)
      as [[[s2 stats2] r2]|] eqn:H2; simpl in H; [|done].
    destruct (strcpy_result r2) as [result2|] eqn:Hr2; simpl in H; [|done].
    apply strcpy_result_Some in Hr2 as [-> _].
    apply surveySet_case in H2. simplify_eq. exists s2, r2.
    rewrite list_insert_insert_eq. done.
  - left. simpl in H. by simplify_eq.
Qed.

(** A defined [cacheSim] has not surveyed a set whose lines are all
    valid and hold other tags: the text of the eviction would not have
    fitted [result]. *)
Lemma cacheSim_not_scanned cache stats tag' setNumber lines clock op policy
    verbose s :
  is_Some (cacheSim cache stats tag' setNumber lines clock op policy verbose) →
  index cache setNumber = Some s →
  ¬ scanned s tag' 0 (Z.to_nat lines).
Proof.
  unfold cacheSim. intros [x H] Hs Hall. rewrite Hs in H. simpl in H.
  destruct (surveySet s stats lines tag' clock policy) as [[[s1 stats1] r1]|]
    eqn:H1; simpl in H; [|done].
  apply surveySet_case in H1.
  apply (survey_case_evict _ _ _ _ _ _ _ _ _ H1) in Hall as ->.
  done.
Qed.

(** A survey that would evict: [cacheSim] has no defined result. *)
Lemma cacheSim_overrun cache stats tag' setNumber lines clock op policy
    verbose s :
  index cache setNumber = Some s → scanned s tag' 0 (Z.to_nat lines) →
  cacheSim cache stats tag' setNumber lines clock op policy verbose = None.
Proof.
  intros Hs Hall.
  destruct (cacheSim _ _ _ _ _ _ _ _ _) as [x|] eqn:H; [|done].
  by destruct (cacheSim_not_scanned cache stats tag' setNumber lines clock op
                 policy verbose s).
Qed.

Lemma access_inv args st tag' setNumber op echo st' :
  access args st tag' setNumber op echo = Some st' →
  ∃ out,
    LONG_MIN ≤ st_clock st + 1 ≤ LONG_MAX
    ∧ st_clock st' = st_clock st + 1
    ∧ st_out st' = st_out st ++ echo ++ out
    ∧ cacheSim (st_cache st) (st_stats st) tag' setNumber (perset args)
               (st_clock st + 1) op (policy args) (verbose args)
      = Some (st_cache st', st_stats st', out).
Proof.
  unfold access. intros H.
  destruct (long_add (st_clock st) 1) as [clock|] eqn:Hc; simpl in H; [|done].
  apply long_add_Some in Hc as [-> Hc].
  destruct (cacheSim _ _ _ _ _ _ _ _ _) as [[[cache' stats'] out]|] eqn:Hsim;
    simpl in H; [|done].
  simplify_eq. by exists out.
Qed.


Lemma buildCache_lookup lines sets n s :
  buildCache lines sets !! n = Some s →
  s = replicate (Z.to_nat lines) singleLine.
Proof. unfold buildCache. intros H. by apply lookup_replicate_1 in H as [-> _]. Qed.

Lemma start_stats args st :
  start args = Some st →
  st_stats st = {| miss_count := 0; hit_count := 0; eviction_count := 0 |}.
Proof.
  unfold start. intros H.
  destruct (int_shl 1 (sbits args)); simpl in H; by simplify_eq.
Qed.

Lemma start_inv args st : start args = Some st → state_inv args st.
Proof.
  unfold start. intros H.
  destruct (int_shl 1 (sbits args)) as [sets|]; simpl in H; [|done].
  simplify_eq. unfold state_inv. simpl. split; [lia|].
  split; [unfold stats_ok; simpl; lia|]. split; [lia|].
  split_and!; apply Forall_lookup; intros n s Hs;
    apply buildCache_lookup in Hs as ->.
  - split; [by rewrite length_replicate|].
    intros i j li lj _ _ Hj _. by apply lookup_replicate_1 in Hj as [-> _].
  - intros k l Hl. apply lookup_replicate_1 in Hl as [-> _]. simpl. lia.
  - split; [|by rewrite weight_replicate_singleLine].
    intros l Hl. apply list_elem_of_lookup_1 in Hl as [k Hk].
    by apply lookup_replicate_1 in Hk as [-> _].
Qed.

Lemma access_stats args st tag' setNumber op echo st' :
  access args st tag' setNumber op echo = Some st' →
  hit_count (st_stats st') + miss_count (st_stats st')
  = hit_count (st_stats st) + miss_count (st_stats st)
    + (if decide (op = "M"%char) then 2 else 1).
Proof.
  intros H. apply access_inv in H as (out & _ & _ & _ & H).
  apply cacheSim_inv in H as (s & s1 & stats1 & r1 & _ & H1 & Hop).
  apply survey_case_stats in H1.
  destruct Hop as [(Hop & _ & -> & _)|(-> & s2 & r2 & _ & H2 & _)].
  - rewrite decide_False by done. lia.
  - apply survey_case_stats in H2. rewrite decide_True by done. lia.
Qed.

Lemma access_state_inv args st tag' setNumber op echo st' :
  access args st tag' setNumber op echo = Some st' →
  state_inv args st → state_inv args st'.
Proof.
  intros H (Hclock & Hstats & Hcount & Hsets & Hrec & Hfreq).
  pose proof (access_stats _ _ _ _ _ _ _ H) as Hsum.
  apply access_inv in H as (out & Hrange & Hc & _ & H).
  apply cacheSim_inv in H as (s & s1 & stats1 & r1 & Hs & H1 & Hop).
  apply index_Some in Hs as [Hn Hs].
  pose proof (Forall_lookup_1 _ _ _ _ Hsets Hs) as Hok.
  pose proof (Forall_lookup_1 _ _ _ _ Hrec Hs) as Hr.
  pose proof (Forall_lookup_1 _ _ _ _ Hfreq Hs) as Hf.
  assert (Forall (recent_le (st_clock st' + 1)) (st_cache st)) as Hrec'.
  { rewrite Hc. eapply Forall_impl; [exact Hrec|].
    intros s0. apply recent_le_mono. lia. }
  assert (Forall (freq_ok (st_stats st')) (st_cache st)) as Hfreq'.
  { eapply Forall_impl; [exact Hfreq|]. intros s0. apply freq_ok_stats.
    rewrite Hsum. destruct (decide (op = "M"%char)); lia. }
  pose proof (survey_case_set_ok _ _ _ _ _ _ _ _ _ H1 Hok) as Hok1.
  pose proof (survey_case_stats_ok _ _ _ _ _ _ _ _ _ H1 Hstats) as Hstats1.
  pose proof (survey_case_recent_le _ _ _ _ _ _ _ _ _ H1 Hr) as Hr1.
  pose proof (survey_case_freq_ok _ _ _ _ _ _ _ _ _ H1 Hf) as Hf1.
  unfold state_inv. split; [lia|].
  assert (hit_count (st_stats st') + miss_count (st_stats st')
          ≤ 2 * st_clock st') as Hcount'
    by (rewrite Hsum, Hc; destruct (decide (op = "M"%char)); lia).
  destruct Hop as [(_ & Hcache & Hst & _)|(_ & s2 & r2 & _ & H2 & Hcache & _)];
    rewrite Hcache.
  - split; [by rewrite Hst|]. split; [done|].
    split; [by apply Forall_insert|].
    split; (apply Forall_insert; [done|]).
    + rewrite Hc. eapply recent_le_mono; [|done]. lia.
    + by rewrite Hst.
  - split; [by eapply survey_case_stats_ok|]. split; [done|].
    split; [apply Forall_insert; [done|]; by eapply survey_case_set_ok|].
    split; (apply Forall_insert; [done|]).
    + rewrite Hc. eapply survey_case_recent_le; [done|].
      eapply recent_le_mono; [|done]. lia.
    + by eapply survey_case_freq_ok.
Qed.

Lemma simulate_from_state_inv args ls st st' :
  simulate_from args st ls = Some st' →
  state_inv args st → state_inv args st'.
Proof.
  revert st. induction ls as [|l ls IH]; intros st H Hinv; simpl in H.
  - by simplify_eq.
  - destruct (access args st _ _ _ _) as [st1|] eqn:Hacc; simpl in H; [|done].
    eapply IH; [done|]. by eapply access_state_inv.
Qed.

Lemma reachable_state_inv args st : reachable args st → state_inv args st.
Proof.
  intros [ls H]. unfold simulate in H.
  destruct (start args) as [st0|] eqn:Hst; simpl in H; [|done].
  eapply simulate_from_state_inv; [done|]. by apply start_inv.
Qed.

Lemma surveyed_survey_inv args s stats tag' clock :
  surveyed args s stats tag' clock → survey_inv args s stats tag' clock.
Proof.
  induction 1 as [st tag' setNumber s clock Hreach Hs Hc
                 |s stats tag' clock s1 stats1 r1 clock' _ IH H1 Hc].
  - apply reachable_state_inv in Hreach
      as (_ & Hstats & Hcount & Hsets & Hrec & Hfreq).
    apply index_Some in Hs as [_ Hs]. apply long_add_Some in Hc as [-> _].
    destruct (Forall_lookup_1 _ _ _ _ Hfreq Hs) as [Hpos Hw].
    split; [by eapply Forall_lookup_1|]. split; [done|]. split; [done|].
    left. split; [by eapply Forall_lookup_1|lia].
  - destruct IH as (Hok & Hstats & Hpos & _). apply surveySet_case in H1.
    split; [by eapply survey_case_set_ok|].
    split; [by eapply survey_case_stats_ok|].
    split; [by eapply survey_case_freq_pos|].
    right. eapply survey_case_holds; [|done].
    destruct Hok as [Hlen _]. by eapply survey_case_nonempty.
Qed.




(** A replay is a simulation of the decoded records. *)
Lemma replay_from_simulate args trace st st' :
  replay_from args st trace = Some st' →
  ∃ ls, simulate_from args st ls = Some st'
        ∧ l_op <$> ls = operation <$> trace.
Proof.
  revert st. induction trace as [|r trace IH]; intros st H; simpl in H.
  - simplify_eq. by exists [].
  - destruct (replay_line args st r) as [st1|] eqn:Hline; simpl in H; [|done].
    apply IH in H as (ls & Hls & Hops). unfold replay_line in Hline.
    destruct (findTag _ _ _) as [tag'|]; simpl in Hline; [|done].
    destruct (findSet _ _ _) as [setNumber|]; simpl in Hline; [|done].
    exists ({| l_tag := tag'; l_set := setNumber; l_op := operation r;
               l_echo := if decide (verbose args ≠ 0)
                         then [Echo (operation r) (address r) (bytes r)]
                         else [] |} :: ls).
    split.
    + simpl. rewrite Hline. done.
    + rewrite !fmap_cons. simpl. by rewrite Hops.
Qed.

Lemma replay_simulate args trace st :
  replay args trace = Some st →
  ∃ ls, simulate args ls = Some st ∧ l_op <$> ls = operation <$> trace.
Proof.
  unfold replay, simulate. intros H.
  destruct (start args) as [st0|]; simpl in *; [|done].
  by apply replay_from_simulate.
Qed.

Lemma replay_reachable args trace st :
  replay args trace = Some st → reachable args st.
Proof. intros H. apply replay_simulate in H as (ls & H & _). by exists ls. Qed.

(** ** Least frequently used *)


(** ** Definedness *)

Lemma survey_loop_defined n s stats tag' clock i v :
  (i + n ≤ length s)%nat → headroom 1 s stats →
  is_Some (survey_loop n s stats tag' clock i v).
Proof.
  intros Hlen (Hh & Hm & _ & Hf). revert i v Hlen.
  induction n as [|n IH]; intros i v Hlen; simpl; [done|].
  destruct (lookup_lt_is_Some_2 s i) as [l Hl]; [lia|]. rewrite Hl. simpl.
  destruct (decide (valid l ≠ 0)).
  - destruct (decide (sameTag (tag l) tag' ≠ 0)).
    + rewrite int_add_defined by range. simpl.
      apply list_elem_of_lookup_2, Hf in Hl.
      rewrite long_add_defined by range. done.
    + apply IH. lia.
  - rewrite int_add_defined by range. done.
Qed.

Lemma surveySet_defined s stats lines tag' clock policy :
  1 ≤ lines → (Z.to_nat lines ≤ length s)%nat → headroom 1 s stats →
  is_Some (surveySet s stats lines tag' clock policy).
Proof.
  intros H1 Hlen Hroom. unfold surveySet. fold (survey_init clock).
  destruct (survey_loop_defined (Z.to_nat lines) s stats tag' clock 0
              (survey_init clock)) as [e He]; [lia|done|].
  rewrite He. simpl. destruct e as [s' stats' r|v]; [done|].
  apply survey_loop_inv in He as [_ ->].
  destruct (lookup_lt_is_Some_2 s
              (finalIndex policy (track (Z.to_nat lines) s 0 (survey_init clock))))
    as [l Hl].
  { pose proof (finalIndex_bound policy lines s clock H1). lia. }
  rewrite Hl. simpl. destruct Hroom as (_ & Hm & He & _).
  rewrite !int_add_defined by range. done.
Qed.

(** A survey uses up at most one increment of each. *)
Lemma survey_case_headroom k s stats lines tag' clock policy s' stats' r :
  survey_case s stats lines tag' clock policy s' stats' r →
  headroom (k + 1) s stats → headroom k s' stats'.
Proof.
  intros H (Hh & Hm & He & Hf).
  assert (∀ j l', (0 ≤ freq l' ≤ LONG_MAX - k) →
                  ∀ l, l ∈ <[j := l']> s → 0 ≤ freq l ≤ LONG_MAX - k) as Hins.
  { intros j l' Hl' l Hl. apply list_elem_of_lookup_1 in Hl as [i Hi].
    apply list_lookup_insert_Some in Hi as [(_ & <- & _)|[_ Hi]]; [done|].
    apply list_elem_of_lookup_2, Hf in Hi. lia. }
  destruct H as [j l h f Hj Hs Hl Hv Ht Hh' Hf'|j l m Hj Hs Hl Hv Hm'
                |fi l m e Hs Hfi Hl Hm' He'];
    repeat match goal with
           | H : int_add _ _ = Some _ |- _ => apply int_add_Some in H as [-> _]
           | H : long_add _ _ = Some _ |- _ => apply long_add_Some in H as [-> _]
           end;
    apply list_elem_of_lookup_2, Hf in Hl; unfold headroom;
    (split_and!; [simpl; lia..|apply Hins; simpl; unfold LONG_MAX in *; lia]).
Qed.

Lemma headroom_mono k k' s stats :
  k' ≤ k → headroom k s stats → headroom k' s stats.
Proof.
  intros Hk (Hh & Hm & He & Hf). unfold headroom. split_and!; try lia.
  intros l Hl. apply Hf in Hl. lia.
Qed.

Lemma headroom_stats k s s' stats :
  headroom k s stats →
  (∀ l, l ∈ s' → 0 ≤ freq l ≤ LONG_MAX - k) →
  headroom k s' stats.
Proof. intros (? & ? & ? & _) Hf. unfold headroom. split_and!; try lia. done. Qed.

(** [cacheSim] is defined when the set has its lines, one of which is
    invalid or holds the tag, and the counters have room. *)
Lemma cacheSim_defined cache stats tag' setNumber lines clock op policy verbose s :
  1 ≤ lines → index cache setNumber = Some s →
  (Z.to_nat lines ≤ length s)%nat → headroom 2 s stats →
  LONG_MIN ≤ clock + 1 ≤ LONG_MAX →
  ¬ scanned s tag' 0 (Z.to_nat lines) →
  is_Some (cacheSim cache stats tag' setNumber lines clock op policy verbose).
Proof.
  intros H1 Hs Hlen Hroom Hclock Hno. unfold cacheSim. rewrite Hs. simpl.
  destruct (surveySet_defined s stats lines tag' clock policy)
    as [[[s1 stats1] r1] Hsur];
    [done|done|eapply headroom_mono; [|done]; lia|].
  rewrite Hsur. simpl. apply surveySet_case in Hsur.
  rewrite (survey_case_strcpy _ _ _ _ _ _ _ _ _ Hsur Hno). simpl.
  destruct (decide (op = "M"%char)); [|done].
  pose proof (survey_case_length _ _ _ _ _ _ _ _ _ Hsur) as Hlen1.
  pose proof (survey_case_holds _ _ _ _ _ _ _ _ _ H1 Hsur) as Hholds.
  apply (survey_case_headroom 1) in Hsur; [|done].
  rewrite long_add_defined by done. simpl.
  destruct (surveySet_defined s1 stats1 lines tag' (clock + 1) policy)
    as [[[s2 stats2] r2] Hsur2]; [done|lia|done|].
  rewrite Hsur2. simpl. apply surveySet_case in Hsur2.
  by destruct (holds_survey_case _ _ _ _ _ _ _ _ _ Hholds Hsur2) as [-> _].
Qed.

Lemma start_room args k :
  0 ≤ sbits args ≤ 30 → 0 ≤ k ≤ INT_MAX →
  ∃ st, start args = Some st ∧ room args k st.
Proof.
  intros Hs Hk. unfold start, int_shl. rewrite decide_True by lia. simpl.
  eexists. split; [done|]. unfold room. simpl.
  assert (int_of_Z (Z.shiftl 1 (sbits args)) = 2 ^ sbits args) as ->.
  { rewrite Z.shiftl_1_l. unfold int_of_Z, wrap.
    assert (0 < 2 ^ sbits args ≤ 2 ^ 30) as Hp
      by (split; [apply Z.pow_pos_nonneg|apply Z.pow_le_mono_r]; lia).
    change (2 ^ (32 - 1)) with (2 * 2 ^ 30).
    change (2 ^ 32) with (4 * 2 ^ 30).
    rewrite Z.mod_small by lia. lia. }
  unfold buildCache. split; [by rewrite length_replicate|].
  split; [range|].
  intros s Hs'. apply list_elem_of_lookup_1 in Hs' as [n Hn].
  apply lookup_replicate_1 in Hn as [-> _].
  split; [by rewrite length_replicate|].
  unfold headroom, INT_MAX, LONG_MAX in *. simpl. split_and!; try lia.
  intros l Hl. apply list_elem_of_lookup_1 in Hl as [i Hi].
  apply lookup_replicate_1 in Hi as [-> _]. simpl. lia.
Qed.

Lemma access_room args k st tag' setNumber op echo :
  1 ≤ perset args → 0 ≤ k → 0 ≤ setNumber < 2 ^ sbits args →
  room args (k + 2) st →
  (∀ s, index (st_cache st) setNumber = Some s →
        ¬ scanned s tag' 0 (Z.to_nat (perset args))) →
  ∃ st', access args st tag' setNumber op echo = Some st' ∧ room args k st'.
Proof.
  intros Hper Hk Hn (Hlen & Hclock & Hroom) Hno.
  destruct (lookup_lt_is_Some_2 (st_cache st) (Z.to_nat setNumber)) as [s Hs];
    [lia|].
  assert (index (st_cache st) setNumber = Some s) as Hidx
    by (apply index_Some; split; [lia|done]).
  destruct (Hroom s) as [Hlens Hhead]; [by eapply list_elem_of_lookup_2|].
  destruct (cacheSim_defined (st_cache st) (st_stats st) tag' setNumber
              (perset args) (st_clock st + 1) op (policy args) (verbose args) s)
    as [[[cache' stats'] out] Hsim];
    [done|done|lia|eapply headroom_mono; [|done]; lia
    |range|by apply Hno|].
  unfold access.
  rewrite long_add_defined by range.
  simpl. rewrite Hsim. simpl. eexists. split; [done|].
  apply cacheSim_inv in Hsim as (s0 & s1 & stats1 & r1 & Hs0 & H1 & Hop).
  assert (s0 = s) as -> by congruence.
  assert (∀ s2 stats2,
            length s2 = Z.to_nat (perset args) →
            headroom k s2 stats2 →
            room args k {| st_cache := <[Z.to_nat setNumber := s2]> (st_cache st);
                           st_stats := stats2; st_clock := st_clock st + 1;
                           st_out := st_out st ++ echo ++ out |}) as Hput.
  { intros s2 stats2 Hlen2 Hhead'. unfold room. simpl.
    split; [by rewrite length_insert|]. split; [lia|].
    intros s' Hs'. apply list_elem_of_lookup_1 in Hs' as [n Hn'].
    apply list_lookup_insert_Some in Hn' as [(_ & <- & _)|[_ Hn']]; [done|].
    destruct (Hroom s') as [Hlen' (_ & _ & _ & Hf)];
      [by eapply list_elem_of_lookup_2|].
    split; [done|]. eapply headroom_stats; [exact Hhead'|].
    intros l Hl. apply Hf in Hl. lia. }
  pose proof (survey_case_length _ _ _ _ _ _ _ _ _ H1) as Hlen1.
  apply (survey_case_headroom (k + 1)) in H1;
    [|by replace (k + 1 + 1) with (k + 2) by lia].
  destruct Hop as [(_ & -> & -> & _)|(_ & s2 & r2 & _ & H2 & -> & _)].
  - apply Hput; [lia|]. eapply headroom_mono; [|done]. lia.
  - pose proof (survey_case_length _ _ _ _ _ _ _ _ _ H2) as Hlen2.
    apply (survey_case_headroom k) in H2; [|done].
    apply Hput; [lia|done].
Qed.

(** ** Sample runs *)

Lemma sample_reachable_1 : reachable lru_args sample_state_1.
Proof. exists (take 1 sample_lookups). vm_compute. reflexivity. Defined.

Lemma sample_reachable_3 : reachable lru_args sample_state_3.
Proof. exists (take 3 sample_lookups). vm_compute. reflexivity. Defined.

(** The survey for tag 2 after the first sample line: line 1 is empty. *)
Lemma sample_surveyed_1 :
  surveyed lru_args
    [ {| valid := 1; tag := 1; recent := 2; freq := 1 |}; singleLine ]
    {| miss_count := 1; hit_count := 1; eviction_count := 0 |} 2 2.
Proof.
  apply (surveyed_first lru_args sample_state_1 2 0).
  - exact sample_reachable_1.
  - reflexivity.
  - reflexivity.
Defined.


(** Given the tags [0x0], [0x10], [0x0] for a set of one line, the
    three surveys report a miss and two evictions and count
    [{hits:0, misses:3, evictions:2}]: the single-line scenario of the
    specification with the decoding left out.  In [cacheSim] the second
    survey already writes past the end of [result]. *)
Lemma single_line_surveys (policy : Z) :
  surveySet [ singleLine ]
            {| miss_count := 0; hit_count := 0; eviction_count := 0 |}
            1 0x0 1 policy
  = Some ([ {| valid := 1; tag := 0x0; recent := 1; freq := 0 |} ],
          {| miss_count := 1; hit_count := 0; eviction_count := 0 |},
          "miss "%string)
  ∧ surveySet [ {| valid := 1; tag := 0x0; recent := 1; freq := 0 |} ]
              {| miss_count := 1; hit_count := 0; eviction_count := 0 |}
              1 0x10 2 policy
    = Some ([ {| valid := 1; tag := 0x10; recent := 2; freq := 0 |} ],
            {| miss_count := 2; hit_count := 0; eviction_count := 1 |},
            "evict "%string)
  ∧ surveySet [ {| valid := 1; tag := 0x10; recent := 2; freq := 0 |} ]
              {| miss_count := 2; hit_count := 0; eviction_count := 1 |}
              1 0x0 3 policy
    = Some ([ {| valid := 1; tag := 0x0; recent := 3; freq := 0 |} ],
            {| miss_count := 3; hit_count := 0; eviction_count := 2 |},
            "evict "%string)
  ∧ simulate (single_line_args policy 1)
      [ {| l_tag := 0x0; l_set := 0; l_op := "L"; l_echo := [] |};
        {| l_tag := 0x10; l_set := 0; l_op := "L"; l_echo := [] |} ]
    = None.
Proof.
  split_and!.
  - unfold surveySet, finalIndex. simpl. done.
  - unfold surveySet, finalIndex. simpl. by repeat destruct (decide _).
  - unfold surveySet, finalIndex. simpl. by repeat destruct (decide _).
  - unfold simulate, single_line_args. simpl.
    unfold access, cacheSim, surveySet, finalIndex. simpl.
    by repeat destruct (decide _).
Qed.

(** With the tag 0 that [findTag_mod] gives every address under
    [-s 0 -b 0], the single-line scenario is a miss and two hits. *)
Lemma single_line_simulate_mod (policy : Z) :
  simulate (single_line_args policy 1)
    ((λ r, {| l_tag := findTag_mod (address r) 0 0; l_set := 0;
              l_op := operation r; l_echo := [] |}) <$> single_line_trace)
  = Some {| st_cache := [ [ {| valid := 1; tag := 0; recent := 3; freq := 2 |} ] ];
            st_stats := {| miss_count := 1; hit_count := 2;
                           eviction_count := 0 |};
            st_clock := 3;
            st_out := [ Result "miss "; Newline; Result "hit "; Newline;
                        Result "hit "; Newline ] |}.
Proof. reflexivity. Qed.

(** * The properties the specification states *)

(** What a run or a call of [cacheSim] does is stated of those that have
    a defined result; they evict nothing, since the text of an eviction
    does not fit [result].  What a survey does when it evicts is stated
    of [surveySet], for every survey that an execution makes. *)

(** C1: under LFU, accesses to tags 1, 2, 2, 1 leave the two lines of
    set 0 with the same [freq] 1, the line of tag 2 (line 1) used at
    time 3 and the line of tag 1 (line 0) at time 4.  The survey that
    the lookup of tag 3 then makes evicts line 0, the more recently used
    of the two: the test of line 294 is made after line 282 has lowered
    [minLRU] to the [recent] of the very line under test, so it never
    succeeds. *)
Theorem C1_LFU_tie_evicts_the_more_recent :
  replay lfu_args tie_trace = Some tie_state
  ∧ index (st_cache tie_state) 0
    = Some [ {| valid := 1; tag := 1; recent := 4; freq := 1 |};
             {| valid := 1; tag := 2; recent := 3; freq := 1 |} ]
  ∧ findTag addr_C (sbits lfu_args) (bbits lfu_args) = Some 3
  ∧ findSet addr_C (sbits lfu_args) (bbits lfu_args) = Some 0
  ∧ surveyed lfu_args
      [ {| valid := 1; tag := 1; recent := 4; freq := 1 |};
        {| valid := 1; tag := 2; recent := 3; freq := 1 |} ]
      (st_stats tie_state) 3 5
  ∧ surveySet [ {| valid := 1; tag := 1; recent := 4; freq := 1 |};
                {| valid := 1; tag := 2; recent := 3; freq := 1 |} ]
              (st_stats tie_state) (perset lfu_args) 3 5 (policy lfu_args)
    = Some ([ {| valid := 1; tag := 3; recent := 5; freq := 0 |};
              {| valid := 1; tag := 2; recent := 3; freq := 1 |} ],
            {| miss_count := miss_count (st_stats tie_state) + 1;
               hit_count := hit_count (st_stats tie_state);
               eviction_count := eviction_count (st_stats tie_state) + 1 |},
            "evict "%string).
Proof.
  assert (replay lfu_args tie_trace = Some tie_state) as Hrun
    by (vm_compute; reflexivity).
  split; [exact Hrun|]. split_and!; try reflexivity.
  apply (surveyed_first lfu_args tie_state 3 0).
  - by eapply replay_reachable.
  - reflexivity.
  - reflexivity.
Qed.

(** C2: with [-s 0 -b 0 -E 1] the replay of [L 0], [L 10], [L 0] does not
    produce miss, eviction, eviction and [{hits:0, misses:3,
    evictions:2}].  It does not get as far as the first lookup: [findTag]
    shifts an [int] by 64 bits, so the replay has no defined outcome,
    under either policy and with or without [-v]; and where the shift
    takes its count modulo 32, every tag is 0 and the outcomes are miss,
    hit, hit with [{hits:2, misses:1, evictions:0}]. *)
Theorem C2_single_line_replay_undefined (policy verbose : Z) :
  replay (single_line_args policy verbose) single_line_trace = None
  ∧ ∃ st,
      simulate (single_line_args policy 1)
        ((λ r, {| l_tag := findTag_mod (address r) 0 0; l_set := 0;
                  l_op := operation r; l_echo := [] |}) <$> single_line_trace)
      = Some st
      ∧ st_stats st = {| miss_count := 1; hit_count := 2; eviction_count := 0 |}
      ∧ st_out st = [ Result "miss "; Newline; Result "hit "; Newline;
                      Result "hit "; Newline ].
Proof.
  split; [reflexivity|]. eexists. split; [apply single_line_simulate_mod|].
  split; reflexivity.
Qed.

(** C3: for a Modify simulated with [perset >= 1], [cacheSim] surveys
    the same set for the same tag twice, the second time at [clock+1];
    the second survey is a hit (no miss, no eviction), so the Modify
    adds at most one eviction.  This holds of every defined call, and
    of the second survey whatever the first one returned, an eviction
    included.  The call itself is defined when the set has its [lines]
    lines, the counters and the frequencies have room for two
    increments, the clock for one, and the first survey does not evict;
    when it evicts, its text does not fit [result] and the call has no
    defined result. *)
Theorem C3_modify_second_access_hits (cache : list (list cLine))
    (stats : cachestats) (tag' setNumber lines clock policy verbose : Z) :
  1 ≤ lines →
  (∀ cache' stats' out,
     cacheSim cache stats tag' setNumber lines clock "M" policy verbose
     = Some (cache', stats', out) →
     ∃ s s1 stats1 r1 s2,
       index cache setNumber = Some s
       ∧ surveySet s stats lines tag' clock policy = Some (s1, stats1, r1)
       ∧ surveySet s1 stats1 lines tag' (clock + 1) policy
         = Some (s2, stats', "hit "%string)
       ∧ cache' = <[Z.to_nat setNumber := s2]> cache
       ∧ hit_count stats' = hit_count stats1 + 1
       ∧ miss_count stats' = miss_count stats1
       ∧ eviction_count stats' = eviction_count stats1
       ∧ eviction_count stats ≤ eviction_count stats' ≤ eviction_count stats + 1
       ∧ (verbose ≠ 0 → out = [Result r1; Result "hit "; Newline]))
  ∧ (∀ s s1 stats1 r1,
       surveySet s stats lines tag' clock policy = Some (s1, stats1, r1) →
       (∀ s2 stats2 r2,
          surveySet s1 stats1 lines tag' (clock + 1) policy
          = Some (s2, stats2, r2) →
          r2 = "hit "%string
          ∧ hit_count stats2 = hit_count stats1 + 1
          ∧ miss_count stats2 = miss_count stats1
          ∧ eviction_count stats2 = eviction_count stats1
          ∧ eviction_count stats ≤ eviction_count stats2
                                 ≤ eviction_count stats + 1)
       ∧ ((Z.to_nat lines ≤ length s)%nat → headroom 2 s stats →
          is_Some (surveySet s1 stats1 lines tag' (clock + 1) policy)))
  ∧ (∀ s, index cache setNumber = Some s →
          (Z.to_nat lines ≤ length s)%nat → headroom 2 s stats →
          LONG_MIN ≤ clock + 1 ≤ LONG_MAX →
          is_Some (cacheSim cache stats tag' setNumber lines clock "M"
                            policy verbose)
          ↔ ¬ scanned s tag' 0 (Z.to_nat lines)).
Proof.
  intros H1. split_and!.
  - intros cache' stats' out H.
    apply cacheSim_inv in H as (s & s1 & stats1 & r1 & Hs & Hsur1 & Hop).
    destruct Hop as [(Hop & _)|(_ & s2 & r2 & _ & Hsur2 & -> & ->)]; [done|].
    pose proof (survey_case_holds _ _ _ _ _ _ _ _ _ H1 Hsur1) as Hholds.
    destruct (holds_survey_case _ _ _ _ _ _ _ _ _ Hholds Hsur2)
      as (-> & Hh & Hm & He).
    pose proof (survey_case_stats _ _ _ _ _ _ _ _ _ Hsur1) as Hst.
    exists s, s1, stats1, r1, s2. split_and!; try done.
    + by apply survey_case_surveySet.
    + by apply survey_case_surveySet.
    + lia.
    + lia.
    + intros Hv. by rewrite !decide_True by done.
  - intros s s1 stats1 r1 Hsur1. apply surveySet_case in Hsur1.
    pose proof (survey_case_holds _ _ _ _ _ _ _ _ _ H1 Hsur1) as Hholds.
    pose proof (survey_case_stats _ _ _ _ _ _ _ _ _ Hsur1) as Hst.
    split.
    + intros s2 stats2 r2 Hsur2. apply surveySet_case in Hsur2.
      destruct (holds_survey_case _ _ _ _ _ _ _ _ _ Hholds Hsur2)
        as (-> & Hh & Hm & He).
      split_and!; try done; lia.
    + intros Hlen Hroom.
      pose proof (survey_case_length _ _ _ _ _ _ _ _ _ Hsur1) as Hlen1.
      apply (survey_case_headroom 1) in Hsur1; [|done].
      apply surveySet_defined; [done|lia|done].
  - intros s Hs Hlen Hroom Hclock. split.
    + intros Hdef. by eapply cacheSim_not_scanned.
    + intros Hno. by eapply cacheSim_defined.
Qed.

Lemma C3_modify_second_access_hits_witness :
  (∃ s s1 stats1 r1 s2,
     index (st_cache sample_state_1) 0 = Some s
     ∧ surveySet s (st_stats sample_state_1) 2 2 2 LRU = Some (s1, stats1, r1)
     ∧ surveySet s1 stats1 2 2 (2 + 1) LRU
       = Some (s2, {| miss_count := 2; hit_count := 2; eviction_count := 0 |},
               "hit "%string)
     ∧ [ [ {| valid := 1; tag := 1; recent := 2; freq := 1 |};
           {| valid := 1; tag := 2; recent := 3; freq := 1 |} ];
         [ singleLine; singleLine ] ]
       = <[Z.to_nat 0 := s2]> (st_cache sample_state_1)
     ∧ 2 = hit_count stats1 + 1
     ∧ 2 = miss_count stats1
     ∧ 0 = eviction_count stats1
     ∧ 0 ≤ 0 ≤ 0 + 1
     ∧ (1 ≠ 0 → [Result "miss "; Result "hit "; Newline]
                = [Result r1; Result "hit "; Newline]))
  ∧ ("hit "%string = "hit "%string
     ∧ 3 = 2 + 1 ∧ 3 = 3 ∧ 1 = 1 ∧ 0 ≤ 1 ≤ 0 + 1)
  ∧ is_Some (surveySet [ {| valid := 1; tag := 1; recent := 3; freq := 2 |};
                         {| valid := 1; tag := 3; recent := 4; freq := 0 |} ]
                       {| miss_count := 3; hit_count := 2; eviction_count := 1 |}
                       2 3 (4 + 1) LRU)
  ∧ (is_Some (cacheSim (st_cache sample_state_3) (st_stats sample_state_3)
                       3 0 2 4 "M" LRU 1)
     ↔ ¬ scanned [ {| valid := 1; tag := 1; recent := 3; freq := 2 |};
                   {| valid := 1; tag := 2; recent := 2; freq := 0 |} ]
                 3 0 (Z.to_nat 2)).
Proof.
  assert (1 ≤ 2) as H1 by lia.
  pose proof (C3_modify_second_access_hits (st_cache sample_state_1)
                (st_stats sample_state_1) 2 0 2 2 LRU 1 H1) as (Hhit & _ & _).
  pose proof (C3_modify_second_access_hits (st_cache sample_state_3)
                (st_stats sample_state_3) 3 0 2 4 LRU 1 H1)
    as (_ & Hsecond & Hdef).
  assert (headroom 2 [ {| valid := 1; tag := 1; recent := 3; freq := 2 |};
                       {| valid := 1; tag := 2; recent := 2; freq := 0 |} ]
                   (st_stats sample_state_3)) as Hroom.
  { unfold headroom. simpl. split_and!; try range.
    intros l Hl. apply list_elem_of_In in Hl.
    destruct Hl as [<-|[<-|[]]]; simpl; range. }
  destruct (Hsecond
              [ {| valid := 1; tag := 1; recent := 3; freq := 2 |};
                {| valid := 1; tag := 2; recent := 2; freq := 0 |} ]
              [ {| valid := 1; tag := 1; recent := 3; freq := 2 |};
                {| valid := 1; tag := 3; recent := 4; freq := 0 |} ]
              {| miss_count := 3; hit_count := 2; eviction_count := 1 |}
              "evict "%string eq_refl) as [Hhit2 Hdef2].
  split; [|split; [|split]].
  - apply Hhit. vm_compute. reflexivity.
  - apply (Hhit2 [ {| valid := 1; tag := 1; recent := 3; freq := 2 |};
                   {| valid := 1; tag := 3; recent := 5; freq := 1 |} ]
                 {| miss_count := 3; hit_count := 3; eviction_count := 1 |}).
    reflexivity.
  - apply Hdef2; [simpl; lia|exact Hroom].
  - apply (Hdef [ {| valid := 1; tag := 1; recent := 3; freq := 2 |};
                  {| valid := 1; tag := 2; recent := 2; freq := 0 |} ]).
    + reflexivity.
    + simpl. lia.
    + exact Hroom.
    + range.
Defined.







(** C7: [findTag] does not compute
    [(address >> (sbits+bbits)) & mask(64 - sbits - bbits)] for every
    configuration with [sbits + bbits <= 64].  For [-s 4 -b 4] and
    address [0x7ff000398] the formula gives [0x7ff0003], and for
    [-s 0 -b 0] and address [0x10] it gives [0x10]; the code shifts the
    [int] [~0] by 56 and by 64 bits, which has no defined result, and
    gives [0xff0003] and [0] where the count is taken modulo 32.
    [findSet] is defined and as stated at both inputs. *)
Theorem C7_findTag_wide_tag_undefined :
  (findTag 0x7ff000398 4 4 = None
   ∧ findTag_mod 0x7ff000398 4 4 = 0xff0003
   ∧ Z.land (Z.shiftr 0x7ff000398 (4 + 4)) (Z.ones (64 - 4 - 4)) = 0x7ff0003
   ∧ findSet 0x7ff000398 4 4 = Some 9)
  ∧ (findTag 0x10 0 0 = None
     ∧ findTag_mod 0x10 0 0 = 0
     ∧ Z.land (Z.shiftr 0x10 (0 + 0)) (Z.ones (64 - 0 - 0)) = 0x10
     ∧ findSet 0x10 0 0 = Some 0).
Proof. split_and!; reflexivity. Qed.



(** C9: whenever a lookup finds an invalid line before any hit, it
    records a miss and nothing else, the slot then holds exactly
    [{valid:1, tag, recent:clock, freq:0}], whatever happened in the set
    before, and no other line is changed. *)
Theorem C9_empty_line_is_filled (args : arguments) (s : list cLine)
    (stats : cachestats) (tag' clock : Z) (i : nat) (line : cLine) :
  surveyed args s stats tag' clock →
  scanned s tag' 0 i → s !! i = Some line → valid line = 0 →
  miss_count stats < INT_MAX →
  surveySet s stats (perset args) tag' clock (policy args)
  = Some (<[i := {| valid := 1; tag := tag'; recent := clock; freq := 0 |}]> s,
          {| miss_count := miss_count stats + 1; hit_count := hit_count stats;
             eviction_count := eviction_count stats |},
          "miss "%string).
Proof.
  intros Hsur Hs Hl Hv Hm.
  apply surveyed_survey_inv in Hsur as (Hok & Hstats & _).
  pose proof (set_ok_empty_line _ _ _ _ Hok Hl Hv) as ->.
  apply survey_case_surveySet.
  apply (survey_miss s stats (perset args) tag' clock (policy args)
           i singleLine (miss_count stats + 1)); try done.
  - destruct Hok as [<- _]. by eapply lookup_lt_Some.
  - apply int_add_defined. unfold stats_ok in Hstats. range.
Qed.

Lemma C9_empty_line_is_filled_witness :
  surveySet [ {| valid := 1; tag := 1; recent := 2; freq := 1 |}; singleLine ]
            {| miss_count := 1; hit_count := 1; eviction_count := 0 |}
            2 2 2 LRU
  = Some ([ {| valid := 1; tag := 1; recent := 2; freq := 1 |};
            {| valid := 1; tag := 2; recent := 2; freq := 0 |} ],
          {| miss_count := 2; hit_count := 1; eviction_count := 0 |},
          "miss "%string).
Proof.
  refine (C9_empty_line_is_filled lru_args _ _ 2 2 1%nat singleLine
            sample_surveyed_1 _ eq_refl eq_refl _).
  - intros k Hk. exists {| valid := 1; tag := 1; recent := 2; freq := 1 |}.
    assert (k = 0%nat) as -> by lia. split; [reflexivity|]. split; discriminate.
  - reflexivity.
Defined.



(** * More of the code: lemmas for the further properties *)

(** ** Address decoding, continued *)

Lemma findSet_value a sbits bbits :
  0 ≤ sbits < 32 → 0 ≤ bbits < 64 →
  findSet a sbits bbits = Some (Z.land (Z.shiftr a bbits) (Z.ones sbits)).
Proof.
  intros Hs Hb. unfold findSet. rewrite int_mask by done. simpl.
  unfold long_shr. rewrite decide_True by lia. simpl.
  unfold bit_not. by rewrite Z.lnot_involutive.
Qed.

Lemma findTag_value a sbits bbits :
  0 ≤ sbits → 0 ≤ bbits → 32 < sbits + bbits < 64 →
  findTag a sbits bbits
  = Some (Z.land (Z.shiftr a (sbits + bbits)) (Z.ones (64 - sbits - bbits))).
Proof.
  intros Hs Hb Hsb. unfold findTag.
  rewrite int_sub_defined by range. simpl.
  rewrite int_sub_defined by range. simpl.
  rewrite int_mask by lia. simpl.
  rewrite int_add_defined by range. simpl.
  unfold long_shr. rewrite decide_True by lia. simpl.
  unfold bit_not. by rewrite Z.lnot_involutive.
Qed.

(** Bits [n], ..., [n+k-1] of a number and of its low 64 bits. *)
Lemma unsigned_bits a n k :
  0 ≤ n → 0 ≤ k → n + k ≤ 64 →
  Z.land (Z.shiftr a n) (Z.ones k) = (unsigned a `div` 2 ^ n) `mod` 2 ^ k.
Proof.
  intros Hn Hk Hnk. rewrite Z.land_ones, Z.shiftr_div_pow2 by lia.
  unfold unsigned.
  assert (a = a `mod` 2 ^ 64 + (a `div` 2 ^ 64 * 2 ^ (64 - n - k) * 2 ^ k) * 2 ^ n)
    as Ha.
  { rewrite <- !Z.mul_assoc, <- !Z.pow_add_r by lia.
    replace (64 - n - k + (k + n)) with 64 by lia.
    pose proof (Z.div_mod a (2 ^ 64)). lia. }
  rewrite Ha at 1.
  rewrite Z.div_add by (apply Z.pow_nonzero; lia).
  apply Z.mod_add. apply Z.pow_nonzero; lia.
Qed.

Lemma decode_block a sbits bbits :
  0 ≤ sbits < 32 → 0 ≤ bbits → 32 < sbits + bbits < 64 →
  ∃ t n, findTag a sbits bbits = Some t ∧ findSet a sbits bbits = Some n
         ∧ 0 ≤ t < 2 ^ (64 - sbits - bbits) ∧ 0 ≤ n < 2 ^ sbits
         ∧ unsigned a `div` 2 ^ bbits = t * 2 ^ sbits + n.
Proof.
  intros Hs Hb Hsb.
  rewrite findTag_value, findSet_value by lia.
  eexists _, _. split; [done|]. split; [done|].
  rewrite !unsigned_bits by lia.
  assert (0 < 2 ^ sbits) by (apply Z.pow_pos_nonneg; lia).
  assert (0 < 2 ^ bbits) by (apply Z.pow_pos_nonneg; lia).
  assert (0 < 2 ^ (64 - sbits - bbits)) by (apply Z.pow_pos_nonneg; lia).
  split; [by apply Z.mod_pos_bound|]. split; [by apply Z.mod_pos_bound|].
  assert (0 ≤ unsigned a < 2 ^ 64) as Hu
    by (apply Z.mod_pos_bound; lia).
  rewrite (Z.mod_small (_ `div` 2 ^ (sbits + bbits))).
  - replace (2 ^ (sbits + bbits)) with (2 ^ bbits * 2 ^ sbits)
      by (rewrite <- Z.pow_add_r by lia; f_equal; lia).
    rewrite <- Z.div_div by lia.
    pose proof (Z.div_mod (unsigned a `div` 2 ^ bbits) (2 ^ sbits)). lia.
  - split; [apply Z.div_pos; lia|].
    apply Z.div_lt_upper_bound; [apply Z.pow_pos_nonneg; lia|].
    rewrite <- Z.pow_add_r by lia.
    replace (sbits + bbits + (64 - sbits - bbits)) with 64 by lia. lia.
Qed.

(** The blocks of two [long]s are the same blocks of their unsigned
    values. *)
Lemma unsigned_block a a' bbits :
  0 ≤ bbits < 64 → LONG_MIN ≤ a ≤ LONG_MAX → LONG_MIN ≤ a' ≤ LONG_MAX →
  unsigned a `div` 2 ^ bbits = unsigned a' `div` 2 ^ bbits
  ↔ Z.shiftr a bbits = Z.shiftr a' bbits.
Proof.
  intros Hb Ha Ha'. rewrite !Z.shiftr_div_pow2 by lia.
  assert (∀ x, LONG_MIN ≤ x ≤ LONG_MAX →
            unsigned x `div` 2 ^ bbits
            = x `div` 2 ^ bbits + (if decide (x < 0) then 2 ^ (64 - bbits) else 0)
            ∧ - 2 ^ (63 - bbits) ≤ x `div` 2 ^ bbits < 2 ^ (63 - bbits)
            ∧ (x < 0 ↔ x `div` 2 ^ bbits < 0)) as Hdiv.
  { intros x Hx. unfold unsigned, LONG_MIN, LONG_MAX in *.
    assert (0 < 2 ^ bbits) by (apply Z.pow_pos_nonneg; lia).
    assert (2 ^ 64 = 2 ^ (64 - bbits) * 2 ^ bbits) as H64
      by (rewrite <- Z.pow_add_r by lia; f_equal; lia).
    assert (2 ^ 63 = 2 ^ (63 - bbits) * 2 ^ bbits) as H63
      by (rewrite <- Z.pow_add_r by lia; f_equal; lia).
    split; [|split].
    - destruct (decide (x < 0)).
      + replace (x `mod` 2 ^ 64) with (x + 2 ^ 64)
          by (apply Z.mod_unique with (-1); lia).
        rewrite H64, Z.div_add by lia. done.
      + rewrite Z.mod_small by lia. lia.
    - split.
      + apply Z.div_le_lower_bound; lia.
      + apply Z.div_lt_upper_bound; lia.
    - split; intros Hneg.
      + apply Z.div_lt_upper_bound; lia.
      + destruct (decide (x < 0)); [done|].
        assert (0 ≤ x `div` 2 ^ bbits) by (apply Z.div_pos; lia). lia. }
  destruct (Hdiv a Ha) as (-> & Hr & Hn), (Hdiv a' Ha') as (-> & Hr' & Hn').
  assert (2 ^ (64 - bbits) = 2 * 2 ^ (63 - bbits)) as Hp.
  { replace (64 - bbits) with (1 + (63 - bbits)) by lia.
    rewrite Z.pow_add_r by lia. done. }
  repeat destruct (decide _); lia.
Qed.

(** ** Executions, one lookup at a time *)

Lemma simulate_from_app args ls ls' st :
  simulate_from args st (ls ++ ls')
  = st' ← simulate_from args st ls; simulate_from args st' ls'.
Proof.
  revert st. induction ls as [|l ls IH]; intros st; simpl; [done|].
  destruct (access args st _ _ _ _) as [st1|]; simpl; [apply IH|done].
Qed.

Lemma simulate_snoc args ls l :
  simulate args (ls ++ [l])
  = st ← simulate args ls;
    access args st (l_tag l) (l_set l) (l_op l) (l_echo l).
Proof.
  unfold simulate. destruct (start args) as [st0|]; simpl; [|done].
  rewrite simulate_from_app.
  destruct (simulate_from args st0 ls) as [st|]; simpl; [|done].
  by destruct (access args st _ _ _ _).
Qed.

(** Induction along an execution. *)
Lemma simulate_ind args (Q : list lookup → state → Prop) :
  (∀ st, start args = Some st → Q [] st) →
  (∀ ls st l st',
     simulate args ls = Some st → Q ls st →
     access args st (l_tag l) (l_set l) (l_op l) (l_echo l) = Some st' →
     Q (ls ++ [l]) st') →
  ∀ ls st, simulate args ls = Some st → Q ls st.
Proof.
  intros Hstart Hstep ls. induction ls as [|l ls IH] using rev_ind; intros st H.
  - apply Hstart. unfold simulate in H.
    destruct (start args); simpl in H; by simplify_eq.
  - rewrite simulate_snoc in H.
    destruct (simulate args ls) as [st1|] eqn:Hls; simpl in H; [|done].
    eapply Hstep; eauto.
Qed.

(** What a defined [access] did: one survey of the set, or for a Modify
    two, the second on the set the first one left. *)
Lemma access_cases args st t n op echo st' :
  access args st t n op echo = Some st' →
  ∃ s s1 stats1 r1,
    0 ≤ n ∧ st_cache st !! Z.to_nat n = Some s
    ∧ st_clock st' = st_clock st + 1
    ∧ survey_case s (st_stats st) (perset args) t (st_clock st + 1)
                  (policy args) s1 stats1 r1
    ∧ ((op ≠ "M"%char
        ∧ st_cache st' = <[Z.to_nat n := s1]> (st_cache st)
        ∧ st_stats st' = stats1
        ∧ st_out st'
          = st_out st ++ echo
            ++ (if decide (verbose args ≠ 0) then [Result r1; Newline] else []))
       ∨ (op = "M"%char ∧ ∃ s2 r2,
            survey_case s1 stats1 (perset args) t (st_clock st + 1 + 1)
                        (policy args) s2 (st_stats st') r2
            ∧ st_cache st' = <[Z.to_nat n := s2]> (st_cache st)
            ∧ st_out st'
              = st_out st ++ echo
                ++ (if decide (verbose args ≠ 0)
                    then [Result r1; Result r2; Newline] else []))).
Proof.
  intros H. apply access_inv in H as (out & _ & Hc & Hout & H).
  apply cacheSim_inv in H as (s & s1 & stats1 & r1 & Hs & H1 & Hop).
  apply index_Some in Hs as [Hn Hs].
  exists s, s1, stats1, r1. split_and!; try done.
  destruct Hop as [(Hop & -> & -> & ->)|(-> & s2 & r2 & _ & H2 & -> & ->)].
  - left. split_and!; try done. rewrite Hout.
    by destruct (decide (verbose args ≠ 0)).
  - right. split; [done|]. exists s2, r2. split_and!; try done.
    rewrite Hout. by destruct (decide (verbose args ≠ 0)).
Qed.

(** A property of the cache and the counters that every survey keeps is
    kept by every lookup, and holds throughout an execution once it
    holds at the start. *)
Section survey_invariant.

Context (args : arguments) (I : list (list cLine) → cachestats → Prop).

Hypothesis I_survey : ∀ cache stats n s t clock s' stats' r,
  Forall (set_ok (perset args)) cache → cache !! n = Some s →
  I cache stats →
  survey_case s stats (perset args) t clock (policy args) s' stats' r →
  I (<[n := s']> cache) stats'.

Lemma access_invariant st t n op echo st' :
  access args st t n op echo = Some st' →
  Forall (set_ok (perset args)) (st_cache st) →
  I (st_cache st) (st_stats st) → I (st_cache st') (st_stats st').
Proof.
  intros H Hok HI.
  apply access_cases in H
    as (s & s1 & stats1 & r1 & Hn & Hs & _ & H1 & Hop).
  pose proof (I_survey _ _ _ _ _ _ _ _ _ Hok Hs HI H1) as HI1.
  destruct Hop as [(_ & -> & -> & _)|(_ & s2 & r2 & H2 & -> & _)]; [done|].
  rewrite <- (list_insert_insert_eq (st_cache st) (Z.to_nat n) s2 s1).
  eapply I_survey; [| |exact HI1|exact H2].
  - apply Forall_insert; [done|].
    eapply survey_case_set_ok; [done|]. by eapply Forall_lookup_1.
  - apply list_lookup_insert_eq. by eapply lookup_lt_Some.
Qed.

Lemma reachable_invariant :
  (∀ st0, start args = Some st0 → I (st_cache st0) (st_stats st0)) →
  ∀ st, reachable args st → I (st_cache st) (st_stats st).
Proof.
  intros Hstart st [ls H]. revert ls st H.
  apply (simulate_ind args (λ _ st, I (st_cache st) (st_stats st))); [done|].
  intros ls st l st' Hls HI Hacc.
  eapply access_invariant; [done| |done].
  assert (reachable args st) as Hreach by by exists ls.
  by apply reachable_state_inv in Hreach as (_ & _ & _ & Hok & _).
Qed.

End survey_invariant.

Lemma start_cache args st0 :
  start args = Some st0 →
  ∃ sets, int_shl 1 (sbits args) = Some sets
          ∧ st0 = {| st_cache := buildCache (perset args) sets;
                     st_stats := {| miss_count := 0; hit_count := 0;
                                    eviction_count := 0 |};
                     st_clock := 0; st_out := [] |}.
Proof.
  unfold start. intros H.
  destruct (int_shl 1 (sbits args)) as [sets|]; simpl in H; [|done].
  exists sets. by simplify_eq.
Qed.

(** ** Sums over the lines and the sets *)








(** ** More on one survey *)

(** In a set as the surveys leave it, a tag held by a valid line is
    found by the scan. *)
Lemma first_holder (s : list cLine) (t : Z) (j : nat) :
  (∃ i l, (i < j)%nat ∧ s !! i = Some l ∧ valid l ≠ 0 ∧ tag l = t
          ∧ ∀ k lk, (k < i)%nat → s !! k = Some lk →
                    ¬ (valid lk ≠ 0 ∧ tag lk = t))
  ∨ (∀ k lk, (k < j)%nat → s !! k = Some lk → ¬ (valid lk ≠ 0 ∧ tag lk = t)).
Proof.
  induction j as [|j [IH|IH]].
  - right. intros k lk Hk. lia.
  - left. destruct IH as (i & l & Hi & H). exists i, l. split; [lia|done].
  - destruct (s !! j) as [l|] eqn:Hl.
    + destruct (decide (valid l ≠ 0 ∧ tag l = t)) as [[Hv Ht]|Hno].
      * left. exists j, l. split_and!; try done. lia.
      * right. intros k lk Hk Hlk. destruct (decide (k = j)) as [->|].
        -- by simplify_eq.
        -- apply (IH k); [lia|done].
    + right. intros k lk Hk Hlk. destruct (decide (k = j)) as [->|].
      * by simplify_eq.
      * apply (IH k); [lia|done].
Qed.

Lemma holds_resident lines s t :
  set_ok lines s →
  holds lines s t ↔ ∃ i l, s !! i = Some l ∧ valid l ≠ 0 ∧ tag l = t.
Proof.
  intros Hok. split.
  - intros (j & l & _ & _ & Hl & Hv & Ht). eauto.
  - intros (i & l & Hl & Hv & Ht).
    destruct (first_holder s t (S i))
      as [(i0 & l0 & Hi0 & Hl0 & Hv0 & Ht0 & Hmin)|Hno];
      [|destruct (Hno i l); [lia|done..]].
    exists i0, l0. destruct Hok as [Hlen Hok].
    split; [apply lookup_lt_Some in Hl0; lia|]. split; [|done].
    intros k Hk. destruct (lookup_lt_is_Some_2 s k) as [lk Hlk];
      [apply lookup_lt_Some in Hl0; lia|].
    exists lk. split; [done|].
    assert (valid lk ≠ 0) as Hvk.
    { intros Hvk. assert (l0 = singleLine) as ->
        by (eapply (Hok k i0); eauto; lia). done. }
    split; [done|]. intros Htk. apply (Hmin k lk); [lia|done|done].
Qed.

(** The line a survey rewrites ends up valid with the tag looked up,
    and in a set without duplicates no other valid line holds that
    tag. *)
Lemma survey_case_others s stats lines tag' clock policy s' stats' r :
  set_ok lines s → distinct_tags s →
  survey_case s stats lines tag' clock policy s' stats' r →
  ∃ j l l', s !! j = Some l ∧ s' = <[j := l']> s
            ∧ valid l' ≠ 0 ∧ tag l' = tag' ∧ recent l' = clock
            ∧ ∀ k lk, k ≠ j → s !! k = Some lk → valid lk ≠ 0 →
                      tag lk ≠ tag'.
Proof.
  intros [Hlen Hok] Hdis H.
  assert (1 ≤ lines) as H1 by by eapply survey_case_nonempty.
  destruct H as [j l h f Hj Hs Hl Hv Ht Hh Hf|j l m Hj Hs Hl Hv Hm
                |fi l m e Hs Hfi Hl Hm He].
  - exists j, l, (hit_line clock f l). split_and!; try done.
    intros k lk Hk Hlk Hvk Htk. apply Hk. eapply Hdis; eauto. congruence.
  - exists j, l, (fill_line tag' clock l). split_and!; try done.
    intros k lk Hk Hlk Hvk Htk.
    destruct (decide (k < j)%nat) as [Hlt|Hge].
    + destruct (Hs k) as (l0 & Hl0 & _ & Ht0); [lia|]. by simplify_eq.
    + assert (lk = singleLine) as -> by (eapply (Hok j k); eauto; lia). done.
  - assert (fi < Z.to_nat lines)%nat as Hlt
      by (rewrite Hfi; by apply finalIndex_bound).
    destruct (Hs fi) as (l0 & Hl0 & Hv0 & _); [lia|].
    assert (l0 = l) as -> by congruence.
    exists fi, l, (evict_line tag' clock l). split_and!; try done.
    intros k lk Hk Hlk Hvk Htk.
    destruct (Hs k) as (l1 & Hl1 & _ & Ht1);
      [apply lookup_lt_Some in Hlk; lia|]. by simplify_eq.
Qed.

Lemma distinct_tags_insert s j l' :
  distinct_tags s →
  (∀ k lk, k ≠ j → s !! k = Some lk → valid lk ≠ 0 → tag lk ≠ tag l') →
  distinct_tags (<[j := l']> s).
Proof.
  intros Hdis Hoth i k li lk Hi Hk Hvi Hvk Ht.
  apply list_lookup_insert_Some in Hi as [(-> & <- & _)|[Hij Hi]];
    apply list_lookup_insert_Some in Hk as [(-> & <- & _)|[Hkj Hk]];
    try done.
  - exfalso. by eapply (Hoth k lk).
  - exfalso. by eapply (Hoth i li).
  - by eapply Hdis.
Qed.

Lemma survey_case_distinct_tags s stats lines tag' clock policy s' stats' r :
  set_ok lines s → distinct_tags s →
  survey_case s stats lines tag' clock policy s' stats' r →
  distinct_tags s'.
Proof.
  intros Hok Hdis H.
  destruct (survey_case_others _ _ _ _ _ _ _ _ _ Hok Hdis H)
    as (j & l & l' & Hl & -> & _ & Ht & _ & Hoth).
  apply distinct_tags_insert; [done|]. by rewrite Ht.
Qed.

Lemma distinct_tags_replicate_singleLine n :
  distinct_tags (replicate n singleLine).
Proof.
  intros i j li lj Hi _ Hv. by apply lookup_replicate_1 in Hi as [-> _].
Qed.



(** ** Invariants of the cache, continued *)

Lemma reachable_set_ok args st s :
  reachable args st → s ∈ st_cache st → set_ok (perset args) s.
Proof.
  intros Hreach Hs.
  apply reachable_state_inv in Hreach as (_ & _ & _ & Hok & _).
  rewrite Forall_forall in Hok. by apply Hok.
Qed.

Lemma reachable_distinct_tags args st :
  reachable args st → Forall distinct_tags (st_cache st).
Proof.
  apply (reachable_invariant args (λ cache _, Forall distinct_tags cache)).
  - intros cache stats n s t clock s' stats' r Hok Hs Hdis H.
    apply Forall_insert; [done|].
    eapply survey_case_distinct_tags; [| |done]; by eapply Forall_lookup_1.
  - intros st0 Hst. apply start_cache in Hst as (sets & _ & ->). simpl.
    apply Forall_lookup. intros n s Hs. apply buildCache_lookup in Hs as ->.
    apply distinct_tags_replicate_singleLine.
Qed.



(** ** One lookup, seen from the cache *)

Lemma resident_holds args st n t :
  reachable args st →
  resident (st_cache st) n t
  ↔ ∃ s, st_cache st !! n = Some s ∧ holds (perset args) s t.
Proof.
  intros Hreach. split.
  - intros (s & i & l & Hs & Hl & Hv & Ht). exists s. split; [done|].
    eapply holds_resident; [|eauto].
    eapply reachable_set_ok; [done|]. by eapply list_elem_of_lookup_2.
  - intros (s & Hs & j & l & _ & _ & Hl & Hv & Ht). by exists s, j, l.
Qed.

(** The survey of a set that holds the tag only counts a hit. *)
Lemma survey_case_present s stats lines tag' clock policy s' stats' r :
  holds lines s tag' →
  survey_case s stats lines tag' clock policy s' stats' r →
  stats' = count_hit (hit_count stats + 1) stats ∧ holds lines s' tag'.
Proof.
  intros Hholds H.
  destruct (holds_survey_case _ _ _ _ _ _ _ _ _ Hholds H) as (_ & Hh & Hm & He).
  split.
  - destruct stats'. simpl in *. unfold count_hit. by subst.
  - eapply survey_case_holds; [|done].
    destruct Hholds as (j & _ & Hj & _). lia.
Qed.

(** The survey of a set that does not hold the tag counts a miss, and
    an eviction exactly when every line is valid. *)
Lemma survey_case_absent s stats lines tag' clock policy s' stats' r :
  set_ok lines s →
  (∀ i l, s !! i = Some l → valid l ≠ 0 → tag l ≠ tag') →
  survey_case s stats lines tag' clock policy s' stats' r →
  hit_count stats' = hit_count stats
  ∧ miss_count stats' = miss_count stats + 1
  ∧ ((∀ l, l ∈ s → valid l ≠ 0)
     ∧ eviction_count stats' = eviction_count stats + 1
     ∨ (∃ l, l ∈ s ∧ valid l = 0)
       ∧ eviction_count stats' = eviction_count stats).
Proof.
  intros [Hlen Hok] Habs H.
  destruct H as [j l h f Hj Hs Hl Hv Ht Hh Hf|j l m Hj Hs Hl Hv Hm
                |fi l m e Hs Hfi Hl Hm He];
    repeat match goal with
           | H : int_add _ _ = Some _ |- _ => apply int_add_Some in H as [-> _]
           end; simpl.
  - by destruct (Habs j l).
  - split; [done|]. split; [done|]. right. split; [|done].
    exists l. split; [by eapply list_elem_of_lookup_2|done].
  - split; [done|]. split; [done|]. left. split; [|done].
    intros l' Hl'. apply list_elem_of_lookup_1 in Hl' as [k Hk].
    destruct (Hs k) as (l0 & Hl0 & Hv0 & _);
      [apply lookup_lt_Some in Hk; lia|]. by simplify_eq.
Qed.

(** A survey for a tag that the scan finds in line [j] is a hit on
    that line. *)
Lemma survey_case_again s stats lines tag' clock policy j l l1 s2 stats2 r2 :
  (j < Z.to_nat lines)%nat → scanned s tag' 0 j → s !! j = Some l →
  valid l1 ≠ 0 → tag l1 = tag' →
  survey_case (<[j := l1]> s) stats lines tag' clock policy s2 stats2 r2 →
  s2 = <[j := hit_line clock (freq l1 + 1) l1]> s.
Proof.
  intros Hj Hs Hl Hv Ht H2.
  assert (<[j := l1]> s !! j = Some l1) as Hl1
    by (apply list_lookup_insert_eq; by eapply lookup_lt_Some).
  destruct H2 as [j2 l2 h f Hj2 Hs2 Hl2 Hv2 Ht2 Hh Hf|j2 l2 m Hj2 Hs2 Hl2 Hv2 Hm
                 |fi l2 m e Hs2 Hfi Hl2 Hm He].
  - assert (j2 = j) as ->.
    { destruct (Nat.lt_trichotomy j2 j) as [Hlt|[->|Hgt]]; [|done|].
      - rewrite list_lookup_insert_ne in Hl2 by lia.
        destruct (Hs j2) as (l0 & Hl0 & _ & Ht0); [lia|]. by simplify_eq.
      - destruct (Hs2 j) as (l0 & Hl0 & _ & Ht0); [lia|]. by simplify_eq. }
    assert (l2 = l1) as -> by congruence.
    apply long_add_Some in Hf as [-> _].
    by rewrite list_insert_insert_eq.
  - exfalso. destruct (Nat.lt_trichotomy j j2) as [Hlt|[->|Hgt]].
    + destruct (Hs2 j) as (l3 & Hl3 & _ & Ht3); [lia|]. by simplify_eq.
    + by simplify_eq.
    + rewrite list_lookup_insert_ne in Hl2 by lia.
      destruct (Hs j2) as (l3 & Hl3 & Hv3 & _); [lia|]. by simplify_eq.
  - exfalso. destruct (Hs2 j) as (l3 & Hl3 & _ & Ht3); [lia|]. by simplify_eq.
Qed.

(** Two surveys for the same tag in a row rewrite the same line. *)
Lemma survey_case_twice s stats lines tag' clock policy s1 stats1 r1
    clock2 s2 stats2 r2 :
  1 ≤ lines →
  survey_case s stats lines tag' clock policy s1 stats1 r1 →
  survey_case s1 stats1 lines tag' clock2 policy s2 stats2 r2 →
  ∃ j l l1, s !! j = Some l ∧ s1 = <[j := l1]> s
            ∧ valid l1 ≠ 0 ∧ tag l1 = tag'
            ∧ s2 = <[j := hit_line clock2 (freq l1 + 1) l1]> s.
Proof.
  intros Hlines H1 H2.
  apply survey_case_update_scanned in H1
    as (j & l & l1 & Hj & Hs & Hl & -> & _ & Ht & Hv & _); [|done].
  exists j, l, l1. split_and!; try done.
  by eapply survey_case_again.
Qed.

(** A lookup that is not a Modify, computed from its survey. *)
Lemma access_non_modify args st t n op echo s s1 stats1 r1 :
  op ≠ "M"%char → 0 ≤ n → st_cache st !! Z.to_nat n = Some s →
  LONG_MIN ≤ st_clock st + 1 ≤ LONG_MAX →
  survey_case s (st_stats st) (perset args) t (st_clock st + 1)
              (policy args) s1 stats1 r1 →
  r1 ≠ "evict "%string →
  access args st t n op echo
  = Some {| st_cache := <[Z.to_nat n := s1]> (st_cache st);
            st_stats := stats1; st_clock := st_clock st + 1;
            st_out := st_out st ++ echo
                      ++ (if decide (verbose args ≠ 0)
                          then [Result r1] else [])
                      ++ [] ++ (if decide (verbose args ≠ 0)
                                then [Newline] else []) |}.
Proof.
  intros Hop Hn Hs Hc Hsur Hr1. unfold access, cacheSim.
  rewrite long_add_defined by done. simpl.
  assert (index (st_cache st) n = Some s) as -> by by apply index_Some.
  simpl. rewrite (survey_case_surveySet _ _ _ _ _ _ _ _ _ Hsur). simpl.
  apply (survey_case_fits _ _ _ _ _ _ _ _ _ Hsur) in Hr1 as ->. simpl.
  by destruct (decide (op = "M"%char)).
Qed.

(** A Modify, computed from its two surveys. *)
Lemma access_modify args st t n echo s s1 stats1 r1 s2 stats2 r2 :
  0 ≤ n → st_cache st !! Z.to_nat n = Some s →
  LONG_MIN ≤ st_clock st + 1 ≤ LONG_MAX →
  LONG_MIN ≤ st_clock st + 1 + 1 ≤ LONG_MAX →
  survey_case s (st_stats st) (perset args) t (st_clock st + 1)
              (policy args) s1 stats1 r1 →
  survey_case s1 stats1 (perset args) t (st_clock st + 1 + 1)
              (policy args) s2 stats2 r2 →
  r1 ≠ "evict "%string → r2 ≠ "evict "%string →
  access args st t n "M" echo
  = Some {| st_cache := <[Z.to_nat n := s2]> (st_cache st);
            st_stats := stats2; st_clock := st_clock st + 1;
            st_out := st_out st ++ echo
                      ++ (if decide (verbose args ≠ 0)
                          then [Result r1] else [])
                      ++ (if decide (verbose args ≠ 0)
                          then [Result r2] else [])
                      ++ (if decide (verbose args ≠ 0)
                          then [Newline] else []) |}.
Proof.
  intros Hn Hs Hc Hc2 Hsur1 Hsur2 Hr1 Hr2. unfold access, cacheSim.
  rewrite long_add_defined by done. simpl.
  assert (index (st_cache st) n = Some s) as -> by by apply index_Some.
  simpl. rewrite (survey_case_surveySet _ _ _ _ _ _ _ _ _ Hsur1). simpl.
  apply (survey_case_fits _ _ _ _ _ _ _ _ _ Hsur1) in Hr1 as ->. simpl.
  rewrite long_add_defined by done. simpl.
  rewrite (survey_case_surveySet _ _ _ _ _ _ _ _ _ Hsur2). simpl.
  apply (survey_case_fits _ _ _ _ _ _ _ _ _ Hsur2) in Hr2 as ->. simpl.
  by rewrite list_insert_insert_eq.
Qed.

(** The clock range a defined lookup has passed. *)
Lemma access_clock_range args st t n op echo st' :
  access args st t n op echo = Some st' →
  LONG_MIN ≤ st_clock st + 1 ≤ LONG_MAX
  ∧ (op = "M"%char → LONG_MIN ≤ st_clock st + 1 + 1 ≤ LONG_MAX).
Proof.
  intros H. apply access_inv in H as (out & Hc & _ & _ & H). split; [done|].
  intros ->. apply cacheSim_inv in H as (s & s1 & stats1 & r1 & _ & _ & Hop).
  by destruct Hop as [(? & _)|(_ & s2 & r2 & ? & _)].
Qed.

(** The surveys of a defined lookup do not evict. *)
Lemma access_fits args st t n op echo s s1 stats1 r1 :
  is_Some (access args st t n op echo) →
  st_cache st !! Z.to_nat n = Some s →
  survey_case s (st_stats st) (perset args) t (st_clock st + 1)
              (policy args) s1 stats1 r1 →
  r1 ≠ "evict "%string
  ∧ (op = "M"%char → ∀ s2 stats2 r2,
       survey_case s1 stats1 (perset args) t (st_clock st + 1 + 1)
                   (policy args) s2 stats2 r2 →
       r2 ≠ "evict "%string).
Proof.
  intros [st' H] Hs H1.
  apply access_inv in H as (out & Hc & _ & _ & H). unfold cacheSim in H.
  destruct (index (st_cache st) n) as [s0|] eqn:Hs0; simpl in H; [|done].
  apply index_Some in Hs0 as [Hn Hs0]. assert (s0 = s) as -> by congruence.
  rewrite (survey_case_surveySet _ _ _ _ _ _ _ _ _ H1) in H. simpl in H.
  destruct (strcpy_result r1) as [result1|] eqn:Hr1; simpl in H; [|done].
  apply strcpy_result_Some in Hr1 as [-> Hfit1]. split.
  { intros ->. by vm_compute in Hfit1. }
  intros -> s2 stats2 r2 H2. simpl in H.
  destruct (long_add (st_clock st + 1) 1) as [clock'|] eqn:Hc2;
    simpl in H; [|done].
  apply long_add_Some in Hc2 as [-> _].
  rewrite (survey_case_surveySet _ _ _ _ _ _ _ _ _ H2) in H. simpl in H.
  destruct (strcpy_result r2) as [result2|] eqn:Hr2; simpl in H; [|done].
  apply strcpy_result_Some in Hr2 as [-> Hfit2].
  intros ->. by vm_compute in Hfit2.
Qed.

Lemma access_not_scanned args st t n op echo s :
  is_Some (access args st t n op echo) →
  st_cache st !! Z.to_nat n = Some s →
  ¬ scanned s t 0 (Z.to_nat (perset args)).
Proof.
  intros [st' H] Hs.
  apply access_inv in H as (out & _ & _ & _ & H).
  apply (cacheSim_not_scanned (st_cache st) (st_stats st) t n (perset args)
           (st_clock st + 1) op (policy args) (verbose args)); [by eexists|].
  apply cacheSim_inv in H as (s0 & _ & _ & _ & Hs0 & _).
  apply index_Some in Hs0 as [Hn Hs0]. apply index_Some. split; [done|].
  done.
Qed.

(** What a lookup counts, by what the set holds beforehand; afterwards
    the set holds the tag. *)
Lemma access_outcome args st t n op echo st' :
  reachable args st → access args st t n op echo = Some st' →
  (resident (st_cache st) (Z.to_nat n) t →
     hit_count (st_stats st') = hit_count (st_stats st) + sub_accesses [op]
     ∧ miss_count (st_stats st') = miss_count (st_stats st)
     ∧ eviction_count (st_stats st') = eviction_count (st_stats st))
  ∧ (¬ resident (st_cache st) (Z.to_nat n) t →
     hit_count (st_stats st') + 1
     = hit_count (st_stats st) + sub_accesses [op]
     ∧ miss_count (st_stats st') = miss_count (st_stats st) + 1
     ∧ (full (st_cache st) (Z.to_nat n) →
        eviction_count (st_stats st') = eviction_count (st_stats st) + 1)
     ∧ (¬ full (st_cache st) (Z.to_nat n) →
        eviction_count (st_stats st') = eviction_count (st_stats st)))
  ∧ resident (st_cache st') (Z.to_nat n) t.
Proof.
  intros Hreach H.
  apply access_cases in H as (s & s1 & stats1 & r1 & Hn & Hs & Hc & H1 & Hop).
  assert (set_ok (perset args) s) as Hok
    by (eapply reachable_set_ok; [done|]; by eapply list_elem_of_lookup_2).
  assert (1 ≤ perset args) as Hlines
    by (eapply survey_case_nonempty; [done|]; by destruct Hok).
  pose proof (survey_case_holds _ _ _ _ _ _ _ _ _ Hlines H1) as Hholds1.
  assert (∀ sF, holds (perset args) sF t →
            resident (<[Z.to_nat n := sF]> (st_cache st)) (Z.to_nat n) t)
    as Hafter.
  { intros sF (j & l & _ & _ & Hl & Hv & Ht). exists sF, j, l.
    split; [|done]. apply list_lookup_insert_eq. by eapply lookup_lt_Some. }
  assert (full (st_cache st) (Z.to_nat n) ↔ ∀ l, l ∈ s → valid l ≠ 0) as Hfull.
  { split; [intros (s0 & Hs0 & Hall)|intros Hall; by exists s].
    by assert (s0 = s) as -> by congruence. }
  cbn [sub_accesses].
  destruct Hop as [(Hop & -> & -> & _)|(-> & s2 & r2 & H2 & -> & _)].
  - rewrite decide_False by done. split_and!; [| |by apply Hafter].
    + intros Hres. apply (resident_holds _ _ _ _ Hreach) in Hres
        as (s0 & Hs0 & Hholds).
      assert (s0 = s) as -> by congruence.
      destruct (survey_case_present _ _ _ _ _ _ _ _ _ Hholds H1) as [-> _].
      simpl. lia.
    + intros Hno.
      assert (∀ i l, s !! i = Some l → valid l ≠ 0 → tag l ≠ t) as Habs
        by (intros i l Hl Hv Ht; apply Hno; by exists s, i, l).
      destruct (survey_case_absent _ _ _ _ _ _ _ _ _ Hok Habs H1)
        as (Hh & Hm & He).
      rewrite Hfull. split_and!; try lia.
      * intros Hall. destruct He as [[_ ?]|[(l & Hl & Hv) _]]; [done|].
        by destruct (Hall l Hl).
      * intros Hnot. destruct He as [[Hall _]|[_ ?]]; [|done].
        by destruct Hnot.
  - rewrite decide_True by done.
    destruct (survey_case_present _ _ _ _ _ _ _ _ _ Hholds1 H2)
      as [Hst2 Hholds2].
    split_and!; [| |by apply Hafter].
    + intros Hres. apply (resident_holds _ _ _ _ Hreach) in Hres
        as (s0 & Hs0 & Hholds).
      assert (s0 = s) as -> by congruence.
      destruct (survey_case_present _ _ _ _ _ _ _ _ _ Hholds H1) as [-> _].
      rewrite Hst2. simpl. lia.
    + intros Hno.
      assert (∀ i l, s !! i = Some l → valid l ≠ 0 → tag l ≠ t) as Habs
        by (intros i l Hl Hv Ht; apply Hno; by exists s, i, l).
      destruct (survey_case_absent _ _ _ _ _ _ _ _ _ Hok Habs H1)
        as (Hh & Hm & He).
      rewrite Hfull, Hst2. simpl. split_and!; try lia.
      * intros Hall. destruct He as [[_ ?]|[(l & Hl & Hv) _]]; [done|].
        by destruct (Hall l Hl).
      * intros Hnot. destruct He as [[Hall _]|[_ ?]]; [|done].
        by destruct Hnot.
Qed.

(** A lookup rewrites one line of one set. *)
Lemma access_one_line args st t n op echo st' :
  reachable args st → access args st t n op echo = Some st' →
  ∃ s j l l',
    st_cache st !! Z.to_nat n = Some s ∧ s !! j = Some l
    ∧ st_cache st' = <[Z.to_nat n := <[j := l']> s]> (st_cache st)
    ∧ valid l' ≠ 0 ∧ tag l' = t
    ∧ recent l' = st_clock st' + (sub_accesses [op] - 1).
Proof.
  intros Hreach H.
  apply access_cases in H as (s & s1 & stats1 & r1 & Hn & Hs & Hc & H1 & Hop).
  assert (set_ok (perset args) s) as Hok
    by (eapply reachable_set_ok; [done|]; by eapply list_elem_of_lookup_2).
  assert (1 ≤ perset args) as Hlines
    by (eapply survey_case_nonempty; [done|]; by destruct Hok).
  cbn [sub_accesses].
  destruct Hop as [(Hop & -> & _ & _)|(-> & s2 & r2 & H2 & -> & _)].
  - apply survey_case_update_scanned in H1
      as (j & l & l' & _ & _ & Hl & -> & Hr & Ht & Hv & _); [|done].
    exists s, j, l, l'. rewrite decide_False by done. split_and!; try done. lia.
  - destruct (survey_case_twice _ _ _ _ _ _ _ _ _ _ _ _ _ Hlines H1 H2)
      as (j & l & l1 & Hl & _ & Hv & Ht & ->).
    exists s, j, l, (hit_line (st_clock st + 1 + 1) (freq l1 + 1) l1).
    rewrite decide_True by done. split_and!; try done. simpl. lia.
Qed.

(** Every valid line holds a tag that was looked up in its set. *)
Lemma resident_looked_up args ls st n t :
  simulate args ls = Some st → resident (st_cache st) n t →
  ∃ l, l ∈ ls ∧ l_tag l = t ∧ l_set l = Z.of_nat n.
Proof.
  intros H. revert n t. revert ls st H.
  apply (simulate_ind args
           (λ ls st, ∀ n t, resident (st_cache st) n t →
                            ∃ l, l ∈ ls ∧ l_tag l = t ∧ l_set l = Z.of_nat n)).
  - intros st0 Hst n t (s & i & l & Hs & Hl & Hv & _).
    apply start_cache in Hst as (sets & _ & ->). simpl in Hs.
    apply buildCache_lookup in Hs as ->.
    by apply lookup_replicate_1 in Hl as [-> _].
  - intros ls st k st' Hls IH Hacc n t (s' & i & l & Hs' & Hl & Hv & Ht).
    destruct (access_one_line _ _ _ _ _ _ _ (ex_intro _ ls Hls) Hacc)
      as (s & j & l0 & l' & Hs & Hl0 & Hcache & Hv' & Ht' & _).
    apply access_cases in Hacc as (_ & _ & _ & _ & Hn & _).
    rewrite Hcache in Hs'.
    assert (resident (st_cache st) n t
            ∨ (n = Z.to_nat (l_set k) ∧ t = l_tag k)) as [Hold|[-> ->]].
    { apply list_lookup_insert_Some in Hs' as [(Hnk & <- & _)|[_ Hs']].
      - apply list_lookup_insert_Some in Hl as [(_ & Hll & _)|[_ Hl]].
        + right. split; [symmetry; exact Hnk|]. rewrite <- Ht, <- Hll. exact Ht'.
        + left. rewrite <- Hnk. by exists s, i, l.
      - left. by exists s', i, l. }
    + destruct (IH n t Hold) as (l1 & Hl1 & ?). exists l1.
      split; [|done]. apply elem_of_app. by left.
    + exists k. split; [apply elem_of_app; right; by left|].
      split; [done|lia].
Qed.

(** ** What a lookup does not depend on *)

(** [cacheSim] reads the operation only to tell a Modify from the
    rest, and [-v] only to print. *)
Lemma cacheSim_letters cache stats t n lines clock op op' policy verbose verbose' :
  (op' = "M"%char ↔ op = "M"%char) →
  option_Forall2 (λ x y, x.1 = y.1)
    (cacheSim cache stats t n lines clock op policy verbose)
    (cacheSim cache stats t n lines clock op' policy verbose').
Proof.
  intros Hop. unfold cacheSim.
  destruct (index cache n) as [s|]; simpl; [|constructor].
  destruct (surveySet s stats lines t clock policy) as [[[s1 stats1] r1]|];
    simpl; [|constructor].
  destruct (strcpy_result r1) as [result1|]; simpl; [|constructor].
  destruct (decide (op = "M"%char)) as [HM|HM],
           (decide (op' = "M"%char)) as [HM'|HM']; try tauto; simpl.
  - destruct (long_add clock 1) as [clock'|]; simpl; [|constructor].
    destruct (surveySet s1 stats1 lines t clock' policy)
      as [[[s2 stats2] r2]|]; simpl; [|constructor].
    destruct (strcpy_result r2) as [result2|]; simpl; constructor; done.
  - constructor. done.
Qed.

Lemma access_letters args args' st st' t n op op' echo echo' :
  perset args' = perset args → policy args' = policy args →
  agree st st' → (op' = "M"%char ↔ op = "M"%char) →
  option_Forall2 agree (access args st t n op echo)
                       (access args' st' t n op' echo').
Proof.
  intros Hper Hpol (Hcache & Hstats & Hclock) Hop. unfold access.
  rewrite Hper, Hpol, Hcache, Hstats, Hclock.
  destruct (long_add (st_clock st) 1) as [clock|]; simpl; [|constructor].
  pose proof (cacheSim_letters (st_cache st) (st_stats st) t n (perset args)
                clock op op' (policy args) (verbose args) (verbose args') Hop)
    as Hsim.
  destruct Hsim as [[[c1 s1] o1] [[c2 s2] o2] Heq|]; simpl; [|constructor].
  constructor. simpl in Heq. by simplify_eq.
Qed.

Lemma simulate_from_letters args args' ls ls' st st' :
  perset args' = perset args → policy args' = policy args →
  Forall2 same_lookup ls ls' → agree st st' →
  option_Forall2 agree (simulate_from args st ls)
                       (simulate_from args' st' ls').
Proof.
  intros Hper Hpol Hls. revert st st'.
  induction Hls as [|l l' ls ls' (Ht & Hn & Hop) _ IH]; intros st st' Hagree;
    simpl; [by constructor|].
  rewrite Ht, Hn.
  destruct (access_letters args args' st st' (l_tag l) (l_set l)
              (l_op l) (l_op l') (l_echo l) (l_echo l') Hper Hpol Hagree Hop)
    as [st1 st1' Hagree1|]; simpl; [by apply IH|constructor].
Qed.

(** ** The replacement policy *)

(** Only an eviction reads the policy. *)
Lemma survey_case_policy s stats lines t clock policy policy' s' stats' r :
  survey_case s stats lines t clock policy s' stats' r →
  eviction_count stats' = eviction_count stats →
  survey_case s stats lines t clock policy' s' stats' r.
Proof.
  intros [j l h f Hj Hs Hl Hv Ht Hh Hf|j l m Hj Hs Hl Hv Hm
         |fi l m e Hs Hfi Hl Hm He] Hsame.
  - by eapply survey_hit.
  - by eapply survey_miss.
  - apply int_add_Some in He as [-> _]. simpl in Hsame. lia.
Qed.

Lemma access_policy args args' st t n op echo st' :
  perset args' = perset args → verbose args' = verbose args →
  access args st t n op echo = Some st' →
  eviction_count (st_stats st') = eviction_count (st_stats st) →
  access args' st t n op echo = Some st'.
Proof.
  intros Hper Hverb H Hsame.
  pose proof (access_clock_range _ _ _ _ _ _ _ H) as [Hc Hc2].
  pose proof H as Hcases.
  apply access_cases in Hcases
    as (s & s1 & stats1 & r1 & Hn & Hs & Hclock & H1 & Hop).
  destruct (access_fits args st t n op echo s s1 stats1 r1) as [Hr1 Hr2];
    [by eexists|done|done|].
  pose proof (survey_case_stats _ _ _ _ _ _ _ _ _ H1) as Hst1.
  destruct st' as [cache' stats' clock' out']. simpl in *.
  destruct Hop as [(Hop & -> & -> & ->)|(-> & s2 & r2 & H2 & -> & ->)].
  - rewrite (access_non_modify args' st t n op echo s s1 stats1 r1);
      try done.
    + rewrite Hverb, Hclock. simpl. by destruct (decide (verbose args ≠ 0)).
    + rewrite Hper. eapply survey_case_policy; [done|lia].
  - pose proof (survey_case_stats _ _ _ _ _ _ _ _ _ H2) as Hst2.
    rewrite (access_modify args' st t n echo s s1 stats1 r1 s2 stats' r2);
      try done.
    + rewrite Hverb, Hclock. simpl. by destruct (decide (verbose args ≠ 0)).
    + by apply Hc2.
    + rewrite Hper. eapply survey_case_policy; [done|lia].
    + rewrite Hper. eapply survey_case_policy; [done|lia].
    + by eapply Hr2.
Qed.




(** ** Counting along an execution *)

(** A trace line misses at most once. *)
Lemma access_one_miss args st t n op echo st' :
  reachable args st → access args st t n op echo = Some st' →
  miss_count (st_stats st) ≤ miss_count (st_stats st')
                           ≤ miss_count (st_stats st) + 1
  ∧ eviction_count (st_stats st) ≤ eviction_count (st_stats st')
                                 ≤ eviction_count (st_stats st) + 1
  ∧ hit_count (st_stats st) + sub_accesses [op] - 1
    ≤ hit_count (st_stats st').
Proof.
  intros Hreach H.
  apply access_cases in H as (s & s1 & stats1 & r1 & Hn & Hs & Hc & H1 & Hop).
  assert (set_ok (perset args) s) as Hok
    by (eapply reachable_set_ok; [done|]; by eapply list_elem_of_lookup_2).
  assert (1 ≤ perset args) as Hlines
    by (eapply survey_case_nonempty; [done|]; by destruct Hok).
  pose proof (survey_case_holds _ _ _ _ _ _ _ _ _ Hlines H1) as Hholds1.
  pose proof (survey_case_stats _ _ _ _ _ _ _ _ _ H1) as Hst1.
  cbn [sub_accesses].
  destruct Hop as [(Hop & _ & -> & _)|(-> & s2 & r2 & H2 & _)].
  - rewrite decide_False by done. lia.
  - destruct (survey_case_present _ _ _ _ _ _ _ _ _ Hholds1 H2) as [-> _].
    rewrite decide_True by done. simpl. lia.
Qed.

Lemma access_clock args st t n op echo st' :
  access args st t n op echo = Some st' → st_clock st' = st_clock st + 1.
Proof. intros H. by apply access_inv in H as (out & _ & ? & _). Qed.

(** ** Time stamps *)

(** In an execution without a Modify no line is stamped later than the
    clock of [main], and no two valid lines of a set carry the same
    stamp. *)
Lemma reachable_stamps args ls st :
  Forall (λ l, l_op l ≠ "M"%char) ls → simulate args ls = Some st →
  Forall (λ s, distinct_recent s ∧ recent_le (st_clock st) s) (st_cache st).
Proof.
  intros Hls H. revert ls st H Hls.
  apply (simulate_ind args
           (λ ls st, Forall (λ l, l_op l ≠ "M"%char) ls →
                     Forall (λ s, distinct_recent s ∧ recent_le (st_clock st) s)
                            (st_cache st))).
  - intros st0 Hst _. apply start_cache in Hst as (sets & _ & ->). simpl.
    apply Forall_lookup. intros n s Hs. apply buildCache_lookup in Hs as ->.
    split.
    + intros i j li lj Hi _ Hv. by apply lookup_replicate_1 in Hi as [-> _].
    + intros k l Hl. by apply lookup_replicate_1 in Hl as [-> _].
  - intros ls st k st' Hls IH Hacc Hops.
    apply Forall_app in Hops as [Hops Hk]. rewrite Forall_singleton in Hk.
    specialize (IH Hops).
    destruct (access_one_line _ _ _ _ _ _ _ (ex_intro _ ls Hls) Hacc)
      as (s & j & l0 & l' & Hs & Hl0 & -> & Hv' & _ & Hr).
    apply access_clock in Hacc as Hc. cbn [sub_accesses] in Hr.
    rewrite decide_False in Hr by done.
    destruct (Forall_lookup_1 _ _ _ _ IH Hs) as [Hdis Hle].
    apply Forall_insert.
    + eapply Forall_impl; [exact IH|]. intros s0 [? Hle0]. split; [done|].
      eapply recent_le_mono; [|done]. lia.
    + split.
      * intros i1 i2 l1 l2 H1 H2 Hv1 Hv2 Heq.
        apply list_lookup_insert_Some in H1 as [(-> & <- & _)|[Hne1 H1]];
          apply list_lookup_insert_Some in H2 as [(-> & <- & _)|[Hne2 H2]];
          try done.
        -- specialize (Hle _ _ H2). lia.
        -- specialize (Hle _ _ H1). lia.
        -- by eapply Hdis.
      * apply recent_le_insert; [|lia].
        eapply recent_le_mono; [|done]. lia.
Qed.

(** A survey under LRU leaves alone a valid line that holds another tag
    and is not the only one used last. *)
Lemma survey_case_keeps s stats lines t clock s' stats' r j l :
  length s = Z.to_nat lines → recent_le clock s →
  survey_case s stats lines t clock LRU s' stats' r →
  s !! j = Some l → valid l ≠ 0 → tag l ≠ t →
  (∃ k lk, k ≠ j ∧ s !! k = Some lk ∧ recent lk < recent l) →
  s' !! j = Some l.
Proof.
  intros Hlen Hle H Hl Hv Ht (k & lk & Hk & Hlk & Hlt).
  destruct H as [j2 l2 h f Hj2 Hs2 Hl2 Hv2 Ht2 Hh Hf|j2 l2 m Hj2 Hs2 Hl2 Hv2 Hm
                |fi l2 m e Hs2 Hfi Hl2 Hm He].
  - rewrite list_lookup_insert_ne; [done|]. intros ->. by simplify_eq.
  - rewrite list_lookup_insert_ne; [done|]. intros ->. by simplify_eq.
  - rewrite list_lookup_insert_ne; [done|]. intros ->.
    unfold finalIndex in *. rewrite decide_True in * by done.
    destruct (track_is_LRU s lines clock Hlen Hle) as (l0 & Hl0 & Hmin & _).
    { rewrite <- Hfi. by eexists. }
    rewrite <- Hfi in Hl0. assert (l0 = l) as -> by congruence.
    specialize (Hmin k lk Hlk). lia.
Qed.

(** ** What is printed under [-v] *)











(** ** The trace file *)

Lemma reachable_access args st t n op echo st' :
  reachable args st → access args st t n op echo = Some st' →
  reachable args st'.
Proof.
  intros [ls Hls] H.
  exists (ls ++ [{| l_tag := t; l_set := n; l_op := op; l_echo := echo |}]).
  rewrite simulate_snoc, Hls. done.
Qed.

Lemma replay_line_access args st r st' :
  replay_line args st r = Some st' →
  ∃ t n, findTag (address r) (sbits args) (bbits args) = Some t
         ∧ findSet (address r) (sbits args) (bbits args) = Some n
         ∧ access args st t n (operation r)
                  (if decide (verbose args ≠ 0)
                   then [Echo (operation r) (address r) (bytes r)] else [])
           = Some st'.
Proof.
  unfold replay_line. intros H.
  destruct (findTag _ _ _) as [t|]; simpl in H; [|done].
  destruct (findSet _ _ _) as [n|]; simpl in H; [|done].
  by exists t, n.
Qed.

(** After a line of the file was simulated, the cache holds the block
    of the address that [sscanf] left in [address]. *)
Lemma main_loop_inv args file m m' :
  main_loop args m file = Some m' →
  reachable args m.1 →
  (is_Some (v_operation m.2) →
   ∃ t n, findTag (v_address m.2) (sbits args) (bbits args) = Some t
          ∧ findSet (v_address m.2) (sbits args) (bbits args) = Some n
          ∧ resident (st_cache m.1) (Z.to_nat n) t) →
  reachable args m'.1
  ∧ (is_Some (v_operation m'.2) →
     ∃ t n, findTag (v_address m'.2) (sbits args) (bbits args) = Some t
            ∧ findSet (v_address m'.2) (sbits args) (bbits args) = Some n
            ∧ resident (st_cache m'.1) (Z.to_nat n) t).
Proof.
  revert m. induction file as [|l file IH]; intros m H Hreach Hres; simpl in H.
  - by simplify_eq.
  - destruct (main_line args m l) as [m1|] eqn:Hline; simpl in H; [|done].
    apply (IH m1 H); unfold main_line in Hline;
      destruct (decide (first_char l = " "%char)); simplify_eq; try done;
      destruct (v_operation (sscanf m.2 (scanned_as l))) as [op|];
      simpl in Hline; try done;
      destruct (replay_line args m.1 _) as [st'|] eqn:Hrep;
      simpl in Hline; try done; simplify_eq; simpl;
      apply replay_line_access in Hrep as (t & n & Ht & Hn & Hacc); simpl in *.
    + by eapply reachable_access.
    + intros _. exists t, n. split; [done|]. split; [done|].
      by eapply access_outcome.
Qed.

Lemma main_run_inv args file st v :
  main_run args file = Some (st, v) →
  reachable args st
  ∧ (is_Some (v_operation v) →
     ∃ t n, findTag (v_address v) (sbits args) (bbits args) = Some t
            ∧ findSet (v_address v) (sbits args) (bbits args) = Some n
            ∧ resident (st_cache st) (Z.to_nat n) t).
Proof.
  unfold main_run. intros H.
  destruct (start args) as [st0|] eqn:Hst; simpl in H; [|done].
  apply (main_loop_inv _ _ _ _ H); simpl.
  - exists []. unfold simulate. by rewrite Hst.
  - by intros [? ?].
Qed.

(** On a file whose blank-led lines are all read in full, the loop is
    the replay of the records of those lines. *)
Lemma main_loop_replay args file st v :
  Forall well_formed file →
  fst <$> main_loop args (st, v) file
  = replay_from args st (omap trace_record file).
Proof.
  intros Hfile. revert st v.
  induction Hfile as [|l file Hl _ IH]; intros st v; simpl; [done|].
  unfold main_line, trace_record, well_formed in *.
  destruct (decide (first_char l = " "%char)) as [Hb|Hb]; simpl; [|apply IH].
  destruct (Hl Hb) as (op & addr & count & ->). simpl.
  destruct (replay_line args st _) as [st'|]; simpl; [apply IH|done].
Qed.

(** ** The number of sets *)

Lemma int_shl_1 s : 0 ≤ s ≤ 30 → int_shl 1 s = Some (2 ^ s).
Proof.
  intros Hs. unfold int_shl. rewrite decide_True by lia. f_equal.
  rewrite Z.shiftl_1_l. unfold int_of_Z, wrap.
  assert (0 < 2 ^ s ≤ 2 ^ 30) as Hp
    by (split; [apply Z.pow_pos_nonneg|apply Z.pow_le_mono_r]; lia).
  change (2 ^ (32 - 1)) with (2 * 2 ^ 30).
  change (2 ^ 32) with (4 * 2 ^ 30).
  rewrite Z.mod_small by lia. lia.
Qed.

Lemma reachable_length args st :
  0 ≤ sbits args ≤ 30 → reachable args st →
  length (st_cache st) = Z.to_nat (2 ^ sbits args).
Proof.
  intros Hs.
  apply (reachable_invariant args
           (λ cache _, length cache = Z.to_nat (2 ^ sbits args))).
  - intros cache stats n s t clock s' stats' r _ _ Hlen _.
    by rewrite length_insert.
  - intros st0 Hst. apply start_cache in Hst as (sets & Hsets & ->).
    rewrite int_shl_1 in Hsets by done. simplify_eq. simpl.
    unfold buildCache. by rewrite length_replicate.
Qed.

(** Without a line to put a tag in, or with a number of sets that is
    not positive, the first lookup is already undefined. *)
Lemma access_no_lines args st t n op echo :
  perset args ≤ 0 →
  Forall (λ s, length s = Z.to_nat (perset args)) (st_cache st) →
  access args st t n op echo = None.
Proof.
  intros Hper Hlen. unfold access, cacheSim.
  destruct (long_add (st_clock st) 1) as [clock|]; simpl; [|done].
  destruct (index (st_cache st) n) as [s|] eqn:Hs; simpl; [|done].
  apply index_Some in Hs as [_ Hs].
  pose proof (Forall_lookup_1 _ _ _ _ Hlen Hs) as Hlens.
  replace (Z.to_nat (perset args)) with 0%nat in Hlens by lia.
  apply nil_length_inv in Hlens as ->.
  unfold surveySet. replace (Z.to_nat (perset args)) with 0%nat by lia.
  done.
Qed.


(** ** The [freq] of the line a lookup rewrites *)

(** A hit adds one to the [freq] of its line; a line that is filled or
    taken over starts again from 0. *)
Lemma survey_case_freq s stats lines t clock policy s' stats' r :
  set_ok lines s →
  survey_case s stats lines t clock policy s' stats' r →
  ∃ j l l', (j < Z.to_nat lines)%nat ∧ scanned s t 0 j
            ∧ s !! j = Some l ∧ s' = <[j := l']> s
            ∧ valid l' ≠ 0 ∧ tag l' = t
            ∧ (valid l ≠ 0 ∧ tag l = t → freq l' = freq l + 1)
            ∧ (¬ (valid l ≠ 0 ∧ tag l = t) → freq l' = 0).
Proof.
  intros Hok H. pose proof Hok as [Hlen _].
  assert (1 ≤ lines) as H1 by by eapply survey_case_nonempty.
  destruct H as [j l h f Hj Hs Hl Hv Ht Hh Hf|j l m Hj Hs Hl Hv Hm
                |fi l m e Hs Hfi Hl Hm He].
  - apply long_add_Some in Hf as [-> _].
    exists j, l, (hit_line clock (freq l + 1) l). split_and!; try done.
    intros Hno. by destruct Hno.
  - pose proof (set_ok_empty_line _ _ _ _ Hok Hl Hv) as ->.
    exists j, singleLine, (fill_line t clock singleLine).
    split_and!; try done. by intros [? _].
  - assert (fi < Z.to_nat lines)%nat as Hlt
      by (rewrite Hfi; by apply finalIndex_bound).
    destruct (Hs fi) as (l0 & Hl0 & Hv0 & Ht0); [lia|].
    assert (l0 = l) as -> by congruence.
    exists fi, l, (evict_line t clock l). split_and!; try done.
    + intros k Hk. apply Hs. lia.
    + by intros [_ ?].
Qed.

Lemma access_freq args st t n op echo st' :
  reachable args st → access args st t n op echo = Some st' →
  ∃ s j l l',
    st_cache st !! Z.to_nat n = Some s ∧ s !! j = Some l
    ∧ st_cache st' = <[Z.to_nat n := <[j := l']> s]> (st_cache st)
    ∧ (valid l ≠ 0 ∧ tag l = t → freq l' = freq l + sub_accesses [op])
    ∧ (¬ (valid l ≠ 0 ∧ tag l = t) → freq l' = sub_accesses [op] - 1).
Proof.
  intros Hreach H.
  apply access_cases in H as (s & s1 & stats1 & r1 & Hn & Hs & Hc & H1 & Hop).
  assert (set_ok (perset args) s) as Hok
    by (eapply reachable_set_ok; [done|]; by eapply list_elem_of_lookup_2).
  cbn [sub_accesses].
  destruct (survey_case_freq _ _ _ _ _ _ _ _ _ Hok H1)
    as (j & l & l' & Hj & Hsc & Hl & -> & Hv & Ht & Hhit & Hmiss).
  destruct Hop as [(Hop & -> & _ & _)|(-> & s2 & r2 & H2 & -> & _)].
  - exists s, j, l, l'. rewrite decide_False by done.
    split; [done|]. split; [done|]. split; [done|]. split.
    + intros Hheld. rewrite (Hhit Hheld). lia.
    + intros Hno. rewrite (Hmiss Hno). lia.
  - rewrite (survey_case_again _ _ _ _ _ _ _ _ _ _ _ _ Hj Hsc Hl Hv Ht H2).
    exists s, j, l, (hit_line (st_clock st + 1 + 1) (freq l' + 1) l').
    rewrite decide_True by done.
    split; [done|]. split; [done|]. split; [done|]. simpl. split.
    + intros Hheld. rewrite (Hhit Hheld). lia.
    + intros Hno. rewrite (Hmiss Hno). lia.
Qed.

(** ** The command line *)

Lemma process_loop_app atoi c gs gs' c' :
  Forall (λ g, g_value g ≠ -1) gs →
  process_loop atoi c gs = Some (Returned c') →
  process_loop atoi c (gs ++ gs') = process_loop atoi c' gs'.
Proof.
  intros Hgs. revert c. induction Hgs as [|g gs Hg _ IH]; intros c H; simpl in *.
  - by simplify_eq.
  - rewrite decide_False in * by done.
    destruct (process_option atoi c g) as [[c1|]|]; simpl in *; try done.
    by apply IH.
Qed.

(** What one return of [getopt_long] does to the arguments: a return
    for a numeric option sets its field to what [atoi] makes of
    [optarg], and every return leaves the other numeric fields alone. *)
Lemma process_option_fields atoi c g c' :
  process_option atoi c g = Some (Returned c') →
  let field v proj :=
    if decide (g_value g = v)
    then (text ← g_optarg g; atoi text) = Some (proj (c_args c'))
    else proj (c_args c') = proj (c_args c) in
  field (char_code "s") sbits ∧ field (char_code "E") perset
  ∧ field (char_code "b") bbits ∧ field (char_code "p") policy.
Proof.
  unfold process_option, numeric_option. intros H. cbv zeta.
  repeat match type of H with
         | context [decide (g_value g = ?v)] =>
           destruct (decide (g_value g = v)) as [Heq|?];
           [rewrite Heq in *|]
         end;
    repeat match type of H with
           | context [long_options !! ?i] =>
             destruct (long_options !! i) as [[? ? [[]|] ?]|]; simpl in H
           | context [g_optarg g] =>
             destruct (g_optarg g) as [?|]; simpl in *
           | context [atoi ?t] =>
             destruct (atoi t) as [?|]; simpl in H
           | context [decide (strcpy_bytes ?t ≤ MAXFILE)] =>
             destruct (decide (strcpy_bytes t ≤ MAXFILE))
           end;
    simplify_eq; simpl;
    repeat match goal with
           | |- context [decide (?a = ?b)] =>
             destruct (decide (a = b)) as [Heq'|?];
             [try (by vm_compute in Heq')|]
           end;
    try done.
Qed.


(** The field of an option ends up as its last return set it. *)
Lemma process_loop_last atoi (proj : arguments → Z) (v : Z) :
  (∀ c g c', process_option atoi c g = Some (Returned c') →
     if decide (g_value g = v)
     then (text ← g_optarg g; atoi text) = Some (proj (c_args c'))
     else proj (c_args c') = proj (c_args c)) →
  ∀ gs c c',
    Forall (λ g, g_value g ≠ -1) gs →
    process_loop atoi c gs = Some (Returned c') →
    Some (proj (c_args c')) = last_setting atoi v (proj (c_args c)) gs.
Proof.
  intros Hopt gs c c' Hgs. revert c.
  induction Hgs as [|g gs Hg _ IH]; intros c H; simpl in H.
  - by simplify_eq.
  - rewrite decide_False in H by done.
    destruct (process_option atoi c g) as [[c1|]|] eqn:Hg1; simpl in H;
      try done.
    specialize (IH c1 H). specialize (Hopt c g c1 Hg1).
    unfold last_setting in *.
    destruct (decide (g_value g = v)) as [Hv|Hv].
    + rewrite filter_cons_True by done. rewrite last_cons.
      destruct (last (filter _ gs)) as [g'|]; [done|]. congruence.
    + rewrite filter_cons_False by done. by rewrite <- Hopt.
Qed.

(** ** Runs that need no eviction *)

Lemma tags_in_elem n ls t :
  t ∈ tags_in n ls ↔ ∃ l, l ∈ ls ∧ l_tag l = t ∧ l_set l = n.
Proof.
  unfold tags_in. rewrite elem_of_remove_dups, list_elem_of_fmap. split.
  - intros (l & -> & Hl). apply list_elem_of_filter in Hl as [Hn Hl].
    by exists l.
  - intros (l & Hl & <- & Hn). exists l. split; [done|].
    by apply list_elem_of_filter.
Qed.

Lemma tags_in_mono n ls ls' :
  (∀ l, l ∈ ls → l ∈ ls') →
  (length (tags_in n ls) ≤ length (tags_in n ls'))%nat.
Proof.
  intros Hsub. apply submseteq_length, NoDup_submseteq.
  - apply NoDup_remove_dups.
  - intros t Ht. apply tags_in_elem in Ht as (l & Hl & Ht & Hn).
    apply tags_in_elem. exists l. auto.
Qed.

Lemma fits_app args ls ls' : fits args (ls ++ ls') → fits args ls.
Proof.
  unfold fits. intros H. apply Forall_app in H as [H _].
  eapply Forall_impl; [exact H|]. intros l Hl. simpl in Hl.
  pose proof (tags_in_mono (l_set l) ls (ls ++ ls')) as Hmono.
  assert (length (tags_in (l_set l) ls)
          ≤ length (tags_in (l_set l) (ls ++ ls')))%nat
    by (apply Hmono; intros x Hx; apply elem_of_app; by left).
  lia.
Qed.

(** A set whose lines are all valid and hold other tags than [t] holds
    [perset] distinct tags that were looked up in it: with [t] that is
    more than the set has lines. *)
Lemma full_set_tags args ls st n s t ls' :
  simulate args ls = Some st → 0 ≤ n →
  st_cache st !! Z.to_nat n = Some s →
  scanned s t 0 (Z.to_nat (perset args)) →
  (∀ l, l ∈ ls → l ∈ ls') →
  (∃ l, l ∈ ls' ∧ l_tag l = t ∧ l_set l = n) →
  perset args < Z.of_nat (length (tags_in n ls')).
Proof.
  intros Hls Hn Hs Hsc Hsub Hnew.
  assert (reachable args st) as Hreach by by exists ls.
  pose proof (reachable_distinct_tags args st Hreach) as Hdis.
  pose proof (Forall_lookup_1 _ _ _ _ Hdis Hs) as Hdiss.
  destruct (reachable_set_ok args st s Hreach) as [Hlen _];
    [by eapply list_elem_of_lookup_2|].
  assert (NoDup (t :: (tag <$> s))) as Hnodup.
  { apply NoDup_cons. split.
    - intros Hin. apply list_elem_of_fmap in Hin as (x & Hx & Hxs).
      apply list_elem_of_lookup_1 in Hxs as [k Hk].
      destruct (Hsc k) as (x' & Hx' & _ & Htx);
        [apply lookup_lt_Some in Hk; lia|].
      by simplify_eq.
    - apply NoDup_alt. intros i j x Hi Hj.
      rewrite list_lookup_fmap in Hi, Hj.
      destruct (s !! i) as [li|] eqn:Hli; simplify_eq/=.
      destruct (s !! j) as [lj|] eqn:Hlj; simplify_eq/=.
      destruct (Hsc i) as (x' & Hx' & Hvi & _);
        [apply lookup_lt_Some in Hli; lia|].
      destruct (Hsc j) as (y' & Hy' & Hvj & _);
        [apply lookup_lt_Some in Hlj; lia|].
      simplify_eq. by eapply Hdiss. }
  assert (t :: (tag <$> s) ⊆+ tags_in n ls') as Hsubm.
  { apply NoDup_submseteq; [done|]. intros x Hx. apply tags_in_elem.
    apply elem_of_cons in Hx as [->|Hx]; [done|].
    apply list_elem_of_fmap in Hx as (lx & -> & Hlx).
    apply list_elem_of_lookup_1 in Hlx as [i Hi].
    destruct (Hsc i) as (x' & Hx' & Hvx & _);
      [apply lookup_lt_Some in Hi; lia|].
    assert (x' = lx) as -> by congruence.
    destruct (resident_looked_up args ls st (Z.to_nat n) (tag lx) Hls)
      as (k & Hk & Htk & Hsk); [by exists s, i, lx|].
    exists k. split; [by apply Hsub|]. split; [done|lia]. }
  apply submseteq_length in Hsubm. simpl in Hsubm.
  rewrite length_fmap in Hsubm. lia.
Qed.

(** A survey that does not evict leaves every valid line its tag. *)
Lemma survey_case_stays s stats lines tag' clock policy s' stats' r i l :
  survey_case s stats lines tag' clock policy s' stats' r →
  r ≠ "evict "%string →
  s !! i = Some l → valid l ≠ 0 →
  ∃ l', s' !! i = Some l' ∧ valid l' ≠ 0 ∧ tag l' = tag l.
Proof.
  intros [j l0 h f Hj Hs Hl0 Hv0 Ht Hh Hf|j l0 m Hj Hs Hl0 Hv0 Hm
         |fi l0 m e Hs Hfi Hl0 Hm He] Hr Hl Hv; [| |done].
  - destruct (decide (i = j)) as [->|Hne].
    + assert (l0 = l) as -> by congruence. exists (hit_line clock f l).
      split; [|done]. apply list_lookup_insert_eq. by eapply lookup_lt_Some.
    + exists l. by rewrite list_lookup_insert_ne.
  - destruct (decide (i = j)) as [->|Hne].
    + assert (l0 = l) as -> by congruence. done.
    + exists l. by rewrite list_lookup_insert_ne.
Qed.

(** So does a defined lookup: what is resident stays resident. *)
Lemma access_stays args st t n op echo st' m u :
  access args st t n op echo = Some st' →
  resident (st_cache st) m u → resident (st_cache st') m u.
Proof.
  intros H (s0 & i & l & Hs0 & Hl & Hv & Ht).
  pose proof H as Hc.
  apply access_cases in Hc as (s & s1 & stats1 & r1 & Hn & Hs & _ & H1 & Hop).
  destruct (access_fits args st t n op echo s s1 stats1 r1) as [Hr1 Hr2];
    [by eexists|done|done|].
  assert (∀ sF, (∀ i l, s !! i = Some l → valid l ≠ 0 →
                        ∃ l', sF !! i = Some l' ∧ valid l' ≠ 0
                              ∧ tag l' = tag l) →
            resident (<[Z.to_nat n := sF]> (st_cache st)) m u) as Hput.
  { intros sF HsF. destruct (decide (m = Z.to_nat n)) as [->|Hne].
    - assert (s0 = s) as -> by congruence.
      destruct (HsF i l Hl Hv) as (l' & Hl' & Hv' & Ht').
      exists sF, i, l'. split; [|split; [done|split; [done|congruence]]].
      apply list_lookup_insert_eq. by eapply lookup_lt_Some.
    - exists s0, i, l. by rewrite list_lookup_insert_ne. }
  destruct Hop as [(_ & -> & _)|(Hop & s2 & r2 & H2 & -> & _)]; apply Hput.
  - intros k lk Hlk Hvk. by eapply survey_case_stays.
  - intros k lk Hlk Hvk.
    destruct (survey_case_stays _ _ _ _ _ _ _ _ _ _ _ H1 Hr1 Hlk Hvk)
      as (l1 & Hl1 & Hv1 & Ht1).
    destruct (survey_case_stays _ _ _ _ _ _ _ _ _ _ _ H2
                (Hr2 Hop _ _ _ H2) Hl1 Hv1) as (l2 & Hl2 & Hv2 & Ht2).
    exists l2. split; [done|]. split; [done|congruence].
Qed.

(** In a defined run every tag that was looked up is still resident. *)
Lemma looked_up_resident args ls st l :
  simulate args ls = Some st → l ∈ ls →
  0 ≤ l_set l ∧ resident (st_cache st) (Z.to_nat (l_set l)) (l_tag l).
Proof.
  intros H. revert l. revert ls st H.
  apply (simulate_ind args
           (λ ls st, ∀ l, l ∈ ls →
              0 ≤ l_set l
              ∧ resident (st_cache st) (Z.to_nat (l_set l)) (l_tag l))).
  - intros st0 _ l Hl. by apply elem_of_nil in Hl.
  - intros ls st k st' Hls IH Hacc l Hl.
    apply elem_of_app in Hl as [Hl|Hl].
    + destruct (IH l Hl) as [Hn Hres]. split; [done|]. by eapply access_stays.
    + apply list_elem_of_singleton in Hl as ->. split.
      * by apply access_cases in Hacc as (_ & _ & _ & _ & Hn & _).
      * eapply access_outcome; [by exists ls|done].
Qed.

(** A defined run has looked up no set for more tags than it has
    lines. *)
Lemma simulate_fits args ls st :
  simulate args ls = Some st → fits args ls.
Proof.
  intros Hls. unfold fits. apply Forall_forall. intros l Hl.
  destruct (looked_up_resident args ls st l Hls Hl)
    as [Hn (s & i & li & Hs & Hli & _)].
  assert (reachable args st) as Hreach by by exists ls.
  destruct (reachable_set_ok args st s Hreach) as [Hlen _];
    [by eapply list_elem_of_lookup_2|].
  enough (length (tags_in (l_set l) ls) ≤ length s)%nat
    by (apply lookup_lt_Some in Hli; lia).
  rewrite <- (length_fmap tag s).
  apply submseteq_length, NoDup_submseteq; [apply NoDup_remove_dups|].
  intros t Ht. apply tags_in_elem in Ht as (k & Hk & <- & Hset).
  destruct (looked_up_resident args ls st k Hls Hk)
    as [_ (s' & i' & l' & Hs' & Hl' & _ & <-)].
  rewrite Hset, Hs in Hs'. injection Hs' as <-.
  apply list_elem_of_fmap. exists l'. split; [done|].
  by eapply list_elem_of_lookup_2.
Qed.

(** With at least one line per set, at most 30 set bits and every set
    number below [2^sbits], a run of up to [INT_MAX / 2] records that
    looks up no set for more tags than it has lines is defined. *)
Lemma simulate_room args ls :
  1 ≤ perset args → 0 ≤ sbits args ≤ 30 →
  Forall (λ l, 0 ≤ l_set l < 2 ^ sbits args) ls → fits args ls →
  ∀ k, 0 ≤ k → 2 * Z.of_nat (length ls) + k ≤ INT_MAX →
  ∃ st, simulate args ls = Some st ∧ room args k st.
Proof.
  intros Hper Hs.
  induction ls as [|l ls IH] using rev_ind; intros Hls Hfits k Hk Hlen.
  - destruct (start_room args k) as (st & Hst & Hroom);
      [done|simpl in Hlen; lia|].
    exists st. unfold simulate. by rewrite Hst.
  - apply Forall_app in Hls as [Hls Hl]. rewrite Forall_singleton in Hl.
    rewrite length_app in Hlen. simpl in Hlen.
    destruct (IH Hls (fits_app _ _ _ Hfits) (k + 2))
      as (st & Hsim & Hroom); [lia|lia|].
    destruct (access_room args k st (l_tag l) (l_set l) (l_op l) (l_echo l))
      as (st' & Hacc & Hroom'); [done|done|done|done| |].
    { intros s Hs' Hall. apply index_Some in Hs' as [Hn Hs'].
      assert (l ∈ ls ++ [l]) as Hin by (apply elem_of_app; right; by left).
      pose proof (full_set_tags args ls st (l_set l) s (l_tag l) (ls ++ [l])
                    Hsim Hn Hs' Hall) as Hmany.
      unfold fits in Hfits. rewrite Forall_forall in Hfits.
      specialize (Hfits l Hin). simpl in Hfits.
      assert (perset args
              < Z.of_nat (length (tags_in (l_set l) (ls ++ [l])))); [|lia].
      apply Hmany; [|by exists l].
      intros x Hx. apply elem_of_app. by left. }
    exists st'. split; [|done]. by rewrite simulate_snoc, Hsim.
Qed.

Lemma simulate_defined args ls :
  1 ≤ perset args → 0 ≤ sbits args ≤ 30 →
  Forall (λ l, 0 ≤ l_set l < 2 ^ sbits args) ls →
  2 * Z.of_nat (length ls) ≤ INT_MAX →
  is_Some (simulate args ls) ↔ fits args ls.
Proof.
  intros Hper Hs Hls Hlen. split.
  - intros [st H]. by eapply simulate_fits.
  - intros Hfits.
    destruct (simulate_room args ls Hper Hs Hls Hfits 0) as (st & H & _);
      [done|lia|].
    by exists st.
Qed.

(** The replay is the simulation of the decoded records. *)
Lemma replay_line_decode args st r :
  replay_line args st r
  = l ← decode args r; access args st (l_tag l) (l_set l) (l_op l) (l_echo l).
Proof.
  unfold replay_line, decode.
  destruct (findTag _ _ _) as [t|]; simpl; [|done].
  by destruct (findSet _ _ _) as [n|].
Qed.

Lemma replay_from_decode args trace st :
  replay_from args st trace
  = ls ← mapM (decode args) trace; simulate_from args st ls.
Proof.
  revert st. induction trace as [|r trace IH]; intros st; simpl; [done|].
  rewrite replay_line_decode.
  destruct (decode args r) as [l|]; simpl; [|done].
  destruct (access args st _ _ _ _) as [st1|] eqn:Hacc; simpl.
  - rewrite IH. destruct (mapM (decode args) trace) as [ls|]; simpl; [|done].
    by rewrite Hacc.
  - destruct (mapM (decode args) trace) as [ls|]; simpl; [|done].
    by rewrite Hacc.
Qed.

Lemma replay_decode args trace :
  replay args trace = ls ← mapM (decode args) trace; simulate args ls.
Proof.
  unfold replay, simulate. destruct (start args) as [st0|]; simpl.
  - apply replay_from_decode.
  - by destruct (mapM (decode args) trace).
Qed.

(** Where [findTag] is defined, every record is decoded. *)
Lemma decode_defined args trace :
  0 ≤ sbits args < 32 → 0 ≤ bbits args →
  32 < sbits args + bbits args < 64 →
  ∃ ls, mapM (decode args) trace = Some ls
        ∧ length ls = length trace
        ∧ Forall (λ l, 0 ≤ l_set l < 2 ^ sbits args) ls.
Proof.
  intros Hs Hb Hsb. induction trace as [|r trace (ls & Hls & Hlen & Hset)].
  - by exists [].
  - destruct (decode_block (address r) (sbits args) (bbits args) Hs Hb Hsb)
      as (t & n & Ht & Hn & _ & Hrange & _).
    assert (decode args r
            = Some {| l_tag := t; l_set := n; l_op := operation r;
                      l_echo := if decide (verbose args ≠ 0)
                                then [Echo (operation r) (address r) (bytes r)]
                                else [] |}) as Hr
      by (unfold decode; by rewrite Ht, Hn).
    eexists (_ :: ls). simpl. rewrite Hr. simpl.
    rewrite Hls. simpl. split; [reflexivity|]. split; [by rewrite Hlen|].
    by constructor.
Qed.

(** ** The text a survey reports *)


(** A survey that does not report an eviction counts none. *)
Lemma survey_case_no_eviction s stats lines t clock policy s' stats' r :
  survey_case s stats lines t clock policy s' stats' r →
  r ≠ "evict "%string → eviction_count stats' = eviction_count stats.
Proof. by intros [| |]. Qed.

(** ** The line used last *)

(** After a trace line of a run without a Modify, the line it rewrote is
    valid, holds its tag and carries a later stamp than some other line
    of its set. *)
Lemma just_used_line args ls l1 st1 :
  2 ≤ perset args → Forall (λ l, l_op l ≠ "M"%char) (ls ++ [l1]) →
  simulate args (ls ++ [l1]) = Some st1 →
  ∃ sA j l',
    st_cache st1 !! Z.to_nat (l_set l1) = Some sA ∧ sA !! j = Some l'
    ∧ valid l' ≠ 0 ∧ tag l' = l_tag l1
    ∧ length sA = Z.to_nat (perset args)
    ∧ recent_le (st_clock st1 + 1) sA
    ∧ ∃ k lk, k ≠ j ∧ sA !! k = Some lk ∧ recent lk < recent l'.
Proof.
  intros Hper Hops Hls1. pose proof Hls1 as Hacc1.
  rewrite simulate_snoc in Hacc1.
  destruct (simulate args ls) as [st|] eqn:Hls; simpl in Hacc1; [|done].
  apply Forall_app in Hops as [Hops Hop1]. rewrite Forall_singleton in Hop1.
  assert (reachable args st) as Hreach by by exists ls.
  assert (reachable args st1) as Hreach1 by by exists (ls ++ [l1]).
  pose proof (reachable_stamps args ls st Hops Hls) as Hstamps.
  destruct (access_one_line _ _ _ _ _ _ _ Hreach Hacc1)
    as (s & j & l & l' & Hs & Hl & Hcache1 & Hv & Ht & Hr).
  apply access_clock in Hacc1 as Hclock1.
  cbn [sub_accesses] in Hr. rewrite decide_False in Hr by done.
  set (n1 := Z.to_nat (l_set l1)) in *.
  set (sA := <[j := l']> s) in *.
  assert (sA !! j = Some l') as HlA
    by (apply list_lookup_insert_eq; by eapply lookup_lt_Some).
  assert (st_cache st1 !! n1 = Some sA) as HsA
    by (rewrite Hcache1; apply list_lookup_insert_eq; by eapply lookup_lt_Some).
  destruct (reachable_set_ok args st1 sA Hreach1) as [HlenA _];
    [by eapply list_elem_of_lookup_2|].
  destruct (Forall_lookup_1 _ _ _ _ Hstamps Hs) as [_ Hle].
  exists sA, j, l'. split_and!; try done.
  - apply (recent_le_mono (st_clock st1)); [lia|].
    apply recent_le_insert; [|lia]. eapply recent_le_mono; [|done]. lia.
  - set (k := if decide (j = 0%nat) then 1%nat else 0%nat).
    assert (k ≠ j) as Hk by (unfold k; destruct (decide _); lia).
    destruct (lookup_lt_is_Some_2 s k) as [lk Hlk].
    { unfold sA in HlenA. rewrite length_insert in HlenA.
      unfold k; destruct (decide _); lia. }
    exists k, lk. split; [done|].
    split; [unfold sA; by rewrite list_lookup_insert_ne|].
    specialize (Hle _ _ Hlk). lia.
Qed.

(** Under LRU the next survey of that set, whatever tag it is for and
    even if it evicts, leaves the tag in the set. *)
Lemma LRU_survey_keeps args ls l1 st1 t s s' stats' r :
  policy args = LRU → 2 ≤ perset args →
  Forall (λ l, l_op l ≠ "M"%char) (ls ++ [l1]) →
  simulate args (ls ++ [l1]) = Some st1 →
  st_cache st1 !! Z.to_nat (l_set l1) = Some s →
  survey_case s (st_stats st1) (perset args) t (st_clock st1 + 1)
              (policy args) s' stats' r →
  ∃ i li, s' !! i = Some li ∧ valid li ≠ 0 ∧ tag li = l_tag l1.
Proof.
  intros Hpol Hper Hops Hls1 Hs H.
  destruct (just_used_line args ls l1 st1 Hper Hops Hls1)
    as (sA & j & l' & HsA & HlA & Hv & Ht & HlenA & HleA & Holder).
  assert (sA = s) as -> by congruence.
  destruct (decide (t = l_tag l1)) as [->|Hdiff].
  - assert (1 ≤ perset args) as Hlines by lia.
    destruct (survey_case_holds _ _ _ _ _ _ _ _ _ Hlines H)
      as (i & li & _ & _ & Hli & Hvi & Hti).
    by exists i, li.
  - exists j, l'. split; [|done]. rewrite Hpol in H.
    eapply survey_case_keeps; [exact HlenA|exact HleA|exact H|done..| |done].
    congruence.
Qed.

(** * Further properties of the code *)

(** Here too the runs and lookups are the defined ones, which are those
    that need no eviction (X4); an eviction is described at the survey
    that makes it (X18, X19, X21, X25, X26). *)

(** ** Address decoding and the allocation *)

(** X1: for up to 30 set bits and a block offset narrower than a
    [long], [findSet] is defined at every address and its result is the
    index of one of the [2^sbits] sets that [main] allocated, each with
    its [perset] lines: [cache[setNumber]] in [cacheSim] stays inside
    the arrays of [buildCache]. *)
Theorem findSet_indexes_the_cache (args : arguments) (st : state) (a : Z) :
  0 ≤ sbits args ≤ 30 → 0 ≤ bbits args < 64 → reachable args st →
  ∃ n s, findSet a (sbits args) (bbits args) = Some n
         ∧ 0 ≤ n < 2 ^ sbits args
         ∧ index (st_cache st) n = Some s
         ∧ length s = Z.to_nat (perset args).
Proof.
  intros Hs Hb Hreach.
  rewrite findSet_value by lia.
  set (n := Z.land (Z.shiftr a (bbits args)) (Z.ones (sbits args))).
  assert (0 ≤ n < 2 ^ sbits args) as Hn.
  { unfold n. rewrite Z.land_ones by lia.
    apply Z.mod_pos_bound, Z.pow_pos_nonneg; lia. }
  destruct (lookup_lt_is_Some_2 (st_cache st) (Z.to_nat n)) as [s Hsn].
  { rewrite (reachable_length args st Hs Hreach). lia. }
  exists n, s. split; [done|]. split; [done|].
  split; [apply index_Some; split; [lia|done]|].
  eapply reachable_set_ok; [done|]. by eapply list_elem_of_lookup_2.
Qed.

Lemma findSet_indexes_the_cache_witness :
  ∃ n s, findSet 0x300000000 1 32 = Some n
         ∧ 0 ≤ n < 2 ^ 1
         ∧ index (st_cache sample_state_3) n = Some s
         ∧ length s = 2%nat.
Proof.
  apply (findSet_indexes_the_cache lru_args sample_state_3 0x300000000).
  - simpl. lia.
  - simpl. lia.
  - exact sample_reachable_3.
Defined.

(** X2: where [findTag] is defined (a tag narrower than 32 bits), tag
    and set index together are the block number of the address read as
    an unsigned 64-bit number: [address / 2^bbits = tag * 2^sbits + set],
    with the set index below [2^sbits] and the tag below [2^tbits].  The
    block offset, the low [bbits] bits, is dropped. *)
Theorem tag_and_set_are_the_block_number (a sbits bbits : Z) :
  0 ≤ sbits < 32 → 0 ≤ bbits → 32 < sbits + bbits < 64 →
  ∃ t n, findTag a sbits bbits = Some t ∧ findSet a sbits bbits = Some n
         ∧ 0 ≤ t < 2 ^ (64 - sbits - bbits) ∧ 0 ≤ n < 2 ^ sbits
         ∧ unsigned a `div` 2 ^ bbits = t * 2 ^ sbits + n.
Proof. apply decode_block. Qed.

Lemma tag_and_set_are_the_block_number_witness :
  ∃ t n, findTag (-1) 1 32 = Some t ∧ findSet (-1) 1 32 = Some n
         ∧ 0 ≤ t < 2 ^ (64 - 1 - 32) ∧ 0 ≤ n < 2 ^ 1
         ∧ unsigned (-1) `div` 2 ^ 32 = t * 2 ^ 1 + n.
Proof. apply (tag_and_set_are_the_block_number (-1) 1 32); lia. Defined.

(** X3: where [findTag] is defined, two addresses get the same tag and
    the same set index exactly when they lie in the same block of
    [2^bbits] bytes. *)
Theorem same_block_same_tag_and_set (a a' sbits bbits : Z) :
  0 ≤ sbits < 32 → 0 ≤ bbits → 32 < sbits + bbits < 64 →
  LONG_MIN ≤ a ≤ LONG_MAX → LONG_MIN ≤ a' ≤ LONG_MAX →
  findTag a sbits bbits = findTag a' sbits bbits
  ∧ findSet a sbits bbits = findSet a' sbits bbits
  ↔ Z.shiftr a bbits = Z.shiftr a' bbits.
Proof.
  intros Hs Hb Hsb Ha Ha'.
  destruct (decode_block a sbits bbits Hs Hb Hsb)
    as (t & n & -> & -> & Ht & Hn & Hblock).
  destruct (decode_block a' sbits bbits Hs Hb Hsb)
    as (t' & n' & -> & -> & Ht' & Hn' & Hblock').
  rewrite <- (unsigned_block a a' bbits) by (done || lia).
  rewrite Hblock, Hblock'. split.
  - intros [[= ->] [= ->]]. done.
  - intros Heq.
    assert (0 < 2 ^ sbits) by (apply Z.pow_pos_nonneg; lia).
    assert (t = t') as -> by nia.
    split; [done|]. f_equal. lia.
Qed.

Lemma same_block_same_tag_and_set_witness :
  findTag 0x200000000 1 32 = findTag 0x2000000ff 1 32
  ∧ findSet 0x200000000 1 32 = findSet 0x2000000ff 1 32
  ↔ Z.shiftr 0x200000000 32 = Z.shiftr 0x2000000ff 32.
Proof.
  apply (same_block_same_tag_and_set 0x200000000 0x2000000ff 1 32);
    unfold LONG_MIN, LONG_MAX; lia.
Defined.

(** X4: a run has a defined result exactly when it needs no eviction.
    With at least one line per set, at most 30 set bits and set numbers
    below [2^sbits], a run of up to [INT_MAX / 2] decoded records is
    defined if and only if no set is looked up for more distinct tags
    than it has lines.  Then no set or line is indexed out of bounds, no
    counter, [freq] or clock overflows and every text fits [result];
    otherwise some lookup finds its set full of other tags, and
    [surveySet] copies the 7 bytes of ["evict "] into the 6 bytes of
    [result].  The same holds for [main] with its own decoding wherever
    [findTag] is defined. *)
Theorem run_is_defined_iff_its_tags_fit (args : arguments) :
  1 ≤ perset args → 0 ≤ sbits args ≤ 30 →
  (∀ ls, Forall (λ l, 0 ≤ l_set l < 2 ^ sbits args) ls →
         2 * Z.of_nat (length ls) ≤ INT_MAX →
         is_Some (simulate args ls) ↔ fits args ls)
  ∧ (0 ≤ bbits args → 32 < sbits args + bbits args < 64 →
     ∀ trace, 2 * Z.of_nat (length trace) ≤ INT_MAX →
       ∃ ls, mapM (decode args) trace = Some ls
             ∧ (is_Some (replay args trace) ↔ fits args ls)).
Proof.
  intros Hper Hs. split.
  - intros ls. by apply simulate_defined.
  - intros Hb Hsb trace Hlen.
    destruct (decode_defined args trace) as (ls & Hls & Hlens & Hsets);
      [lia|done|done|].
    exists ls. split; [done|]. rewrite replay_decode, Hls. simpl.
    apply simulate_defined; [done|done|done|]. by rewrite Hlens.
Qed.

Lemma run_is_defined_iff_its_tags_fit_witness :
  is_Some (simulate lfu_args (take 3 sample_lookups))
  ∧ ¬ fits lfu_args sample_lookups
  ∧ is_Some (replay lru_args (take 3 sample_trace))
  ∧ ¬ is_Some (replay lru_args sample_trace).
Proof.
  assert (1 ≤ perset lfu_args) as Hper by (simpl; lia).
  assert (0 ≤ sbits lfu_args ≤ 30) as Hs by (simpl; lia).
  assert (0 ≤ bbits lru_args) as Hb by (simpl; lia).
  assert (32 < sbits lru_args + bbits lru_args < 64) as Hsb by (simpl; lia).
  split; [|split; [|split]].
  - apply (proj1 (run_is_defined_iff_its_tags_fit lfu_args Hper Hs)).
    + repeat constructor; simpl; lia.
    + unfold INT_MAX. simpl. lia.
    + repeat constructor; vm_compute; discriminate.
  - intros Hfits.
    apply (proj1 (run_is_defined_iff_its_tags_fit lfu_args Hper Hs)) in Hfits.
    + destruct Hfits as [st Hst]. vm_compute in Hst. discriminate.
    + repeat constructor; simpl; lia.
    + unfold INT_MAX. simpl. lia.
  - destruct (proj2 (run_is_defined_iff_its_tags_fit lru_args Hper Hs) Hb Hsb
                (take 3 sample_trace)) as (ls & Hls & Hiff).
    + unfold INT_MAX. simpl. lia.
    + apply Hiff. vm_compute in Hls. injection Hls as <-.
      repeat constructor; vm_compute; discriminate.
  - destruct (proj2 (run_is_defined_iff_its_tags_fit lru_args Hper Hs) Hb Hsb
                sample_trace) as (ls & Hls & Hiff).
    + unfold INT_MAX. simpl. lia.
    + intros Hdef. apply Hiff in Hdef. vm_compute in Hls.
      injection Hls as <-. apply Forall_inv in Hdef.
      vm_compute in Hdef. by apply Hdef.
Defined.

(** X5: the sizes are not checked.  With [-E 0] or a negative [-E]
    there is no line to put a tag in, and with [-s] outside 0..30 the
    number of sets [1 << sbits] is not positive or not defined: the
    first lookup then already reads or writes outside the allocation,
    whatever it looks up. *)
Theorem no_lookup_without_lines_or_sets (args : arguments) (l : lookup)
    (ls : list lookup) :
  perset args ≤ 0 ∨ sbits args < 0 ∨ 30 < sbits args →
  simulate args (l :: ls) = None.
Proof.
  intros Hbad. unfold simulate, start.
  destruct (int_shl 1 (sbits args)) as [sets|] eqn:Hsets; simpl; [|done].
  destruct (access args _ _ _ _ _) as [st1|] eqn:Hacc; simpl; [|done].
  exfalso. destruct Hbad as [Hper|Hs].
  - rewrite access_no_lines in Hacc; [done|done|]. simpl.
    apply Forall_lookup. intros n s Hs. apply buildCache_lookup in Hs as ->.
    by rewrite length_replicate.
  - unfold int_shl in Hsets.
    destruct (decide (0 ≤ sbits args < 32)) as [Hr|]; [|done].
    assert (sbits args = 31) as H31 by lia. rewrite H31 in Hsets.
    simplify_eq. apply access_cases in Hacc as (s & _ & _ & _ & _ & Hset & _).
    simpl in Hset. unfold buildCache in Hset.
    apply lookup_replicate_1 in Hset as [_ Hlt]. vm_compute in Hlt. lia.
Qed.

Lemma no_lookup_without_lines_or_sets_witness :
  simulate {| verbose := 0; sbits := 1; perset := 0; bbits := 32;
              policy := LRU |}
           [ {| l_tag := 1; l_set := 0; l_op := "L"; l_echo := [] |} ]
  = None.
Proof.
  apply (no_lookup_without_lines_or_sets
           {| verbose := 0; sbits := 1; perset := 0; bbits := 32;
              policy := LRU |}).
  left. simpl. lia.
Defined.

(** ** One lookup *)



(** X7: a lookup rewrites one line of one set and nothing else in the
    cache: the line ends up valid, holding the tag looked up and
    stamped with the time of the last sub-access, which for a Modify is
    one tick ahead of the clock of [main]. *)
Theorem lookup_rewrites_one_line (args : arguments) (st : state) (t n : Z)
    (op : ascii) (echo : list event) (st' : state) :
  reachable args st → access args st t n op echo = Some st' →
  ∃ s j l l',
    st_cache st !! Z.to_nat n = Some s ∧ s !! j = Some l
    ∧ st_cache st' = <[Z.to_nat n := <[j := l']> s]> (st_cache st)
    ∧ valid l' ≠ 0 ∧ tag l' = t
    ∧ recent l' = st_clock st' + (sub_accesses [op] - 1).
Proof. apply access_one_line. Qed.

Lemma lookup_rewrites_one_line_witness :
  ∃ st', access lru_args sample_state_1 2 0 "M" [] = Some st'
    ∧ ∃ s j l l',
        st_cache sample_state_1 !! Z.to_nat 0 = Some s ∧ s !! j = Some l
        ∧ st_cache st' = <[Z.to_nat 0 := <[j := l']> s]> (st_cache sample_state_1)
        ∧ valid l' ≠ 0 ∧ tag l' = 2
        ∧ recent l' = st_clock st' + (sub_accesses ["M"%char] - 1).
Proof.
  eexists. split; [vm_compute; reflexivity|].
  apply (lookup_rewrites_one_line lru_args sample_state_1 2 0 "M" []).
  - exact sample_reachable_1.
  - vm_compute. reflexivity.
Defined.

(** ** Invariants of the cache *)

(** X8: no set ever holds the same tag in two valid lines. *)
Theorem no_tag_in_two_lines (args : arguments) (st : state) (s : list cLine) :
  reachable args st → s ∈ st_cache st → distinct_tags s.
Proof.
  intros Hreach Hs. apply reachable_distinct_tags in Hreach.
  rewrite Forall_forall in Hreach. by apply Hreach.
Qed.

Lemma no_tag_in_two_lines_witness :
  distinct_tags [ {| valid := 1; tag := 1; recent := 3; freq := 2 |};
                  {| valid := 1; tag := 2; recent := 2; freq := 0 |} ].
Proof.
  apply (no_tag_in_two_lines lru_args sample_state_3).
  - exact sample_reachable_3.
  - left.
Defined.





(** X11: the cache holds only what was looked up.  A valid line of set
    [n] holds a tag that some earlier trace line looked up in set [n];
    so the first lookup of a tag in a set is a miss. *)
Theorem only_looked_up_tags_are_resident (args : arguments) (ls : list lookup)
    (st : state) :
  simulate args ls = Some st →
  (∀ n t, resident (st_cache st) n t →
          ∃ l, l ∈ ls ∧ l_tag l = t ∧ l_set l = Z.of_nat n)
  ∧ (∀ t n op echo st',
       (∀ l, l ∈ ls → ¬ (l_tag l = t ∧ l_set l = n)) →
       access args st t n op echo = Some st' →
       miss_count (st_stats st') = miss_count (st_stats st) + 1).
Proof.
  intros Hls. split; [intros n t; exact (resident_looked_up args ls st n t Hls)|].
  intros t n op echo st' Hnew Hacc.
  assert (reachable args st) as Hreach by by exists ls.
  destruct (access_outcome _ _ _ _ _ _ _ Hreach Hacc) as (_ & Habsent & _).
  apply Habsent. intros Hres.
  apply access_cases in Hacc as (_ & _ & _ & _ & Hn & _).
  destruct (resident_looked_up _ _ _ _ _ Hls Hres) as (l & Hl & Ht & Hset).
  apply (Hnew l Hl). split; [done|lia].
Qed.

Lemma only_looked_up_tags_are_resident_witness :
  (resident (st_cache sample_state_1) 0 1 →
   ∃ l, l ∈ take 1 sample_lookups ∧ l_tag l = 1 ∧ l_set l = Z.of_nat 0)
  ∧ ∃ st', access lru_args sample_state_1 2 0 "S" [] = Some st'
           ∧ miss_count (st_stats st') = miss_count (st_stats sample_state_1) + 1.
Proof.
  assert (simulate lru_args (take 1 sample_lookups) = Some sample_state_1)
    as Hls by (vm_compute; reflexivity).
  pose proof (only_looked_up_tags_are_resident lru_args _ _ Hls)
    as [Hres Hfirst].
  split; [apply Hres|].
  eexists. split; [vm_compute; reflexivity|].
  apply (Hfirst 2 0 "S"%char []).
  - intros l Hl [Ht _]. apply list_elem_of_In in Hl. simpl in Hl.
    destruct Hl as [<-|[]]; discriminate.
  - vm_compute. reflexivity.
Defined.



(** ** Modify, the operation letters and [-v] *)

(** X13: a Modify leaves the cache and the counters exactly as two
    single lookups of the same tag and set in a row do, and the other
    way round; but it advances the clock of [main] by one tick where
    the two lookups advance it by two, because [cacheSim] increments its
    own copy of the clock. *)
Theorem modify_is_two_lookups_in_one_tick (args : arguments) (st : state)
    (t n : Z) (op1 op2 : ascii) (echo echo1 echo2 : list event) :
  op1 ≠ "M"%char → op2 ≠ "M"%char →
  (∀ st', access args st t n "M" echo = Some st' →
     st_clock st + 2 ≤ LONG_MAX →
     ∃ st1 st2, access args st t n op1 echo1 = Some st1
                ∧ access args st1 t n op2 echo2 = Some st2
                ∧ st_cache st2 = st_cache st' ∧ st_stats st2 = st_stats st'
                ∧ st_clock st2 = st_clock st' + 1)
  ∧ (∀ st1 st2, access args st t n op1 echo1 = Some st1 →
       access args st1 t n op2 echo2 = Some st2 →
       ∃ st', access args st t n "M" echo = Some st'
              ∧ st_cache st' = st_cache st2 ∧ st_stats st' = st_stats st2
              ∧ st_clock st' + 1 = st_clock st2).
Proof.
  intros Hop1 Hop2. split.
  - intros st' H Hroom.
    pose proof (access_clock_range _ _ _ _ _ _ _ H) as [Hc Hc2].
    specialize (Hc2 eq_refl). pose proof H as Hcases.
    apply access_cases in Hcases
      as (s & s1 & stats1 & r1 & Hn & Hs & Hclock & H1 & Hop).
    destruct (access_fits args st t n "M" echo s s1 stats1 r1) as [Hr1 Hr2];
      [by eexists|done|done|].
    destruct Hop as [(? & _)|(_ & s2 & r2 & H2 & Hcache & _)]; [done|].
    specialize (Hr2 eq_refl _ _ _ H2).
    eexists _, _. split; [by eapply access_non_modify|]. split.
    + eapply access_non_modify; try done; simpl.
      apply list_lookup_insert_eq. by eapply lookup_lt_Some.
    + simpl. rewrite list_insert_insert_eq. split_and!; try done. lia.
  - intros st1 st2 Hacc1 Hacc2.
    pose proof (access_clock_range _ _ _ _ _ _ _ Hacc1) as [Hc _].
    pose proof (access_clock_range _ _ _ _ _ _ _ Hacc2) as [Hc2 _].
    pose proof Hacc1 as Hcases1. pose proof Hacc2 as Hcases2.
    apply access_cases in Hcases1
      as (s & s1 & stats1 & r1 & Hn & Hs & Hclock1 & H1 & Hop).
    destruct (access_fits args st t n op1 echo1 s s1 stats1 r1) as [Hr1 _];
      [by eexists|done|done|].
    destruct Hop as [(_ & Hcache1 & Hstats1 & _)|(? & _)]; [|done].
    apply access_cases in Hcases2
      as (s1' & s2 & stats2 & r2 & _ & Hs1 & Hclock2 & H2 & Hop).
    destruct (access_fits args st1 t n op2 echo2 s1' s2 stats2 r2) as [Hr2 _];
      [by eexists|done|done|].
    destruct Hop as [(_ & Hcache2 & Hstats2 & _)|(? & _)]; [|done].
    rewrite Hcache1, list_lookup_insert_eq in Hs1
      by (by eapply lookup_lt_Some).
    injection Hs1 as <-. rewrite Hstats1, Hclock1 in H2. rewrite Hclock1 in Hc2.
    eexists. split; [by eapply access_modify|]. simpl.
    rewrite Hcache2, Hcache1, list_insert_insert_eq.
    split_and!; try done. lia.
Qed.

Lemma modify_is_two_lookups_in_one_tick_witness :
  (∃ st' st1 st2,
     access lru_args sample_state_1 2 0 "M" [] = Some st'
     ∧ access lru_args sample_state_1 2 0 "L" [] = Some st1
     ∧ access lru_args st1 2 0 "S" [] = Some st2
     ∧ st_cache st2 = st_cache st' ∧ st_stats st2 = st_stats st'
     ∧ st_clock st2 = st_clock st' + 1)
  ∧ (∃ st1 st2 st',
       access lru_args sample_state_1 2 0 "L" [] = Some st1
       ∧ access lru_args st1 2 0 "S" [] = Some st2
       ∧ access lru_args sample_state_1 2 0 "M" [] = Some st'
       ∧ st_cache st' = st_cache st2 ∧ st_stats st' = st_stats st2
       ∧ st_clock st' + 1 = st_clock st2).
Proof.
  assert ("L"%char ≠ "M"%char) as HL by discriminate.
  assert ("S"%char ≠ "M"%char) as HS by discriminate.
  pose proof (modify_is_two_lookups_in_one_tick lru_args sample_state_1 2 0
                "L" "S" [] [] [] HL HS) as [Hsplit Hjoin].
  split.
  - eexists. edestruct Hsplit as (st1 & st2 & H1 & H2 & Heq).
    + vm_compute. reflexivity.
    + unfold LONG_MAX. simpl. lia.
    + exists st1, st2. split; [reflexivity|]. split; [exact H1|].
      split; [exact H2|exact Heq].
  - eexists _, _. edestruct Hjoin as (st' & HM & Heq).
    + vm_compute. reflexivity.
    + vm_compute. reflexivity.
    + exists st'. split; [reflexivity|]. split; [reflexivity|].
      split; [exact HM|exact Heq].
Defined.

(** X14: the simulation reads, of a trace line, its tag, its set and
    whether its letter is ['M'], and of the arguments [-s], [-E] and
    [-p].  Two runs that agree on these are both undefined or end with
    the same cache, counters and clock: Load, Store and any other
    letter are simulated alike, and [-v] and what is echoed change the
    printed text only. *)
Theorem run_depends_on_tag_set_and_modify (args args' : arguments)
    (ls ls' : list lookup) :
  sbits args' = sbits args → perset args' = perset args →
  policy args' = policy args → Forall2 same_lookup ls ls' →
  option_Forall2 agree (simulate args ls) (simulate args' ls').
Proof.
  intros Hs Hper Hpol Hls. unfold simulate, start. rewrite Hs, Hper.
  destruct (int_shl 1 (sbits args)) as [sets|]; simpl; [|constructor].
  by apply simulate_from_letters.
Qed.

Lemma run_depends_on_tag_set_and_modify_witness :
  option_Forall2 agree
    (simulate lru_args (take 3 sample_lookups))
    (simulate {| verbose := 0; sbits := 1; perset := 2; bbits := 40;
                 policy := LRU |}
       [ {| l_tag := 1; l_set := 0; l_op := "M"; l_echo := [Newline] |};
         {| l_tag := 2; l_set := 0; l_op := "S"; l_echo := [] |};
         {| l_tag := 1; l_set := 0; l_op := "X"; l_echo := [] |} ]).
Proof.
  apply (run_depends_on_tag_set_and_modify lru_args); try reflexivity.
  unfold sample_lookups. simpl take.
  repeat (constructor;
          [unfold same_lookup; simpl; split; [reflexivity|];
           split; [reflexivity|]; split; intros H; (exact H || discriminate H)|]).
  constructor.
Defined.



(** ** The replacement policy *)

(** X16: the policy is read at evictions only.  A run that ends without
    an eviction ends in the same state, printed text included, under
    every value of [-p]; and a survey that does not report an eviction
    returns the same under every policy. *)
Theorem policy_is_read_at_evictions_only (args args' : arguments) :
  sbits args' = sbits args → perset args' = perset args →
  verbose args' = verbose args →
  (∀ ls st, simulate args ls = Some st → eviction_count (st_stats st) = 0 →
            simulate args' ls = Some st)
  ∧ (∀ s stats t clock s' stats' r,
       surveySet s stats (perset args) t clock (policy args)
       = Some (s', stats', r) →
       r ≠ "evict "%string →
       surveySet s stats (perset args') t clock (policy args')
       = Some (s', stats', r)).
Proof.
  intros Hs Hper Hverb. split.
  - intros ls st Hls. revert ls st Hls.
    apply (simulate_ind args
             (λ ls st, eviction_count (st_stats st) = 0 →
                       simulate args' ls = Some st)).
    + intros st0 Hst _. unfold simulate, start in *. by rewrite Hs, Hper, Hst.
    + intros ls st l st' Hls IH Hacc He.
      assert (reachable args st) as Hreach by by exists ls.
      pose proof (access_one_miss _ _ _ _ _ _ _ Hreach Hacc) as (_ & Hev & _).
      apply reachable_state_inv in Hreach as (_ & Hok & _).
      assert (eviction_count (st_stats st) = 0) as He0
        by (unfold stats_ok in Hok; lia).
      rewrite simulate_snoc, (IH He0). simpl.
      eapply access_policy; [done|done|done|lia].
  - intros s stats t clock s' stats' r H Hr. apply surveySet_case in H.
    rewrite Hper. apply survey_case_surveySet.
    eapply survey_case_policy; [done|].
    by eapply survey_case_no_eviction.
Qed.

Lemma policy_is_read_at_evictions_only_witness :
  simulate lfu_args (take 3 sample_lookups) = Some sample_state_3
  ∧ surveySet [ {| valid := 1; tag := 1; recent := 2; freq := 1 |}; singleLine ]
              {| miss_count := 1; hit_count := 1; eviction_count := 0 |}
              2 2 2 LFU
    = Some ([ {| valid := 1; tag := 1; recent := 2; freq := 1 |};
              {| valid := 1; tag := 2; recent := 2; freq := 0 |} ],
            {| miss_count := 2; hit_count := 1; eviction_count := 0 |},
            "miss "%string).
Proof.
  pose proof (policy_is_read_at_evictions_only lru_args lfu_args
                eq_refl eq_refl eq_refl) as [Hrun Hsurvey].
  split.
  - apply (Hrun (take 3 sample_lookups) sample_state_3); reflexivity.
  - apply Hsurvey; [reflexivity|discriminate].
Defined.



(** X18: the value of [-p] is not checked.  Under a policy that is
    neither 0 nor 1, [finalIndex] keeps its initial value and every
    eviction replaces line 0 of the set. *)
Theorem unknown_policy_evicts_line_0 (s : list cLine) (stats : cachestats)
    (lines tag' clock policy : Z) (s' : list cLine) (stats' : cachestats) :
  policy ≠ LRU → policy ≠ LFU →
  surveySet s stats lines tag' clock policy = Some (s', stats', "evict "%string) →
  ∃ l, s !! 0%nat = Some l ∧ s' = <[0%nat := evict_line tag' clock l]> s
       ∧ scanned s tag' 0 (Z.to_nat lines).
Proof.
  intros Hlru Hlfu H. apply surveySet_case in H.
  inversion H as [| |fi l m e Hs Hfi Hl Hm He]; subst.
  unfold finalIndex in *. rewrite !decide_False in * by done.
  by exists l.
Qed.

Lemma unknown_policy_evicts_line_0_witness :
  ∃ l, [ {| valid := 1; tag := 1; recent := 1; freq := 0 |};
         {| valid := 1; tag := 2; recent := 2; freq := 0 |} ] !! 0%nat = Some l
       ∧ [ {| valid := 1; tag := 3; recent := 3; freq := 0 |};
           {| valid := 1; tag := 2; recent := 2; freq := 0 |} ]
         = <[0%nat := evict_line 3 3 l]>
             [ {| valid := 1; tag := 1; recent := 1; freq := 0 |};
               {| valid := 1; tag := 2; recent := 2; freq := 0 |} ]
       ∧ scanned [ {| valid := 1; tag := 1; recent := 1; freq := 0 |};
                   {| valid := 1; tag := 2; recent := 2; freq := 0 |} ]
                 3 0 (Z.to_nat 2).
Proof.
  apply (unknown_policy_evicts_line_0 _
           {| miss_count := 2; hit_count := 0; eviction_count := 0 |}
           2 3 3 2 _
           {| miss_count := 3; hit_count := 0; eviction_count := 1 |}).
  - discriminate.
  - discriminate.
  - reflexivity.
Defined.



(** ** Time stamps and LRU *)

(** X20: in a run without a Modify the stamps are exact: no line is
    stamped later than the clock of [main], and no two valid lines of a
    set carry the same stamp, so the least recently used line of a full
    set is unique. *)
Theorem stamps_are_distinct_without_modify (args : arguments)
    (ls : list lookup) (st : state) (s : list cLine) :
  Forall (λ l, l_op l ≠ "M"%char) ls → simulate args ls = Some st →
  s ∈ st_cache st →
  distinct_recent s ∧ recent_le (st_clock st) s.
Proof.
  intros Hops Hls Hs.
  pose proof (reachable_stamps args ls st Hops Hls) as Hall.
  rewrite Forall_forall in Hall. by apply Hall.
Qed.

Lemma stamps_are_distinct_without_modify_witness :
  ∃ st, simulate lru_args (drop 1 (take 3 sample_lookups)) = Some st
        ∧ ∀ s, s ∈ st_cache st →
               distinct_recent s ∧ recent_le (st_clock st) s.
Proof.
  eexists. split; [vm_compute; reflexivity|]. intros s Hs.
  apply (stamps_are_distinct_without_modify lru_args
           (drop 1 (take 3 sample_lookups))
           _ s).
  - repeat constructor; discriminate.
  - vm_compute. reflexivity.
  - exact Hs.
Defined.

(** X21: under LRU with two or more lines per set, and as long as no
    Modify was simulated, the tag that a trace line looked up is still
    resident after the next trace line, whatever that one looks up:
    the line used last is not the next victim.  This holds of the run,
    and of the survey that the next trace line makes in the same set,
    whatever it returns: if it evicts, it evicts another line. *)
Theorem LRU_keeps_the_line_just_used (args : arguments) (ls : list lookup)
    (l1 : lookup) :
  policy args = LRU → 2 ≤ perset args →
  Forall (λ l, l_op l ≠ "M"%char) (ls ++ [l1]) →
  (∀ l2 st2, simulate args (ls ++ [l1; l2]) = Some st2 →
     resident (st_cache st2) (Z.to_nat (l_set l1)) (l_tag l1))
  ∧ (∀ st1 t s s' stats' r,
       simulate args (ls ++ [l1]) = Some st1 →
       st_cache st1 !! Z.to_nat (l_set l1) = Some s →
       surveySet s (st_stats st1) (perset args) t (st_clock st1 + 1)
                 (policy args)
       = Some (s', stats', r) →
       ∃ i li, s' !! i = Some li ∧ valid li ≠ 0 ∧ tag li = l_tag l1).
Proof.
  intros Hpol Hper Hops. split.
  - intros l2 st2 H.
    change (ls ++ [l1; l2]) with (ls ++ [l1] ++ [l2]) in H.
    rewrite app_assoc, simulate_snoc in H.
    destruct (simulate args (ls ++ [l1])) as [st1|] eqn:Hls1;
      simpl in H; [|done].
    pose proof H as Hacc2.
    apply access_cases in H
      as (s2 & s3 & stats3 & r3 & Hn2 & Hs2 & _ & H3 & Hop).
    destruct (just_used_line args ls l1 st1 Hper Hops Hls1)
      as (sA & j & l' & HsA & HlA & Hv & Ht & _).
    set (n1 := Z.to_nat (l_set l1)) in *.
    assert (∀ sF, (Z.to_nat (l_set l2) = n1 →
                   ∃ i li, sF !! i = Some li ∧ valid li ≠ 0
                           ∧ tag li = l_tag l1) →
              st_cache st2 = <[Z.to_nat (l_set l2) := sF]> (st_cache st1) →
              resident (st_cache st2) n1 (l_tag l1)) as Hput.
    { intros sF HsF ->.
      destruct (decide (Z.to_nat (l_set l2) = n1)) as [Heq|Hne].
      - destruct (HsF Heq) as (i & li & Hli & Hvi & Hti).
        exists sF, i, li. split; [|done].
        rewrite Heq. apply list_lookup_insert_eq. by eapply lookup_lt_Some.
      - exists sA, j, l'. split; [|done]. by rewrite list_lookup_insert_ne. }
    assert (Z.to_nat (l_set l2) = n1 →
            ∃ i li, s3 !! i = Some li ∧ valid li ≠ 0 ∧ tag li = l_tag l1)
      as Hkept.
    { intros Heq. rewrite Heq in Hs2.
      exact (LRU_survey_keeps args ls l1 st1 _ _ _ _ _
               Hpol Hper Hops Hls1 Hs2 H3). }
    destruct Hop as [(_ & Hcache2 & _)|(_ & s4 & r4 & H4 & Hcache2 & _)].
    + by apply (Hput s3).
    + apply (Hput s4); [|done]. intros Heq.
      destruct (Hkept Heq) as (i & li & Hli & Hvi & Hti).
      destruct (survey_case_valid _ _ _ _ _ _ _ _ _ _ _ H4 Hli Hvi)
        as (li' & Hli' & Hvi').
      assert (1 ≤ perset args) as Hlines by lia.
      destruct (survey_case_twice _ _ _ _ _ _ _ _ _ _ _ _ _ Hlines H3 H4)
        as (j' & l0 & l3 & Hl0 & Hs3 & Hv3 & Ht3 & Hs4).
      exists i, li'. split; [done|]. split; [done|].
      rewrite Hs4 in Hli'. rewrite Hs3 in Hli.
      destruct (decide (i = j')) as [->|Hne].
      * rewrite list_lookup_insert_eq in Hli, Hli'
          by (by eapply lookup_lt_Some).
        by simplify_eq.
      * rewrite list_lookup_insert_ne in Hli, Hli' by done. congruence.
  - intros st1 t s s' stats' r Hls1 Hs H. apply surveySet_case in H.
    exact (LRU_survey_keeps args ls l1 st1 _ _ _ _ _
             Hpol Hper Hops Hls1 Hs H).
Qed.

Lemma LRU_keeps_the_line_just_used_witness :
  (∃ st2, simulate lru_args
            [ {| l_tag := 2; l_set := 0; l_op := "L"; l_echo := [] |};
              {| l_tag := 1; l_set := 0; l_op := "L"; l_echo := [] |};
              {| l_tag := 2; l_set := 0; l_op := "S"; l_echo := [] |} ]
          = Some st2
          ∧ resident (st_cache st2) (Z.to_nat 0) 1)
  ∧ (surveySet [ {| valid := 1; tag := 2; recent := 1; freq := 0 |};
                 {| valid := 1; tag := 1; recent := 2; freq := 0 |} ]
               {| miss_count := 2; hit_count := 0; eviction_count := 0 |}
               2 3 3 LRU
     = Some ([ {| valid := 1; tag := 3; recent := 3; freq := 0 |};
               {| valid := 1; tag := 1; recent := 2; freq := 0 |} ],
             {| miss_count := 3; hit_count := 0; eviction_count := 1 |},
             "evict "%string)
     ∧ ∃ i li,
         [ {| valid := 1; tag := 3; recent := 3; freq := 0 |};
           {| valid := 1; tag := 1; recent := 2; freq := 0 |} ] !! i = Some li
         ∧ valid li ≠ 0 ∧ tag li = 1).
Proof.
  assert (2 ≤ perset lru_args) as Hper by (simpl; lia).
  assert (Forall (λ l, l_op l ≠ "M"%char)
            ([ {| l_tag := 2; l_set := 0; l_op := "L"; l_echo := [] |} ]
             ++ [ {| l_tag := 1; l_set := 0; l_op := "L"; l_echo := [] |} ]))
    as Hops by (repeat constructor; discriminate).
  pose proof (LRU_keeps_the_line_just_used lru_args
                [ {| l_tag := 2; l_set := 0; l_op := "L"; l_echo := [] |} ]
                {| l_tag := 1; l_set := 0; l_op := "L"; l_echo := [] |}
                eq_refl Hper Hops) as [Hrun Hsurvey].
  split.
  - eexists. split; [vm_compute; reflexivity|].
    apply (Hrun {| l_tag := 2; l_set := 0; l_op := "S"; l_echo := [] |}).
    vm_compute. reflexivity.
  - split; [reflexivity|].
    apply (Hsurvey
             {| st_cache := [ [ {| valid := 1; tag := 2; recent := 1; freq := 0 |};
                                {| valid := 1; tag := 1; recent := 2; freq := 0 |} ];
                              [ singleLine; singleLine ] ];
                st_stats := {| miss_count := 2; hit_count := 0;
                               eviction_count := 0 |};
                st_clock := 2;
                st_out := [ Result "miss "; Newline; Result "miss "; Newline ] |}
             3
             [ {| valid := 1; tag := 2; recent := 1; freq := 0 |};
               {| valid := 1; tag := 1; recent := 2; freq := 0 |} ]
             [ {| valid := 1; tag := 3; recent := 3; freq := 0 |};
               {| valid := 1; tag := 1; recent := 2; freq := 0 |} ]
             {| miss_count := 3; hit_count := 0; eviction_count := 1 |}
             "evict "%string).
    + vm_compute. reflexivity.
    + reflexivity.
    + reflexivity.
Defined.

(** ** The trace file *)

(** X22: only lines that begin with a blank count.  On a file whose
    blank-led lines [sscanf] reads in full, [main] ends in the state in
    which the replay of the records of exactly those lines ends: every
    other line (an instruction load [I ...], an empty line, a comment)
    is passed over without a tick of the clock. *)
Theorem main_replays_the_blank_led_lines (args : arguments)
    (file : list text_line) :
  Forall well_formed file →
  fst <$> main_run args file = replay args (omap trace_record file).
Proof.
  intros Hfile. unfold main_run, replay.
  destruct (start args) as [st0|]; simpl; [|done].
  by apply main_loop_replay.
Qed.

Lemma main_replays_the_blank_led_lines_witness :
  fst <$> main_run lru_args
            [ {| first_char := "I"; scanned_as := Scan0 |};
              {| first_char := " "; scanned_as := Scan3 "M" addr_A 1 |};
              {| first_char := "="; scanned_as := Scan3 "L" addr_B 1 |};
              {| first_char := " "; scanned_as := Scan3 "L" addr_B 1 |} ]
  = replay lru_args (take 2 sample_trace).
Proof.
  apply (main_replays_the_blank_led_lines lru_args).
  repeat constructor; intros H; try discriminate H; by eexists _, _, _.
Defined.

(** X23: a line that begins with a blank but from which [sscanf]
    cannot read an address leaves [address] as the line before left it,
    and is simulated as one more lookup of that address: all its
    sub-accesses are hits and nothing else is counted. *)
Theorem unread_address_is_looked_up_again (args : arguments)
    (file : list text_line) (st : state) (v : scan_vars) (l : text_line)
    (st' : state) (v' : scan_vars) :
  main_run args file = Some (st, v) → is_Some (v_operation v) →
  first_char l = " "%char →
  scanned_as l = Scan0 ∨ (∃ op, scanned_as l = Scan1 op) →
  main_line args (st, v) l = Some (st', v') →
  ∃ op, v_operation v' = Some op ∧ v_address v' = v_address v
        ∧ hit_count (st_stats st')
          = hit_count (st_stats st) + sub_accesses [op]
        ∧ miss_count (st_stats st') = miss_count (st_stats st)
        ∧ eviction_count (st_stats st') = eviction_count (st_stats st).
Proof.
  intros Hrun Hsome Hblank Hscan Hline.
  destruct (main_run_inv _ _ _ _ Hrun) as [Hreach Hres].
  destruct (Hres Hsome) as (t & n & Ht & Hn & Hresident).
  unfold main_line in Hline. rewrite decide_True in Hline by done.
  simpl in Hline.
  assert (v_address (sscanf v (scanned_as l)) = v_address v) as Haddr
    by (destruct Hscan as [->|[op ->]]; done).
  destruct (v_operation (sscanf v (scanned_as l))) as [op|] eqn:Hop;
    simpl in Hline; [|done].
  destruct (replay_line args st _) as [st1|] eqn:Hrep; simpl in Hline; [|done].
  simplify_eq. exists op. split; [done|]. split; [done|].
  apply replay_line_access in Hrep as (t' & n' & Ht' & Hn' & Hacc).
  simpl in *. rewrite Haddr in Ht', Hn'.
  assert (t' = t) as -> by congruence. assert (n' = n) as -> by congruence.
  by apply (access_outcome _ _ _ _ _ _ _ Hreach Hacc).
Qed.

Lemma unread_address_is_looked_up_again_witness :
  ∃ st v st' v',
    main_run lru_args [ {| first_char := " "; scanned_as := Scan3 "L" addr_A 1 |} ]
    = Some (st, v)
    ∧ main_line lru_args (st, v) {| first_char := " "; scanned_as := Scan1 "M" |}
      = Some (st', v')
    ∧ ∃ op, v_operation v' = Some op ∧ v_address v' = v_address v
            ∧ hit_count (st_stats st')
              = hit_count (st_stats st) + sub_accesses [op]
            ∧ miss_count (st_stats st') = miss_count (st_stats st)
            ∧ eviction_count (st_stats st') = eviction_count (st_stats st).
Proof.
  eexists _, _, _, _. split; [vm_compute; reflexivity|].
  split; [vm_compute; reflexivity|].
  apply (unread_address_is_looked_up_again lru_args
           [ {| first_char := " "; scanned_as := Scan3 "L" addr_A 1 |} ]
           _ _ {| first_char := " "; scanned_as := Scan1 "M" |}).
  - vm_compute. reflexivity.
  - by eexists.
  - reflexivity.
  - right. by eexists.
  - vm_compute. reflexivity.
Defined.

(** ** What [freq] counts, and when nothing is evicted *)

(** X24: the [freq] of a line counts the hits on it since its tag was
    brought in.  If the line that a lookup rewrites held the tag
    already, its [freq] grows by the number of sub-accesses; if it is
    filled or taken over, its [freq] starts again from 0 and counts
    only the second access of a Modify.  The same holds of the survey
    that the lookup starts with, whatever it reports: one more on a
    hit, 0 after a fill or an eviction. *)
Theorem freq_counts_hits_since_the_fill (args : arguments) (st : state)
    (t n : Z) :
  reachable args st →
  (∀ op echo st', access args st t n op echo = Some st' →
     ∃ s j l l',
       st_cache st !! Z.to_nat n = Some s ∧ s !! j = Some l
       ∧ st_cache st' = <[Z.to_nat n := <[j := l']> s]> (st_cache st)
       ∧ (valid l ≠ 0 ∧ tag l = t → freq l' = freq l + sub_accesses [op])
       ∧ (¬ (valid l ≠ 0 ∧ tag l = t) → freq l' = sub_accesses [op] - 1))
  ∧ (∀ s s' stats' r,
       st_cache st !! Z.to_nat n = Some s →
       surveySet s (st_stats st) (perset args) t (st_clock st + 1)
                 (policy args)
       = Some (s', stats', r) →
       ∃ j l l',
         s !! j = Some l ∧ s' = <[j := l']> s ∧ valid l' ≠ 0 ∧ tag l' = t
         ∧ (valid l ≠ 0 ∧ tag l = t → freq l' = freq l + 1)
         ∧ (¬ (valid l ≠ 0 ∧ tag l = t) → freq l' = 0)).
Proof.
  intros Hreach. split.
  - intros op echo st'. by apply access_freq.
  - intros s s' stats' r Hs H. apply surveySet_case in H.
    assert (set_ok (perset args) s) as Hok
      by (eapply reachable_set_ok; [done|]; by eapply list_elem_of_lookup_2).
    destruct (survey_case_freq _ _ _ _ _ _ _ _ _ Hok H)
      as (j & l & l' & _ & _ & Hl & -> & Hv & Ht & Hhit & Hmiss).
    by exists j, l, l'.
Qed.

Lemma freq_counts_hits_since_the_fill_witness :
  (∃ st', access lru_args sample_state_3 1 0 "M" [] = Some st'
     ∧ ∃ s j l l',
         st_cache sample_state_3 !! Z.to_nat 0 = Some s ∧ s !! j = Some l
         ∧ st_cache st'
           = <[Z.to_nat 0 := <[j := l']> s]> (st_cache sample_state_3)
         ∧ (valid l ≠ 0 ∧ tag l = 1
            → freq l' = freq l + sub_accesses ["M"%char])
         ∧ (¬ (valid l ≠ 0 ∧ tag l = 1)
            → freq l' = sub_accesses ["M"%char] - 1))
  ∧ (∃ j l l',
       [ {| valid := 1; tag := 1; recent := 3; freq := 2 |};
         {| valid := 1; tag := 2; recent := 2; freq := 0 |} ] !! j = Some l
       ∧ [ {| valid := 1; tag := 1; recent := 3; freq := 2 |};
           {| valid := 1; tag := 3; recent := 4; freq := 0 |} ]
         = <[j := l']> [ {| valid := 1; tag := 1; recent := 3; freq := 2 |};
                         {| valid := 1; tag := 2; recent := 2; freq := 0 |} ]
       ∧ valid l' ≠ 0 ∧ tag l' = 3
       ∧ (valid l ≠ 0 ∧ tag l = 3 → freq l' = freq l + 1)
       ∧ (¬ (valid l ≠ 0 ∧ tag l = 3) → freq l' = 0)).
Proof.
  split.
  - eexists. split; [vm_compute; reflexivity|].
    apply (proj1 (freq_counts_hits_since_the_fill lru_args sample_state_3 1 0
                    sample_reachable_3) "M"%char []).
    vm_compute. reflexivity.
  - apply (proj2 (freq_counts_hits_since_the_fill lru_args sample_state_3 3 0
                    sample_reachable_3)
             [ {| valid := 1; tag := 1; recent := 3; freq := 2 |};
               {| valid := 1; tag := 2; recent := 2; freq := 0 |} ]
             [ {| valid := 1; tag := 1; recent := 3; freq := 2 |};
               {| valid := 1; tag := 3; recent := 4; freq := 0 |} ]
             {| miss_count := 3; hit_count := 2; eviction_count := 1 |}
             "evict "%string).
    + reflexivity.
    + reflexivity.
Defined.

(** X25: a working set that fits is never evicted.  If no set is
    looked up for more distinct tags than it has lines, the run ends
    without an eviction, under either policy; and the survey of a
    further lookup whose tag still fits into its set does not evict
    either: it reports a hit or a miss. *)
Theorem working_set_that_fits_is_never_evicted (args : arguments)
    (ls : list lookup) (st : state) :
  Forall (λ l, Z.of_nat (length (tags_in (l_set l) ls)) ≤ perset args) ls →
  simulate args ls = Some st →
  eviction_count (st_stats st) = 0
  ∧ (∀ l s s' stats' r,
       Z.of_nat (length (tags_in (l_set l) (ls ++ [l]))) ≤ perset args →
       index (st_cache st) (l_set l) = Some s →
       surveySet s (st_stats st) (perset args) (l_tag l) (st_clock st + 1)
                 (policy args)
       = Some (s', stats', r) →
       r ≠ "evict "%string ∧ eviction_count stats' = 0).
Proof.
  intros Hfits Hls.
  assert (eviction_count (st_stats st) = 0) as Hnone.
  { revert Hfits.
    enough (∀ ls' st', simulate args ls' = Some st' →
              (∀ l, l ∈ ls' → l ∈ ls) →
              Forall (λ l, Z.of_nat (length (tags_in (l_set l) ls))
                           ≤ perset args) ls →
              eviction_count (st_stats st') = 0)
      as Hgen by (intros Hfits; by apply (Hgen ls st)).
    apply (simulate_ind args
             (λ ls' st', (∀ l, l ∈ ls' → l ∈ ls) →
                         Forall (λ l, Z.of_nat (length (tags_in (l_set l) ls))
                                      ≤ perset args) ls →
                         eviction_count (st_stats st') = 0)).
    - intros st0 Hst _ _. by rewrite (start_stats _ _ Hst).
    - intros ls' st1 l st2 Hls' IH Hacc Hsub Hfits.
      assert (eviction_count (st_stats st1) = 0) as He
        by (apply IH; [|done]; intros l0 Hl0; apply Hsub, elem_of_app; by left).
      assert (l ∈ ls) as Hl by (apply Hsub, elem_of_app; right; by left).
      assert (reachable args st1) as Hreach by by exists ls'.
      apply access_cases in Hacc
        as (s & s1 & stats1 & r1 & Hn & Hs & _ & H1 & Hop).
      assert (set_ok (perset args) s) as Hok
        by (eapply reachable_set_ok; [done|]; by eapply list_elem_of_lookup_2).
      assert (1 ≤ perset args) as Hlines
        by (eapply survey_case_nonempty; [done|]; by destruct Hok).
      pose proof (survey_case_holds _ _ _ _ _ _ _ _ _ Hlines H1) as Hholds1.
      assert (eviction_count stats1 = 0) as He1.
      { destruct H1 as [j l0 h f Hj Hsc Hl0 Hv Ht Hh Hf|j l0 m Hj Hsc Hl0 Hv Hm
                       |fi l0 m e Hsc Hfi Hl0 Hm Hev]; [done..|].
        exfalso. rewrite Forall_forall in Hfits. specialize (Hfits l Hl).
        pose proof (full_set_tags args ls' st1 (l_set l) s (l_tag l) ls
                      Hls' Hn Hs Hsc) as Hmany.
        assert (perset args < Z.of_nat (length (tags_in (l_set l) ls)));
          [|simpl in Hfits; lia].
        apply Hmany; [|by exists l].
        intros x Hx. apply Hsub, elem_of_app. by left. }
      destruct Hop as [(_ & _ & -> & _)|(_ & s2 & r2 & H2 & _)]; [done|].
      destruct (survey_case_present _ _ _ _ _ _ _ _ _ Hholds1 H2) as [-> _].
      done. }
  split; [done|].
  intros l s s' stats' r Hbound Hs H. apply surveySet_case in H.
  apply index_Some in Hs as [Hn Hs].
  assert (¬ scanned s (l_tag l) 0 (Z.to_nat (perset args))) as Hno.
  { intros Hall.
    pose proof (full_set_tags args ls st (l_set l) s (l_tag l) (ls ++ [l])
                  Hls Hn Hs Hall) as Hmany.
    assert (perset args
            < Z.of_nat (length (tags_in (l_set l) (ls ++ [l])))); [|lia].
    apply Hmany.
    - intros x Hx. apply elem_of_app. by left.
    - exists l. split; [|done]. apply elem_of_app. right. by left. }
  rewrite <- (survey_case_evict _ _ _ _ _ _ _ _ _ H) in Hno.
  split; [done|].
  destruct H as [j l0 h f Hj Hsc Hl0 Hv Ht Hh Hf|j l0 m Hj Hsc Hl0 Hv Hm
                |fi l0 m e Hsc Hfi Hl0 Hm Hev]; [done..|].
  by destruct Hno.
Qed.

Lemma working_set_that_fits_is_never_evicted_witness :
  eviction_count (st_stats sample_state_3) = 0
  ∧ ("miss "%string ≠ "evict "%string
     ∧ eviction_count {| miss_count := 2; hit_count := 1; eviction_count := 0 |}
       = 0).
Proof.
  split.
  - apply (working_set_that_fits_is_never_evicted lru_args
             (take 3 sample_lookups) sample_state_3).
    + repeat constructor; vm_compute; discriminate.
    + vm_compute. reflexivity.
  - apply (proj2 (working_set_that_fits_is_never_evicted lru_args
                    (take 1 sample_lookups) sample_state_1
                    ltac:(repeat constructor; vm_compute; discriminate)
                    eq_refl)
             {| l_tag := 2; l_set := 0; l_op := "L"; l_echo := [] |}
             [ {| valid := 1; tag := 1; recent := 2; freq := 1 |}; singleLine ]
             [ {| valid := 1; tag := 1; recent := 2; freq := 1 |};
               {| valid := 1; tag := 2; recent := 2; freq := 0 |} ]).
    + vm_compute. discriminate.
    + reflexivity.
    + reflexivity.
Defined.

(** ** The [result] buffer and the command line *)

(** X26: the text of an eviction does not fit [result].  For a hit
    [strcpy] writes 5 bytes and for a miss 6 bytes into the 6-byte
    buffer of [cacheSim]; for every survey that evicts it writes the 7
    bytes of ["evict "], one byte more than the buffer holds. *)
Theorem result_fits_unless_the_survey_evicts (s : list cLine)
    (stats : cachestats) (lines tag' clock policy : Z) (s' : list cLine)
    (stats' : cachestats) (r : string) :
  surveySet s stats lines tag' clock policy = Some (s', stats', r) →
  (eviction_count stats' = eviction_count stats →
   strcpy_bytes r ≤ result_size)
  ∧ (eviction_count stats' ≠ eviction_count stats →
     strcpy_bytes r = result_size + 1).
Proof.
  intros H. apply surveySet_case in H.
  destruct H as [j l h f Hj Hs Hl Hv Ht Hh Hf|j l m Hj Hs Hl Hv Hm
                |fi l m e Hs Hfi Hl Hm He]; simpl.
  - split; [by vm_compute|done].
  - split; [by vm_compute|done].
  - apply int_add_Some in He as [-> _]. split; [lia|done].
Qed.

Lemma result_fits_unless_the_survey_evicts_witness :
  (1 = 0 → strcpy_bytes "evict " ≤ result_size)
  ∧ (1 ≠ 0 → strcpy_bytes "evict " = result_size + 1).
Proof.
  apply (result_fits_unless_the_survey_evicts
           [ {| valid := 1; tag := 1; recent := 3; freq := 2 |};
             {| valid := 1; tag := 2; recent := 2; freq := 0 |} ]
           {| miss_count := 2; hit_count := 2; eviction_count := 0 |}
           2 3 4 LRU
           [ {| valid := 1; tag := 1; recent := 3; freq := 2 |};
             {| valid := 1; tag := 3; recent := 4; freq := 0 |} ]
           {| miss_count := 3; hit_count := 2; eviction_count := 1 |}).
  reflexivity.
Defined.

(** X27: an option that is given more than once takes its last value,
    and one that is not given keeps its default.  When [process_args]
    returns, [sbits], [perset], [bbits] and [policy] are what [atoi]
    makes of the argument of the last [-s], [-E], [-b] and [-p] (short
    or long), and 8, 1, 8 and LRU where there is none. *)
Theorem process_args_last_setting_wins (atoi : string → option Z)
    (gs : list getopt_return) (c : cmdline) :
  Forall (λ g, g_value g ≠ -1) gs →
  process_args atoi gs = Some (Returned c) →
  Some (sbits (c_args c)) = last_setting atoi (char_code "s") 8 gs
  ∧ Some (perset (c_args c)) = last_setting atoi (char_code "E") 1 gs
  ∧ Some (bbits (c_args c)) = last_setting atoi (char_code "b") 8 gs
  ∧ Some (policy (c_args c)) = last_setting atoi (char_code "p") LRU gs.
Proof.
  intros Hgs H. unfold process_args in H.
  split_and!;
    [apply (process_loop_last atoi sbits _) with (c := default_cmdline)
    |apply (process_loop_last atoi perset _) with (c := default_cmdline)
    |apply (process_loop_last atoi bbits _) with (c := default_cmdline)
    |apply (process_loop_last atoi policy _) with (c := default_cmdline)];
    try done; intros c0 g c1 Hopt;
    apply process_option_fields in Hopt; cbv zeta in Hopt; tauto.
Qed.

Lemma process_args_last_setting_wins_witness :
  ∃ c, process_args (λ text, Some (Z.of_nat (String.length text)))
         [ {| g_value := char_code "s"; g_optarg := Some "one";
              g_index := 0 |};
           {| g_value := char_code "v"; g_optarg := None; g_index := 0 |};
           {| g_value := char_code "s"; g_optarg := Some "four";
              g_index := 0 |} ]
       = Some (Returned c)
       ∧ Some (sbits (c_args c)) = Some 4
       ∧ Some (perset (c_args c)) = Some 1
       ∧ Some (bbits (c_args c)) = Some 8
       ∧ Some (policy (c_args c)) = Some LRU.
Proof.
  eexists. split; [vm_compute; reflexivity|].
  apply (process_args_last_setting_wins
           (λ text, Some (Z.of_nat (String.length text)))
           [ {| g_value := char_code "s"; g_optarg := Some "one";
                g_index := 0 |};
             {| g_value := char_code "v"; g_optarg := None; g_index := 0 |};
             {| g_value := char_code "s"; g_optarg := Some "four";
                g_index := 0 |} ]).
  - repeat constructor; discriminate.
  - vm_compute. reflexivity.
Defined.

(** X28: after an error [process_args] goes on.  The returns of ['?'],
    with which [getopt_long] reports an unknown option or a missing
    argument, change nothing: the arguments are processed as if those
    options had not been given. *)
Theorem getopt_errors_are_passed_over (atoi : string → option Z)
    (gs : list getopt_return) :
  process_args atoi (filter (λ g, g_value g ≠ char_code "?") gs)
  = process_args atoi gs.
Proof.
  unfold process_args. generalize default_cmdline.
  induction gs as [|g gs IH]; intros c; [done|].
  destruct (decide (g_value g = char_code "?")) as [Hq|Hq].
  - rewrite filter_cons_False by (intros Hne; by apply Hne).
    rewrite IH. simpl. rewrite decide_False by (by rewrite Hq).
    unfold process_option. rewrite Hq.
    repeat (rewrite decide_False by (by vm_compute)).
    rewrite decide_True by done. done.
  - rewrite filter_cons_True by done. simpl.
    destruct (decide (g_value g = -1)); [done|].
    destruct (process_option atoi c g) as [[c'|]|]; simpl; [apply IH|done..].
Qed.

(** X29: the length of the trace file name is not checked.  A [-t]
    whose argument has 256 characters or more is copied past the end of
    [tracefile]: from that return of [getopt_long] on [process_args]
    has no defined result. *)
Theorem long_trace_name_overruns_tracefile (atoi : string → option Z)
    (gs gs' : list getopt_return) (g : getopt_return) (c : cmdline)
    (name : string) :
  Forall (λ g, g_value g ≠ -1) gs →
  process_args atoi gs = Some (Returned c) →
  g_value g = char_code "t" → g_optarg g = Some name →
  MAXFILE ≤ Z.of_nat (String.length name) →
  process_args atoi (gs ++ g :: gs') = None.
Proof.
  intros Hgs H Hg Hname Hlen. unfold process_args in *.
  rewrite (process_loop_app _ _ _ _ _ Hgs H). simpl.
  rewrite decide_False by (by rewrite Hg).
  unfold process_option. rewrite Hg, Hname.
  repeat (rewrite decide_False by (by vm_compute)).
  rewrite decide_True by done.
  rewrite decide_False by (unfold strcpy_bytes; lia). done.
Qed.

Lemma long_trace_name_overruns_tracefile_witness :
  process_args (λ _, Some 0)
    ([ {| g_value := char_code "v"; g_optarg := None; g_index := 0 |} ]
     ++ {| g_value := char_code "t";
           g_optarg := Some (String.string_of_list_ascii (replicate 256 "a"%char));
           g_index := 0 |} :: [])
  = None.
Proof.
  apply (long_trace_name_overruns_tracefile (λ _, Some 0)
           [ {| g_value := char_code "v"; g_optarg := None; g_index := 0 |} ]
           [] _ (with_args (set_verbose 1) default_cmdline)
           (String.string_of_list_ascii (replicate 256 "a"%char))).
  - repeat constructor; discriminate.
  - reflexivity.
  - reflexivity.
  - reflexivity.
  - vm_compute. discriminate.
Defined.
